(** * s3-format-fixer: the text normalizer and the envelope codec

    A shallow embedding of [main.go]: the three regular-expression passes of
    [parseUnquotedJSON], the custom JSON codecs of [snsTimestamp] and
    [messageAttributes], the [sns] and [snsEvent] records, and the body of the
    per-object loop of [main].  Go strings are byte sequences and are
    modelled as lists of [ascii]. *)

From Stdlib Require Import Ascii String.
From Stdlib Require Import List ZArith Lia Bool Arith PeanoNat DecimalString.
From Stdlib Require Decimal DecimalFacts DecimalPos.
Import ListNotations.

Set Implicit Arguments.
Set Warnings "-register-all".

(** ** Text *)

Definition text := list ascii.

(** The double-quote character, written by its code. *)
Definition dq : ascii := ascii_of_nat 34.

(** Literals follow Go's raw strings: the text is written between
    ordinary string quotes, and a back-quote inside it stands for the
    double-quote character. *)
Definition bq (s : string) : text :=
  map (fun c => if Ascii.eqb c "`" then dq else c) (list_ascii_of_string s).

Definition text_eqb (a b : text) : bool :=
  if list_eq_dec ascii_dec a b then true else false.

Definition in_range (lo hi c : ascii) : bool :=
  (nat_of_ascii lo <=? nat_of_ascii c) && (nat_of_ascii c <=? nat_of_ascii hi).

Definition is_digit (c : ascii) : bool := in_range "0" "9" c.

(** The longest prefix of characters satisfying [p], and the text after it. *)
Fixpoint span (p : ascii -> bool) (s : text) : text * text :=
  match s with
  | c :: s1 =>
      if p c then let (a, b) := span p s1 in (c :: a, b) else ([], s)
  | [] => ([], [])
  end.

(** ** Outcomes of Go code

    A call returns a value, returns a non-nil [error], ends the process
    through [exitErrorf] (log.Fatalf then os.Exit(1)), or panics. *)

Inductive error : Type :=
| SyntaxError                                   (* *json.SyntaxError *)
| UnmarshalTypeError (value : string) (gotype : string)
                                                (* *json.UnmarshalTypeError *)
| UnsupportedValueError.                        (* *json.UnsupportedValueError *)

(** An argument of a format string. *)
Inductive arg : Type :=
| AText (t : text)
| AError (e : error).

Inductive outcome (A : Type) : Type :=
| Ok (a : A)
| Err (e : error)
| Exit (msg : string) (args : list arg)
| Panic (msg : string).

Arguments Ok {A} a.
Arguments Err {A} e.
Arguments Exit {A} msg args.
Arguments Panic {A} msg.

Definition bind {A B} (m : outcome A) (k : A -> outcome B) : outcome B :=
  match m with
  | Ok a => k a
  | Err e => Err e
  | Exit msg args => Exit msg args
  | Panic msg => Panic msg
  end.

Notation "x <- m ;; k" := (bind m (fun x => k))
  (at level 61, m at next level, right associativity).

(** [exitErrorf msg args]: the message is logged and the process exits. *)
Definition exitErrorf {A} (msg : string) (args : list arg) : outcome A :=
  Exit msg args.

(** ** Regular expressions (package regexp)

    The fragment of RE2 syntax that the three patterns of
    [parseUnquotedJSON] use: literal characters, escapes, bracketed classes
    with ranges, capturing groups, and the greedy postfix operators. *)

Module Regexp.

Inductive regex : Type :=
| REmpty
| RChar (c : ascii)
| RClass (ranges : list (ascii * ascii))
| RSeq (r1 r2 : regex)
| ROpt (r : regex)
| RPlus (r : regex)
| RGroup (n : nat) (r : regex).

Definition in_class (ranges : list (ascii * ascii)) (c : ascii) : bool :=
  existsb (fun lh => in_range (fst lh) (snd lh) c) ranges.

(** Perl class \s of RE2: tab, newline, form feed, carriage return, space. *)
Definition space_class : list (ascii * ascii) :=
  [ (ascii_of_nat 9, ascii_of_nat 10);
    (ascii_of_nat 12, ascii_of_nat 13);
    (" "%char, " "%char) ].

(** *** Parsing a pattern *)

Definition is_meta (c : ascii) : bool :=
  in_class [ ("("%char, "+"%char); ("?"%char, "?"%char); ("."%char, "."%char);
             ("["%char, "^"%char); ("{"%char, "}"%char); ("$"%char, "$"%char) ] c.

Definition is_word (c : ascii) : bool :=
  in_class [ ("a"%char, "z"%char); ("A"%char, "Z"%char); ("0"%char, "9"%char);
             ("_"%char, "_"%char) ] c.

(** An escape: \s is the space class, an escaped punctuation character is
    that character. *)
Definition parse_escape (c : ascii) : option (list (ascii * ascii)) :=
  if Ascii.eqb c "s" then Some space_class
  else if is_word c then None
  else Some [ (c, c) ].

(** The items of a bracketed class up to the closing bracket. *)
Fixpoint parse_class (p : text) (acc : list (ascii * ascii))
  : option (list (ascii * ascii) * text) :=
  match p with
  | [] => None
  | c :: p1 =>
      if Ascii.eqb c "]" then Some (acc, p1)
      else if Ascii.eqb c "\" then
        match p1 with
        | e :: p2 =>
            match parse_escape e with
            | Some rs => parse_class p2 (acc ++ rs)
            | None => None
            end
        | [] => None
        end
      else
        match p1 with
        | d :: hi :: p3 =>
            if Ascii.eqb d "-" && negb (Ascii.eqb hi "]") && negb (Ascii.eqb hi "\")
            then parse_class p3 (acc ++ [ (c, hi) ])
            else parse_class p1 (acc ++ [ (c, c) ])
        | _ => parse_class p1 (acc ++ [ (c, c) ])
        end
  end.

(** Postfix operators after an atom. *)
Definition parse_postfix (r : regex) (p : text) : regex * text :=
  match p with
  | c :: p1 =>
      if Ascii.eqb c "?" then (ROpt r, p1)
      else if Ascii.eqb c "+" then (RPlus r, p1)
      else if Ascii.eqb c "*" then (ROpt (RPlus r), p1)
      else (r, p)
  | [] => (r, p)
  end.

(** A concatenation of atoms, up to a closing parenthesis or the end of the
    pattern; [idx] is the number of the next capturing group. *)
Fixpoint parse_seq (fuel : nat) (p : text) (idx : nat)
  : option (regex * text * nat) :=
  match fuel with
  | O => None
  | S f =>
      match p with
      | [] => Some (REmpty, p, idx)
      | c :: p1 =>
          if Ascii.eqb c ")" then Some (REmpty, p, idx)
          else
            let atom :=
              if Ascii.eqb c "(" then
                match parse_seq f p1 (S idx) with
                | Some (r, close :: p2, idx') =>
                    if Ascii.eqb close ")" then Some (RGroup idx r, p2, idx')
                    else None
                | _ => None
                end
              else if Ascii.eqb c "[" then
                match parse_class p1 [] with
                | Some (rs, p2) => Some (RClass rs, p2, idx)
                | None => None
                end
              else if Ascii.eqb c "\" then
                match p1 with
                | e :: p2 =>
                    match parse_escape e with
                    | Some [ (lo, hi) ] =>
                        if Ascii.eqb lo hi then Some (RChar lo, p2, idx)
                        else Some (RClass [ (lo, hi) ], p2, idx)
                    | Some rs => Some (RClass rs, p2, idx)
                    | None => None
                    end
                | [] => None
                end
              else if is_meta c then None
              else Some (RChar c, p1, idx) in
            match atom with
            | Some (a, p2, idx') =>
                let (a', p3) := parse_postfix a p2 in
                match parse_seq f p3 idx' with
                | Some (r, p4, idx'') => Some (RSeq a' r, p4, idx'')
                | None => None
                end
            | None => None
            end
      end
  end.

Definition Compile (pattern : text) : option regex :=
  match parse_seq (S (length pattern)) pattern 1 with
  | Some (r, [], _) => Some r
  | _ => None
  end.

(** [regexp.MustCompile] panics when the pattern does not compile. *)
Definition MustCompile (pattern : text) : outcome regex :=
  match Compile pattern with
  | Some r => Ok r
  | None => Panic "regexp: Compile: error parsing regexp"
  end.

(** *** Matching

    [rmatch r s caps] lists the ways [r] matches a prefix of [s], in the
    order a backtracking matcher tries them (greedy operators take the
    longer alternative first); each result is the captures and the text left.
    The leftmost-first match of Go's regexp is the head of the list. *)

Definition captures := list (nat * text).

Fixpoint plus_iter (step : text -> captures -> list (captures * text))
  (fuel : nat) (s : text) (caps : captures) : list (captures * text) :=
  match fuel with
  | O => []
  | S f =>
      flat_map
        (fun r : captures * text =>
           (if length (snd r) <? length s
            then plus_iter step f (snd r) (fst r) else [])
           ++ [ r ])
        (step s caps)
  end.

Fixpoint rmatch (r : regex) (s : text) (caps : captures)
  : list (captures * text) :=
  match r with
  | REmpty => [ (caps, s) ]
  | RChar c =>
      match s with
      | d :: s1 => if Ascii.eqb c d then [ (caps, s1) ] else []
      | [] => []
      end
  | RClass rs =>
      match s with
      | d :: s1 => if in_class rs d then [ (caps, s1) ] else []
      | [] => []
      end
  | RSeq r1 r2 =>
      flat_map (fun m : captures * text => rmatch r2 (snd m) (fst m))
        (rmatch r1 s caps)
  | ROpt r1 => rmatch r1 s caps ++ [ (caps, s) ]
  | RPlus r1 => plus_iter (rmatch r1) (S (length s)) s caps
  | RGroup n r1 =>
      map (fun m : captures * text =>
             ((n, firstn (length s - length (snd m)) s) :: fst m, snd m))
        (rmatch r1 s caps)
  end.

(** The match anchored at the start of [s]: captures and remaining text. *)
Definition match_here (re : regex) (s : text) : option (captures * text) :=
  match rmatch re s [] with
  | m :: _ => Some m
  | [] => None
  end.

(** *** Templates: [$name] is the text of a group, [$$] a dollar sign *)

Fixpoint group_text (caps : captures) (n : nat) : text :=
  match caps with
  | [] => []
  | (k, t) :: rest => if Nat.eqb k n then t else group_text rest n
  end.

Fixpoint decimal_value (name : text) (acc : nat) : option nat :=
  match name with
  | [] => Some acc
  | c :: rest =>
      if is_digit c
      then decimal_value rest (10 * acc + (nat_of_ascii c - 48))
      else None
  end.

(** A name of digits is a group number; the patterns have no named group,
    so any other name expands to nothing. *)
Definition reference (caps : captures) (name : text) : text :=
  match decimal_value name 0 with
  | Some n => group_text caps n
  | None => []
  end.

Fixpoint expand_from (template : text) (pending : option text)
  (caps : captures) : text :=
  match template with
  | [] =>
      match pending with
      | None => []
      | Some [] => [ "$"%char ]
      | Some name => reference caps name
      end
  | c :: t =>
      match pending with
      | None =>
          if Ascii.eqb c "$" then expand_from t (Some []) caps
          else c :: expand_from t None caps
      | Some name =>
          if is_word c then expand_from t (Some (name ++ [ c ])) caps
          else
            match name with
            | [] =>
                if Ascii.eqb c "$" then "$"%char :: expand_from t None caps
                else "$"%char :: c :: expand_from t None caps
            | _ =>
                reference caps name ++
                (if Ascii.eqb c "$" then expand_from t (Some []) caps
                 else c :: expand_from t None caps)
            end
      end
  end.

Definition expand (template : text) (caps : captures) : text :=
  expand_from template None caps.

(** *** ReplaceAllString

    The text is scanned from the left.  Where the pattern matches, the
    expanded template is emitted and the scan resumes after the match;
    elsewhere the character is copied.  [skip] counts the characters of the
    current match still to pass over.  (A match of the empty string is
    treated as no match; the patterns of this program match at least three
    characters.) *)

Fixpoint replace_scan (re : regex) (repl : text) (skip : nat) (s : text)
  : text :=
  match s with
  | [] => []
  | c :: s1 =>
      match skip with
      | S k => replace_scan re repl k s1
      | O =>
          match match_here re s with
          | Some (caps, rest) =>
              match length s - length rest with
              | O => c :: replace_scan re repl 0 s1
              | S k => expand repl caps ++ replace_scan re repl k s1
              end
          | None => c :: replace_scan re repl 0 s1
          end
      end
  end.

Definition ReplaceAllString (re : regex) (src repl : text) : text :=
  replace_scan re repl 0 src.

End Regexp.

(** ** The text normalizer: [parseUnquotedJSON] *)

Definition key_pattern : text := bq "(['`])?([a-z0-9A-Z_]+)(['`])?:\s".
Definition value_pattern : text :=
  bq ": (['`])?([a-z0-9A-Z_\/\.\-\:\?\&\=\+]+)(['`])?".
Definition number_pattern : text := bq ": ([`']?)([0-9\.]+)([`']?),".

Definition parseUnquotedJSON (unquotedJSON : text) : outcome text :=
  (* Add quotes to the field names *)
  re <- Regexp.MustCompile key_pattern ;;
  let s := Regexp.ReplaceAllString re unquotedJSON (bq "`$2`: ") in
  (* Add quotes to the values *)
  re <- Regexp.MustCompile value_pattern ;;
  let s := Regexp.ReplaceAllString re s (bq ": `$2`") in
  (* Remove quotes from the numbers *)
  re <- Regexp.MustCompile number_pattern ;;
  let s := Regexp.ReplaceAllString re s (bq ": $2,") in
  Ok s.

(** ** JSON texts (package encoding/json)

    [json.Unmarshal] first checks that the whole input is one valid JSON
    text and returns a [*json.SyntaxError] otherwise; only then are values
    stored.  The model parses the text into a tree and decodes the tree. *)

Module Json.

Inductive value : Type :=
| Null
| Bool (b : bool)
| Number (literal : text)
| Str (s : text)
| Array (elements : list value)
| Object (members : list (text * value)).

Definition code (c : ascii) : nat := nat_of_ascii c.
Definition byte (n : nat) : ascii := ascii_of_nat n.

Definition is_ws (c : ascii) : bool :=
  Ascii.eqb c " " || Ascii.eqb c (byte 9) || Ascii.eqb c (byte 10)
  || Ascii.eqb c (byte 13).

Fixpoint skip_ws (s : text) : text :=
  match s with
  | c :: s1 => if is_ws c then skip_ws s1 else s
  | [] => []
  end.

(** *** UTF-8 *)

Definition continuation (c : ascii) : bool := in_range (byte 128) (byte 191) c.

(** Length of the well-formed UTF-8 sequence at the head of [s], if any
    (the accept ranges of unicode/utf8). *)
Definition utf8_len (s : text) : option nat :=
  match s with
  | [] => None
  | c0 :: r =>
      let b0 := code c0 in
      if b0 <? 128 then Some 1
      else if (194 <=? b0) && (b0 <=? 223) then
        match r with
        | c1 :: _ => if continuation c1 then Some 2 else None
        | _ => None
        end
      else if (224 <=? b0) && (b0 <=? 239) then
        match r with
        | c1 :: c2 :: _ =>
            let lo := if b0 =? 224 then 160 else 128 in
            let hi := if b0 =? 237 then 159 else 191 in
            if in_range (byte lo) (byte hi) c1 && continuation c2
            then Some 3 else None
        | _ => None
        end
      else if (240 <=? b0) && (b0 <=? 244) then
        match r with
        | c1 :: c2 :: c3 :: _ =>
            let lo := if b0 =? 240 then 144 else 128 in
            let hi := if b0 =? 244 then 143 else 191 in
            if in_range (byte lo) (byte hi) c1 && continuation c2
               && continuation c3
            then Some 4 else None
        | _ => None
        end
      else None
  end.

(** U+FFFD, the replacement character. *)
Definition replacement : text := [ byte 239; byte 191; byte 189 ].

Definition encode_rune (r : N) : text :=
  let b (n : N) := ascii_of_N n in
  (if r <? 128 then [ b r ]
   else if r <? 2048 then [ b (192 + r / 64); b (128 + r mod 64) ]
   else if (55296 <=? r) && (r <=? 57343) then replacement
   else if r <? 65536 then
     [ b (224 + r / 4096); b (128 + (r / 64) mod 64); b (128 + r mod 64) ]
   else if r <? 1114112 then
     [ b (240 + r / 262144); b (128 + (r / 4096) mod 64);
       b (128 + (r / 64) mod 64); b (128 + r mod 64) ]
   else replacement)%N.

Definition hex_digit (c : ascii) : option N :=
  (if is_digit c then Some (N_of_ascii c - 48)
   else if in_range "a" "f" c then Some (N_of_ascii c - 87)
   else if in_range "A" "F" c then Some (N_of_ascii c - 55)
   else None)%N.

Definition hex4 (a b c d : ascii) : option N :=
  match hex_digit a, hex_digit b, hex_digit c, hex_digit d with
  | Some x, Some y, Some z, Some w =>
      Some (((x * 16 + y) * 16 + z) * 16 + w)%N
  | _, _, _, _ => None
  end.

Definition is_surrogate (r : N) : bool := ((55296 <=? r) && (r <=? 57343))%N.

(** The rune of a surrogate pair of UTF-16, if [hi] and [lo] are one. *)
Definition surrogate_pair (hi lo : N) : option N :=
  (if (hi <? 56320) && (56320 <=? lo) && (lo <=? 57343)
   then Some (65536 + (hi - 55296) * 1024 + (lo - 56320))
   else None)%N.

Definition simple_escape (e : ascii) : option ascii :=
  if Ascii.eqb e dq || Ascii.eqb e "\" || Ascii.eqb e "/" then Some e
  else if Ascii.eqb e "b" then Some (byte 8)
  else if Ascii.eqb e "f" then Some (byte 12)
  else if Ascii.eqb e "n" then Some (byte 10)
  else if Ascii.eqb e "r" then Some (byte 13)
  else if Ascii.eqb e "t" then Some (byte 9)
  else None.

Definition prepend (pre : text) (r : option (text * text))
  : option (text * text) :=
  match r with
  | Some (a, b) => Some (pre ++ a, b)
  | None => None
  end.

(** *** String literals

    [parse_string s copy] reads the body of a string literal, after the
    opening quote, up to the closing quote, and gives the string it denotes
    and the text after the literal.  Escapes are resolved, a surrogate pair
    of \u escapes is one rune, and bytes that are not well-formed UTF-8
    become U+FFFD.  [copy] counts the remaining bytes of a UTF-8 sequence
    being copied. *)
Fixpoint parse_string (s : text) (copy : nat) : option (text * text) :=
  match s with
  | [] => None
  | c :: s1 =>
      match copy with
      | S k => prepend [ c ] (parse_string s1 k)
      | O =>
          if Ascii.eqb c dq then Some ([], s1)
          else if Ascii.eqb c "\" then
            match s1 with
            | e :: s2 =>
                if Ascii.eqb e "u" then
                  match s2 with
                  | h1 :: h2 :: h3 :: h4 :: s3 =>
                      match hex4 h1 h2 h3 h4 with
                      | Some r =>
                          if is_surrogate r then
                            match s3 with
                            | b1 :: u1 :: g1 :: g2 :: g3 :: g4 :: s4 =>
                                match hex4 g1 g2 g3 g4 with
                                | Some r2 =>
                                    match surrogate_pair r r2 with
                                    | Some rune =>
                                        if Ascii.eqb b1 "\" && Ascii.eqb u1 "u"
                                        then prepend (encode_rune rune)
                                               (parse_string s4 0)
                                        else prepend replacement
                                               (parse_string s3 0)
                                    | None =>
                                        prepend replacement (parse_string s3 0)
                                    end
                                | None => prepend replacement (parse_string s3 0)
                                end
                            | _ => prepend replacement (parse_string s3 0)
                            end
                          else prepend (encode_rune r) (parse_string s3 0)
                      | None => None
                      end
                  | _ => None
                  end
                else
                  match simple_escape e with
                  | Some x => prepend [ x ] (parse_string s2 0)
                  | None => None
                  end
            | [] => None
            end
          else if code c <? 32 then None
          else
            match utf8_len s with
            | Some n => prepend [ c ] (parse_string s1 (n - 1))
            | None => prepend replacement (parse_string s1 0)
            end
      end
  end.

(** *** Number literals

    An optional minus sign; a zero, or a non-zero digit and more digits;
    an optional fraction; an optional exponent. *)

Definition parse_digits (s : text) : option (text * text) :=
  match span is_digit s with
  | ([], _) => None
  | r => Some r
  end.

Definition parse_number (s : text) : option (text * text) :=
  let (sign, s1) :=
    match s with
    | "-"%char :: r => ([ "-"%char ], r)
    | _ => ([], s)
    end in
  let int_part :=
    match s1 with
    | "0"%char :: r => Some ([ "0"%char ], r)
    | _ => parse_digits s1
    end in
  match int_part with
  | None => None
  | Some (i, s2) =>
      let frac_part :=
        match s2 with
        | "."%char :: r => prepend [ "."%char ] (parse_digits r)
        | _ => Some ([], s2)
        end in
      match frac_part with
      | None => None
      | Some (f, s3) =>
          let exp_part :=
            match s3 with
            | e :: r =>
                if Ascii.eqb e "e" || Ascii.eqb e "E" then
                  match r with
                  | g :: r1 =>
                      if Ascii.eqb g "+" || Ascii.eqb g "-"
                      then prepend [ e; g ] (parse_digits r1)
                      else prepend [ e ] (parse_digits r)
                  | [] => None
                  end
                else Some ([], s3)
            | [] => Some ([], s3)
            end in
          match exp_part with
          | None => None
          | Some (x, s4) => Some (sign ++ i ++ f ++ x, s4)
          end
      end
  end.

Definition strip_prefix (pre s : text) : option text :=
  if text_eqb (firstn (length pre) s) pre then Some (skipn (length pre) s)
  else None.

(** *** Values *)

Fixpoint parse_value (fuel : nat) (s : text) : option (value * text) :=
  match fuel with
  | O => None
  | S f =>
      match skip_ws s with
      | [] => None
      | c :: s1 =>
          if Ascii.eqb c "{" then
            match skip_ws s1 with
            | "}"%char :: s2 => Some (Object [], s2)
            | _ =>
                match parse_members f s1 with
                | Some (ms, s2) => Some (Object ms, s2)
                | None => None
                end
            end
          else if Ascii.eqb c "[" then
            match skip_ws s1 with
            | "]"%char :: s2 => Some (Array [], s2)
            | _ =>
                match parse_elements f s1 with
                | Some (vs, s2) => Some (Array vs, s2)
                | None => None
                end
            end
          else if Ascii.eqb c dq then
            match parse_string s1 0 with
            | Some (str, s2) => Some (Str str, s2)
            | None => None
            end
          else if Ascii.eqb c "t" then
            option_map (fun r => (Bool true, r)) (strip_prefix (bq "true") (c :: s1))
          else if Ascii.eqb c "f" then
            option_map (fun r => (Bool false, r)) (strip_prefix (bq "false") (c :: s1))
          else if Ascii.eqb c "n" then
            option_map (fun r => (Null, r)) (strip_prefix (bq "null") (c :: s1))
          else
            match parse_number (c :: s1) with
            | Some (lit, s2) => Some (Number lit, s2)
            | None => None
            end
      end
  end

with parse_members (fuel : nat) (s : text) : option (list (text * value) * text) :=
  match fuel with
  | O => None
  | S f =>
      match skip_ws s with
      | q :: s1 =>
          if Ascii.eqb q dq then
            match parse_string s1 0 with
            | Some (key, s2) =>
                match skip_ws s2 with
                | ":"%char :: s3 =>
                    match parse_value f s3 with
                    | Some (v, s4) =>
                        match skip_ws s4 with
                        | ","%char :: s5 =>
                            match parse_members f s5 with
                            | Some (ms, s6) => Some ((key, v) :: ms, s6)
                            | None => None
                            end
                        | "}"%char :: s5 => Some ([ (key, v) ], s5)
                        | _ => None
                        end
                    | None => None
                    end
                | _ => None
                end
            | None => None
            end
          else None
      | [] => None
      end
  end

with parse_elements (fuel : nat) (s : text) : option (list value * text) :=
  match fuel with
  | O => None
  | S f =>
      match parse_value f s with
      | Some (v, s1) =>
          match skip_ws s1 with
          | ","%char :: s2 =>
              match parse_elements f s2 with
              | Some (vs, s3) => Some (v :: vs, s3)
              | None => None
              end
          | "]"%char :: s2 => Some ([ v ], s2)
          | _ => None
          end
      | None => None
      end
  end.

(** The whole input must be one value between optional white space. *)
Definition Parse (data : text) : option value :=
  match parse_value (S (length data)) data with
  | Some (v, rest) =>
      match skip_ws rest with
      | [] => Some v
      | _ => None
      end
  | None => None
  end.

(** The word the decoder uses for a value in an [UnmarshalTypeError]. *)
Definition describe (v : value) : string :=
  match v with
  | Null => "null"
  | Bool _ => "bool"
  | Number _ => "number"
  | Str _ => "string"
  | Array _ => "array"
  | Object _ => "object"
  end.

End Json.

(** ** Instants (package time)

    A [Time] is an instant: seconds since the Unix epoch and nanoseconds
    within the second.  [int64] arithmetic wraps around. *)

Module Time.

Open Scope Z_scope.

Definition wrap64 (x : Z) : Z := (x + 2 ^ 63) mod 2 ^ 64 - 2 ^ 63.

Record Time : Type := { sec : Z; nsec : Z }.

(** [time.Unix(sec, nsec)]: [nsec] outside [0, 999999999] is carried into
    the seconds. *)
Definition Unix (s ns : Z) : Time :=
  if (ns <? 0) || (1000000000 <=? ns) then
    let n := Z.quot ns 1000000000 in
    let s := wrap64 (s + n) in
    let ns := wrap64 (ns - n * 1000000000) in
    if ns <? 0
    then {| sec := wrap64 (s - 1); nsec := ns + 1000000000 |}
    else {| sec := s; nsec := ns |}
  else {| sec := s; nsec := ns |}.

(** [t.UnixNano()]: the product and the sum are computed in [int64]. *)
Definition UnixNano (t : Time) : Z :=
  wrap64 (sec t * 1000000000 + nsec t).

(** [time.Millisecond], a [Duration] in nanoseconds. *)
Definition Millisecond : Z := 1000000.

(** *** The civil calendar *)

Definition is_leap (y : Z) : bool :=
  (y mod 4 =? 0) && (negb (y mod 100 =? 0) || (y mod 400 =? 0)).

Definition daysIn (m y : Z) : Z :=
  if m =? 2 then (if is_leap y then 29 else 28)
  else if (m =? 4) || (m =? 6) || (m =? 9) || (m =? 11) then 30
  else 31.

Definition days_before_month (m y : Z) : Z :=
  nth (Z.to_nat (m - 1))
    [ 0; 31; 59; 90; 120; 151; 181; 212; 243; 273; 304; 334 ] 0
  + (if is_leap y && (2 <? m) then 1 else 0).

(** Days from 1970-01-01 to the first day of year [y] (proleptic
    Gregorian calendar). *)
Definition days_before_year (y : Z) : Z :=
  365 * (y - 1) + (y - 1) / 4 - (y - 1) / 100 + (y - 1) / 400 - 719162.

(** [time.Date] in UTC, for fields that are in range. *)
Definition Date (year month day hour min s ns : Z) : Time :=
  {| sec := (days_before_year year + days_before_month month year + (day - 1))
            * 86400 + hour * 3600 + min * 60 + s;
     nsec := ns |}.

(** *** [time.Parse] with the layout [time.RFC3339]

    The layout is 2006-01-02T15:04:05Z07:00.  The parser follows the
    layout element by element: a four-digit year, two-digit month and
    day, an hour of one or two digits, two-digit minute and second, an
    optional fraction of a second after a period or comma (which the layout
    does not name but the parser accepts), and either the letter Z or a
    signed offset hh:mm.  Values out of range, a day the month does not
    have, and text left over are errors. *)

Definition digit (c : ascii) : Z := Z.of_nat (nat_of_ascii c - 48).

Fixpoint decimal (ds : text) (acc : Z) : Z :=
  match ds with
  | [] => acc
  | c :: r => decimal r (10 * acc + digit c)
  end.

Definition getnum (s : text) (fixed : bool) : option (Z * text) :=
  match s with
  | c0 :: r0 =>
      if is_digit c0 then
        match r0 with
        | c1 :: r1 =>
            if is_digit c1 then Some (digit c0 * 10 + digit c1, r1)
            else if fixed then None else Some (digit c0, r0)
        | [] => if fixed then None else Some (digit c0, r0)
        end
      else None
  | [] => None
  end.

(** The literal text of the layout between two elements. *)
Definition skip (value : text) (c : ascii) : option text :=
  match value with
  | d :: r => if Ascii.eqb c d then Some r else None
  | [] => None
  end.

Definition ranged (lo hi : Z) (r : option (Z * text)) : option (Z * text) :=
  match r with
  | Some (n, rest) => if (lo <=? n) && (n <=? hi) then r else None
  | None => None
  end.

Definition commaOrPeriod (c : ascii) : bool :=
  Ascii.eqb c "." || Ascii.eqb c ",".

(** The fraction after the seconds: at most nine digits count. *)
Definition parse_fraction (value : text) : Z * text :=
  match value with
  | p :: d :: _ =>
      if commaOrPeriod p && is_digit d then
        let (ds, rest) := span is_digit (tl value) in
        let nine := firstn 9 ds in
        (decimal nine 0 * 10 ^ (Z.of_nat (9 - length nine)), rest)
      else (0, value)
  | _ => (0, value)
  end.

(** The zone: [Some offset] in seconds east of UTC, and the text left. *)
Definition parse_zone (value : text) : option (Z * text) :=
  match value with
  | "Z"%char :: rest => Some (0, rest)
  | sign :: h1 :: h2 :: colon :: m1 :: m2 :: rest =>
      if Ascii.eqb colon ":" then
        match getnum [ h1; h2 ] true, getnum [ m1; m2 ] true with
        | Some (hr, _), Some (mm, _) =>
            if (24 <? hr) || (60 <? mm) then None
            else if Ascii.eqb sign "+" then Some ((hr * 60 + mm) * 60, rest)
            else if Ascii.eqb sign "-" then Some (- ((hr * 60 + mm) * 60), rest)
            else None
        | _, _ => None
        end
      else None
  | _ => None
  end.

Definition opt_bind {A B} (m : option A) (k : A -> option B) : option B :=
  match m with
  | Some a => k a
  | None => None
  end.

Definition Parse_RFC3339 (value : text) : option Time :=
  let y := firstn 4 value in
  if negb ((length y =? 4)%nat && forallb is_digit y) then None
  else
    let year := decimal y 0 in
    opt_bind (skip (skipn 4 value) "-") (fun value =>
    opt_bind (ranged 1 12 (getnum value true)) (fun '(month, value) =>
    opt_bind (skip value "-") (fun value =>
    opt_bind (getnum value true) (fun '(day, value) =>
    opt_bind (skip value "T") (fun value =>
    opt_bind (ranged 0 23 (getnum value false)) (fun '(hour, value) =>
    opt_bind (skip value ":") (fun value =>
    opt_bind (ranged 0 59 (getnum value true)) (fun '(min, value) =>
    opt_bind (skip value ":") (fun value =>
    opt_bind (ranged 0 59 (getnum value true)) (fun '(s, value) =>
    let (ns, value) := parse_fraction value in
    opt_bind (parse_zone value) (fun '(zoneOffset, value) =>
    match value with
    | _ :: _ => None
    | [] =>
        if (day <? 1) || (daysIn month year <? day) then None
        else
          let t := Date year month day hour min s ns in
          Some {| sec := sec t - zoneOffset; nsec := nsec t |}
    end))))))))))).

Close Scope Z_scope.

End Time.

(** [strconv.FormatInt(i, 10)] *)
Definition FormatInt (i : Z) : text :=
  list_ascii_of_string (NilZero.string_of_int (Z.to_int i)).

(** [strconv.ParseInt(s, 10, 64)] *)
Definition ParseInt (s : text) : option Z :=
  let (neg, ds) :=
    match s with
    | "-"%char :: r => (true, r)
    | "+"%char :: r => (false, r)
    | _ => (false, s)
    end in
  match ds with
  | [] => None
  | _ =>
      if forallb is_digit ds then
        let n := Time.decimal ds 0 in
        let v := if neg then (- n)%Z else n in
        if ((- 2 ^ 63 <=? v) && (v <? 2 ^ 63))%Z then Some v else None
      else None
  end.

(** ** Storing JSON values in Go variables

    While it fills a variable the decoder keeps the first type mismatch it
    meets ([d.saveError]) and goes on; the saved error is returned at the
    end.  A JSON null stored in a string or a number changes nothing. *)

Definition save_error (saved : option error) (e : error) : option error :=
  match saved with
  | Some _ => saved
  | None => Some e
  end.

Definition mismatch (v : Json.value) (gotype : string) : error :=
  UnmarshalTypeError (Json.describe v) gotype.

Definition store_string (v : Json.value) (cur : text) (saved : option error)
  : text * option error :=
  match v with
  | Json.Str s => (s, saved)
  | Json.Null => (cur, saved)
  | _ => (cur, save_error saved (mismatch v "string"))
  end.

Definition store_int (v : Json.value) (cur : Z) (saved : option error)
  : Z * option error :=
  match v with
  | Json.Number lit =>
      match ParseInt lit with
      | Some n => (n, saved)
      | None => (cur, save_error saved (mismatch v "int"))
      end
  | Json.Null => (cur, saved)
  | _ => (cur, save_error saved (mismatch v "int"))
  end.

(** [json.Unmarshal(b, &timestamp)] for [var timestamp string]. *)
Definition Unmarshal_string (b : Json.value) : outcome text :=
  match store_string b [] None with
  | (_, Some e) => Err e
  | (s, None) => Ok s
  end.

(** [json.Unmarshal(b, &messageAttr)] for [var messageAttr map[string]string]:
    every member's value is stored in a string. *)
Fixpoint store_map_members (ms : list (text * Json.value))
  (cur : list (text * text)) (saved : option error)
  : list (text * text) * option error :=
  match ms with
  | [] => (cur, saved)
  | (k, v) :: rest =>
      let (s, saved') := store_string v [] saved in
      store_map_members rest (cur ++ [ (k, s) ]) saved'
  end.

Definition Unmarshal_map (b : Json.value) : outcome (list (text * text)) :=
  let r :=
    match b with
    | Json.Object ms => store_map_members ms [] None
    | Json.Null => ([], None)
    | _ => ([], Some (mismatch b "map[string]string"))
    end in
  match r with
  | (_, Some e) => Err e
  | (m, None) => Ok m
  end.

(** ** The timestamp codec *)

Definition snsTimestamp := Z.   (* int64 *)

(* Parses object string value to int64 *)
Definition snsTimestamp_MarshalJSON (ts : snsTimestamp) : outcome text :=
  let timestamp := ts in
  let millis := Time.UnixNano (Time.Unix 0 timestamp) in
  let b := FormatInt millis in
  Ok b.

Definition snsTimestamp_UnmarshalJSON (b : Json.value) : outcome snsTimestamp :=
  timestamp <- Unmarshal_string b ;;
  match Time.Parse_RFC3339 timestamp with
  | None =>
      exitErrorf "Error unmarshaling event timestamp %q" [ AText timestamp ]
  | Some t => Ok (Z.quot (Time.UnixNano t) Time.Millisecond)
  end.

(** ** The attribute placeholder *)

Record messageAttributes : Type := { Key : text; Value : text }.

(* Need to ignore this property and parse always as an empty object (JSON) *)
Definition messageAttributes_MarshalJSON (m : messageAttributes)
  : outcome text :=
  let b := bq "{}" in
  Ok b.

Definition messageAttributes_UnmarshalJSON (b : Json.value)
  : outcome messageAttributes :=
  messageAttr <- Unmarshal_map b ;;
  Ok {| Key := []; Value := [] |}.

(** ** The notification record *)

Record sns : Type := {
  MessageAttributes : option messageAttributes;   (* a pointer; [None] is nil *)
  SigningCertURL : text;
  MessageID : text;
  Message : text;
  UnsubscribeURL : text;
  SnsType : text;
  SignatureVersion : Z;
  Signature : text;
  Timestamp : snsTimestamp;
  TopicArn : text
}.

Definition sns_zero : sns :=
  {| MessageAttributes := None; SigningCertURL := []; MessageID := [];
     Message := []; UnsubscribeURL := []; SnsType := [];
     SignatureVersion := 0; Signature := []; Timestamp := 0%Z;
     TopicArn := [] |}.

(** *** Field names

    A member's key selects the field whose JSON name equals it, or equals
    it under Unicode case folding.  Besides the two cases of a letter, the
    Kelvin sign folds with k and the long s with s. *)

Definition upper (c : ascii) : ascii :=
  if in_range "a" "z" c then ascii_of_nat (nat_of_ascii c - 32) else c.

Fixpoint fold_name (s : text) : text :=
  match s with
  | [] => []
  | c :: r =>
      let other := upper c :: fold_name r in
      match r with
      | c1 :: r1 =>
          if (nat_of_ascii c =? 197) && (nat_of_ascii c1 =? 191)
          then "S"%char :: fold_name r1
          else
            match r1 with
            | c2 :: r2 =>
                if (nat_of_ascii c =? 226) && (nat_of_ascii c1 =? 132)
                   && (nat_of_ascii c2 =? 170)
                then "K"%char :: fold_name r2
                else other
            | [] => other
            end
      | [] => other
      end
  end.

Definition names (field : string) (key : text) : bool :=
  text_eqb (fold_name key) (fold_name (bq field)).

(** *** Decoding *)

Definition store (A : Type) : Type := (A * option error)%type.

Definition set_MessageAttributes (x : sns) (v : option messageAttributes) :=
  {| MessageAttributes := v; SigningCertURL := SigningCertURL x;
     MessageID := MessageID x; Message := Message x;
     UnsubscribeURL := UnsubscribeURL x; SnsType := SnsType x;
     SignatureVersion := SignatureVersion x; Signature := Signature x;
     Timestamp := Timestamp x; TopicArn := TopicArn x |}.
Definition set_SigningCertURL (x : sns) (v : text) :=
  {| MessageAttributes := MessageAttributes x; SigningCertURL := v;
     MessageID := MessageID x; Message := Message x;
     UnsubscribeURL := UnsubscribeURL x; SnsType := SnsType x;
     SignatureVersion := SignatureVersion x; Signature := Signature x;
     Timestamp := Timestamp x; TopicArn := TopicArn x |}.
Definition set_MessageID (x : sns) (v : text) :=
  {| MessageAttributes := MessageAttributes x;
     SigningCertURL := SigningCertURL x; MessageID := v; Message := Message x;
     UnsubscribeURL := UnsubscribeURL x; SnsType := SnsType x;
     SignatureVersion := SignatureVersion x; Signature := Signature x;
     Timestamp := Timestamp x; TopicArn := TopicArn x |}.
Definition set_Message (x : sns) (v : text) :=
  {| MessageAttributes := MessageAttributes x;
     SigningCertURL := SigningCertURL x; MessageID := MessageID x;
     Message := v; UnsubscribeURL := UnsubscribeURL x; SnsType := SnsType x;
     SignatureVersion := SignatureVersion x; Signature := Signature x;
     Timestamp := Timestamp x; TopicArn := TopicArn x |}.
Definition set_UnsubscribeURL (x : sns) (v : text) :=
  {| MessageAttributes := MessageAttributes x;
     SigningCertURL := SigningCertURL x; MessageID := MessageID x;
     Message := Message x; UnsubscribeURL := v; SnsType := SnsType x;
     SignatureVersion := SignatureVersion x; Signature := Signature x;
     Timestamp := Timestamp x; TopicArn := TopicArn x |}.
Definition set_SnsType (x : sns) (v : text) :=
  {| MessageAttributes := MessageAttributes x;
     SigningCertURL := SigningCertURL x; MessageID := MessageID x;
     Message := Message x; UnsubscribeURL := UnsubscribeURL x; SnsType := v;
     SignatureVersion := SignatureVersion x; Signature := Signature x;
     Timestamp := Timestamp x; TopicArn := TopicArn x |}.
Definition set_SignatureVersion (x : sns) (v : Z) :=
  {| MessageAttributes := MessageAttributes x;
     SigningCertURL := SigningCertURL x; MessageID := MessageID x;
     Message := Message x; UnsubscribeURL := UnsubscribeURL x;
     SnsType := SnsType x; SignatureVersion := v; Signature := Signature x;
     Timestamp := Timestamp x; TopicArn := TopicArn x |}.
Definition set_Signature (x : sns) (v : text) :=
  {| MessageAttributes := MessageAttributes x;
     SigningCertURL := SigningCertURL x; MessageID := MessageID x;
     Message := Message x; UnsubscribeURL := UnsubscribeURL x;
     SnsType := SnsType x; SignatureVersion := SignatureVersion x;
     Signature := v; Timestamp := Timestamp x; TopicArn := TopicArn x |}.
Definition set_Timestamp (x : sns) (v : snsTimestamp) :=
  {| MessageAttributes := MessageAttributes x;
     SigningCertURL := SigningCertURL x; MessageID := MessageID x;
     Message := Message x; UnsubscribeURL := UnsubscribeURL x;
     SnsType := SnsType x; SignatureVersion := SignatureVersion x;
     Signature := Signature x; Timestamp := v; TopicArn := TopicArn x |}.
Definition set_TopicArn (x : sns) (v : text) :=
  {| MessageAttributes := MessageAttributes x;
     SigningCertURL := SigningCertURL x; MessageID := MessageID x;
     Message := Message x; UnsubscribeURL := UnsubscribeURL x;
     SnsType := SnsType x; SignatureVersion := SignatureVersion x;
     Signature := Signature x; Timestamp := Timestamp x; TopicArn := v |}.

(** A string field. *)
Definition string_field {A} (get : A -> text) (set : A -> text -> A)
  (v : Json.value) (st : store A) : outcome (store A) :=
  let (s, saved) := store_string v (get (fst st)) (snd st) in
  Ok (set (fst st) s, saved).

(** One member of the object decoded into an [sns].  The two fields with
    a codec of their own hand the member's value to [UnmarshalJSON], whose
    error ends the decoding at once; a null for the pointer field makes
    the pointer nil without calling the codec. *)
Definition sns_member (key : text) (v : Json.value) (st : store sns)
  : outcome (store sns) :=
  if names "messageAttributes" key then
    match v with
    | Json.Null => Ok (set_MessageAttributes (fst st) None, snd st)
    | _ =>
        m <- messageAttributes_UnmarshalJSON v ;;
        Ok (set_MessageAttributes (fst st) (Some m), snd st)
    end
  else if names "signingCertUrl" key then
    string_field SigningCertURL set_SigningCertURL v st
  else if names "messageId" key then
    string_field MessageID set_MessageID v st
  else if names "message" key then
    string_field Message set_Message v st
  else if names "unsubscribeUrl" key then
    string_field UnsubscribeURL set_UnsubscribeURL v st
  else if names "type" key then
    string_field SnsType set_SnsType v st
  else if names "signatureVersion" key then
    let (n, saved) := store_int v (SignatureVersion (fst st)) (snd st) in
    Ok (set_SignatureVersion (fst st) n, saved)
  else if names "signature" key then
    string_field Signature set_Signature v st
  else if names "timestamp" key then
    ts <- snsTimestamp_UnmarshalJSON v ;;
    Ok (set_Timestamp (fst st) ts, snd st)
  else if names "topicArn" key then
    string_field TopicArn set_TopicArn v st
  else Ok st.

(** The members of an object are stored in the order of the text; a key
    that names no field is skipped. *)
Fixpoint store_members {A} (member : text -> Json.value -> store A -> outcome (store A))
  (ms : list (text * Json.value)) (st : store A) : outcome (store A) :=
  match ms with
  | [] => Ok st
  | (k, v) :: rest =>
      st' <- member k v st ;;
      store_members member rest st'
  end.

Definition store_struct {A} (gotype : string)
  (member : text -> Json.value -> store A -> outcome (store A))
  (v : Json.value) (st : store A) : outcome (store A) :=
  match v with
  | Json.Object ms => store_members member ms st
  | Json.Null => Ok st
  | _ => Ok (fst st, save_error (snd st) (mismatch v gotype))
  end.

Definition store_sns : Json.value -> store sns -> outcome (store sns) :=
  store_struct "main.sns" sns_member.

(** The saved error, if any, is the result. *)
Definition finish {A} (r : outcome (store A)) : outcome A :=
  st <- r ;;
  match snd st with
  | Some e => Err e
  | None => Ok (fst st)
  end.

(** [json.Unmarshal(data, &x)] for [var x sns]. *)
Definition Unmarshal_sns (data : text) : outcome sns :=
  match Json.Parse data with
  | None => Err SyntaxError
  | Some v => finish (store_sns v (sns_zero, None))
  end.

(** *** Encoding

    A string is written between quotes; the quote, the backslash, control
    characters, and the characters <, > and & are escaped, bytes that are
    not well-formed UTF-8 are written as the escape of U+FFFD, and U+2028
    and U+2029 are escaped. *)

Definition hex (n : nat) : ascii :=
  nth n (list_ascii_of_string "0123456789abcdef") "0"%char.

Definition escape_byte (c : ascii) : text :=
  let n := nat_of_ascii c in
  if Ascii.eqb c dq || Ascii.eqb c "\" then [ "\"%char; c ]
  else if n =? 8 then bq "\b"
  else if n =? 12 then bq "\f"
  else if n =? 10 then bq "\n"
  else if n =? 13 then bq "\r"
  else if n =? 9 then bq "\t"
  else if (n <? 32) || Ascii.eqb c "<" || Ascii.eqb c ">" || Ascii.eqb c "&"
  then bq "\u00" ++ [ hex (n / 16); hex (n mod 16) ]
  else [ c ].

Fixpoint escape (s : text) (copy : nat) : text :=
  match s with
  | [] => []
  | c :: s1 =>
      match copy with
      | S k => c :: escape s1 k
      | O =>
          if nat_of_ascii c <? 128 then escape_byte c ++ escape s1 0
          else
            match Json.utf8_len s with
            | None => bq "\ufffd" ++ escape s1 0
            | Some n =>
                match s with
                | c0 :: c1 :: c2 :: s3 =>
                    if (nat_of_ascii c0 =? 226) && (nat_of_ascii c1 =? 128)
                       && ((nat_of_ascii c2 =? 168) || (nat_of_ascii c2 =? 169))
                    then bq "\u202" ++ [ hex (nat_of_ascii c2 - 160) ]
                         ++ escape s3 0
                    else c :: escape s1 (n - 1)
                | _ => c :: escape s1 (n - 1)
                end
            end
      end
  end.

Definition encode_string (s : text) : text := dq :: escape s 0 ++ [ dq ].

(** The encoder of a pointer field whose type has a [MarshalJSON] method:
    a nil pointer is written as null and the method is not called. *)
Definition encode_MessageAttributes (p : option messageAttributes)
  : outcome text :=
  match p with
  | None => Ok (bq "null")
  | Some m => messageAttributes_MarshalJSON m
  end.

(** [json.Marshal] of an [sns]: the fields in the order of the declaration. *)
Definition Marshal_sns (x : sns) : outcome text :=
  ma <- encode_MessageAttributes (MessageAttributes x) ;;
  ts <- snsTimestamp_MarshalJSON (Timestamp x) ;;
  Ok (bq "{`messageAttributes`:" ++ ma
      ++ bq ",`signingCertUrl`:" ++ encode_string (SigningCertURL x)
      ++ bq ",`messageId`:" ++ encode_string (MessageID x)
      ++ bq ",`message`:" ++ encode_string (Message x)
      ++ bq ",`unsubscribeUrl`:" ++ encode_string (UnsubscribeURL x)
      ++ bq ",`type`:" ++ encode_string (SnsType x)
      ++ bq ",`signatureVersion`:" ++ FormatInt (SignatureVersion x)
      ++ bq ",`signature`:" ++ encode_string (Signature x)
      ++ bq ",`timestamp`:" ++ ts
      ++ bq ",`topicArn`:" ++ encode_string (TopicArn x)
      ++ bq "}").

(** ** The envelope

    The version field is a [float32].  Its type, its zero, the parsing of
    a number literal ([strconv.ParseFloat] at 32 bits, [None] when out of
    range) and its formatting by the encoder ([None] for an infinity or a
    NaN) are parameters of the development. *)

Section Envelope.

Variable float32 : Type.
Variable float32_zero : float32.
Variable ParseFloat32 : text -> option float32.
Variable FormatFloat32 : float32 -> option text.

Record snsEvent : Type := {
  Sns : sns;
  EventVersion : float32;
  EventSource : text;
  EventSubscriptionArn : text
}.

Definition snsEvent_zero : snsEvent :=
  {| Sns := sns_zero; EventVersion := float32_zero; EventSource := [];
     EventSubscriptionArn := [] |}.

Definition store_float32 (v : Json.value) (cur : float32)
  (saved : option error) : float32 * option error :=
  match v with
  | Json.Number lit =>
      match ParseFloat32 lit with
      | Some f => (f, saved)
      | None => (cur, save_error saved (mismatch v "float32"))
      end
  | Json.Null => (cur, saved)
  | _ => (cur, save_error saved (mismatch v "float32"))
  end.

Definition snsEvent_member (key : text) (v : Json.value) (st : store snsEvent)
  : outcome (store snsEvent) :=
  let e := fst st in
  if names "sns" key then
    r <- store_sns v (Sns e, snd st) ;;
    Ok ({| Sns := fst r; EventVersion := EventVersion e;
           EventSource := EventSource e;
           EventSubscriptionArn := EventSubscriptionArn e |}, snd r)
  else if names "eventVersion" key then
    let (f, saved) := store_float32 v (EventVersion e) (snd st) in
    Ok ({| Sns := Sns e; EventVersion := f; EventSource := EventSource e;
           EventSubscriptionArn := EventSubscriptionArn e |}, saved)
  else if names "eventSource" key then
    string_field EventSource
      (fun e s => {| Sns := Sns e; EventVersion := EventVersion e;
                     EventSource := s;
                     EventSubscriptionArn := EventSubscriptionArn e |}) v st
  else if names "eventSubscriptionArn" key then
    string_field EventSubscriptionArn
      (fun e s => {| Sns := Sns e; EventVersion := EventVersion e;
                     EventSource := EventSource e;
                     EventSubscriptionArn := s |}) v st
  else Ok st.

(** [json.Unmarshal(data, &event)] for [var event snsEvent]. *)
Definition Unmarshal (data : text) : outcome snsEvent :=
  match Json.Parse data with
  | None => Err SyntaxError
  | Some v =>
      finish (store_struct "main.snsEvent" snsEvent_member v
                (snsEvent_zero, None))
  end.

(** [json.Marshal(&event)] *)
Definition Marshal (event : snsEvent) : outcome text :=
  n <- Marshal_sns (Sns event) ;;
  match FormatFloat32 (EventVersion event) with
  | None => Err UnsupportedValueError
  | Some f =>
      Ok (bq "{`sns`:" ++ n
          ++ bq ",`eventVersion`:" ++ f
          ++ bq ",`eventSource`:" ++ encode_string (EventSource event)
          ++ bq ",`eventSubscriptionArn`:"
          ++ encode_string (EventSubscriptionArn event)
          ++ bq "}")
  end.

(** ** One object of the bucket: the body of the loop of [main]

    From the contents read from the bucket to the bytes written back.  An
    error of [json.Unmarshal] ends the process; an error of [json.Marshal]
    is logged and the bytes, then nil, are written all the same. *)
Definition process (item contents : text) : outcome text :=
  quotedJSON <- parseUnquotedJSON contents ;;
  event <- match Unmarshal quotedJSON with
           | Err err =>
               exitErrorf "Unable to unmarshal contents of item %q, %v"
                 [ AText item; AError err ]
           | r => r
           end ;;
  match Marshal event with
  | Err err => Ok []
  | r => r
  end.

End Envelope.

(** ** Notions used by the statements *)

(** The three passes of [parseUnquotedJSON], one at a time. *)
Definition key_pass (s : text) : outcome text :=
  re <- Regexp.MustCompile key_pattern ;;
  Ok (Regexp.ReplaceAllString re s (bq "`$2`: ")).

Definition value_pass (s : text) : outcome text :=
  re <- Regexp.MustCompile value_pattern ;;
  Ok (Regexp.ReplaceAllString re s (bq ": `$2`")).

Definition number_pass (s : text) : outcome text :=
  re <- Regexp.MustCompile number_pattern ;;
  Ok (Regexp.ReplaceAllString re s (bq ": $2,")).

(** The value of the first member of an object whose key names [field]. *)
Fixpoint first_member (field : string) (ms : list (text * Json.value))
  : option Json.value :=
  match ms with
  | [] => None
  | (k, v) :: rest => if names field k then Some v else first_member field rest
  end.

(** Whole milliseconds from the Unix epoch to an instant. *)
Definition millis_since_epoch (t : Time.Time) : Z :=
  (Time.sec t * 1000 + Time.nsec t / 1000000)%Z.

(** Nanoseconds from the Unix epoch to an instant, as an integer. *)
Definition nanos_since_epoch (t : Time.Time) : Z :=
  (Time.sec t * 1000000000 + Time.nsec t)%Z.

Definition int64 (x : Z) : Prop := (- 2 ^ 63 <= x < 2 ^ 63)%Z.

(** Decoding a timestamp string, then encoding the value. *)
Definition timestamp_round_trip (s : text) : outcome text :=
  ts <- snsTimestamp_UnmarshalJSON (Json.Str s) ;;
  snsTimestamp_MarshalJSON ts.

(** Decoding the value of the messageAttributes member, then encoding the
    placeholder. *)
Definition placeholder_round_trip (b : Json.value) : outcome text :=
  m <- messageAttributes_UnmarshalJSON b ;;
  messageAttributes_MarshalJSON m.

(** An instance of the parameters of the envelope for the examples: the
    version numbers that are whole, written without fraction or exponent. *)
Definition whole_version : Type := Z.
Definition whole_zero : whole_version := 0%Z.
Definition whole_parse (lit : text) : option whole_version := ParseInt lit.
Definition whole_format (v : whole_version) : option text := Some (FormatInt v).

(** The flat text of the end-to-end scenario, and the same fields inside
    the envelope that [main] decodes. *)
Definition flat_scenario : text :=
  bq "messageId: abc-123, signatureVersion: `1`, timestamp: `2023-06-15T12:00:00Z`, type: Notification, message: hello".

Definition envelope_scenario : text :=
  bq "{sns: {messageId: abc-123, signatureVersion: `1`, timestamp: `2023-06-15T12:00:00Z`, type: Notification, message: hello}}".

(** The three patterns as their matcher reads them.  Each has the shape
    of an optional quote, a run of characters of one class, an optional
    quote, between fixed characters; the functions below give the text of
    group 2 and the text after the match, when the pattern matches at the
    start of [s]. *)

Definition is_quote (c : ascii) : bool :=
  Regexp.in_class [ ("'"%char, "'"%char); (dq, dq) ] c.

Definition is_ident (c : ascii) : bool :=
  Regexp.in_class [ ("a"%char, "z"%char); ("0"%char, "9"%char);
                    ("A"%char, "Z"%char); ("_"%char, "_"%char) ] c.

Definition is_safe (c : ascii) : bool :=
  Regexp.in_class [ ("a"%char, "z"%char); ("0"%char, "9"%char);
                    ("A"%char, "Z"%char); ("_"%char, "_"%char);
                    ("/"%char, "/"%char); ("."%char, "."%char);
                    ("-"%char, "-"%char); (":"%char, ":"%char);
                    ("?"%char, "?"%char); ("&"%char, "&"%char);
                    ("="%char, "="%char); ("+"%char, "+"%char) ] c.

Definition is_numeric (c : ascii) : bool :=
  Regexp.in_class [ ("0"%char, "9"%char); ("."%char, "."%char) ] c.

Definition is_space (c : ascii) : bool := Regexp.in_class Regexp.space_class c.

Definition drop_quote (s : text) : text :=
  match s with
  | c :: r => if is_quote c then r else s
  | [] => []
  end.

Definition key_match (s : text) : option (text * text) :=
  let (k, s2) := span is_ident (drop_quote s) in
  match k with
  | [] => None
  | _ =>
      match drop_quote s2 with
      | c :: w :: rest =>
          if Ascii.eqb c ":" && is_space w then Some (k, rest) else None
      | _ => None
      end
  end.

Definition value_match (s : text) : option (text * text) :=
  match s with
  | c :: b :: s0 =>
      if Ascii.eqb c ":" && Ascii.eqb b " " then
        let (v, s2) := span is_safe (drop_quote s0) in
        match v with
        | [] => None
        | _ => Some (v, drop_quote s2)
        end
      else None
  | _ => None
  end.

Definition number_match (s : text) : option (text * text) :=
  match s with
  | c :: b :: s0 =>
      if Ascii.eqb c ":" && Ascii.eqb b " " then
        let (d, s2) := span is_numeric (drop_quote s0) in
        match d with
        | [] => None
        | _ =>
            match drop_quote s2 with
            | e :: rest => if Ascii.eqb e "," then Some (d, rest) else None
            | [] => None
            end
        end
      else None
  | _ => None
  end.

(** The compiled patterns and the text each pass gives. *)
Definition compiled (pattern : text) : Regexp.regex :=
  match Regexp.Compile pattern with
  | Some re => re
  | None => Regexp.REmpty
  end.

Definition key_text (s : text) : text :=
  Regexp.ReplaceAllString (compiled key_pattern) s (bq "`$2`: ").

Definition value_text (s : text) : text :=
  Regexp.ReplaceAllString (compiled value_pattern) s (bq ": `$2`").

Definition number_text (s : text) : text :=
  Regexp.ReplaceAllString (compiled number_pattern) s (bq ": $2,").

(** The text [parseUnquotedJSON] returns. *)
Definition normalize (s : text) : text :=
  number_text (value_text (key_text s)).

(** A text the key pass leaves as it is. *)
Definition key_fixed (s : text) : Prop := key_text s = s.

(** ** Notions used by the proofs *)

(** [s] is empty or begins with a character outside the class [p]. *)
Definition stops (p : ascii -> bool) (s : text) : Prop :=
  match s with
  | [] => True
  | c :: _ => p c = false
  end.

(** An optional quote: nothing, or one quote character. *)
Definition opt_quote (o : text) : Prop :=
  o = [] \/ exists q, o = [ q ] /\ is_quote q = true.

(** Every character of [s] is in the class [p]. *)
Definition all_in (p : ascii -> bool) (s : text) : Prop :=
  Forall (fun c => p c = true) s.

(** The key pattern read one character at a time.  The states: at the
    start, after the opening quote, in the name, after the closing quote,
    after the colon.  The result is the text after the match. *)
Inductive key_state : Type :=
  AtStart | AfterOpen | InName | AfterClose | AfterColon.

Fixpoint key_run (st : key_state) (s : text) : option text :=
  match s with
  | [] => None
  | c :: r =>
      match st with
      | AtStart =>
          if is_quote c then key_run AfterOpen r
          else if is_ident c then key_run InName r
          else None
      | AfterOpen => if is_ident c then key_run InName r else None
      | InName =>
          if is_ident c then key_run InName r
          else if is_quote c then key_run AfterClose r
          else if Ascii.eqb c ":" then key_run AfterColon r
          else None
      | AfterClose => if Ascii.eqb c ":" then key_run AfterColon r else None
      | AfterColon => if is_space c then Some r else None
      end
  end.

(** [s] begins with a colon and a white space character. *)
Definition anchor (s : text) : bool :=
  match s with
  | c :: w :: _ => Ascii.eqb c ":" && is_space w
  | _ => false
  end.

(** Whether a match of the key pattern can have [y] among its characters
    and go on into [b], the text after [y]. *)
Definition crosses (y : ascii) (b : text) : bool :=
  match b with
  | [] => false
  | z :: b' =>
      if is_ident z then is_ident y || is_quote y
      else if is_quote z then is_ident y && anchor b'
      else if Ascii.eqb z ":" then
        (is_ident y || is_quote y)
        && match b' with w :: _ => is_space w | [] => false end
      else if is_space z then Ascii.eqb y ":"
      else false
  end.

(** No match of the key pattern that begins in [s] goes on into [b]. *)
Definition cut (s b : text) : Prop :=
  forall a y, s = a ++ [ y ] -> crosses y b = false.

(** No character of [s] is a white space character. *)
Definition no_space (s : text) : Prop :=
  Forall (fun c => is_space c = false) s.

(** A JSON value that [json.Unmarshal] stores in a Go string without an
    error. *)
Definition string_or_null (v : Json.value) : Prop :=
  match v with
  | Json.Str _ | Json.Null => True
  | _ => False
  end.

(** The JSON names of the fields of [sns], and whether a key names one of
    them. *)
Definition sns_fields : list string :=
  [ "messageAttributes"; "signingCertUrl"; "messageId"; "message";
    "unsubscribeUrl"; "type"; "signatureVersion"; "signature"; "timestamp";
    "topicArn" ]%string.

Definition names_any (fields : list string) (key : text) : bool :=
  existsb (fun f => names f key) fields.

(** The outcomes of decoding: a value, an error, or the end of the process
    the timestamp codec asks for; never a panic. *)
Definition decoding {A : Type} (r : outcome A) : Prop :=
  match r with
  | Ok _ | Err _ => True
  | Exit m a =>
      exists s : text,
        m = "Error unmarshaling event timestamp %q"%string /\ a = [ AText s ]
  | Panic _ => False
  end.

(** ** The program: [getContents] and [main]

    The body of an object, as [GetObject] hands it over, is an
    [io.ReadCloser]: reading it to the end gives the bytes received and,
    when the transfer breaks, an error after them. *)
Record ReadCloser : Type := {
  received : text;
  failure : option text
}.

(** [buf.ReadFrom(contents)]: the bytes are appended to the buffer; the
    error, if any, is returned with them. *)
Definition ReadFrom (buf : text) (contents : ReadCloser)
  : text * option text :=
  (buf ++ received contents, failure contents).

Definition getContents (contents : ReadCloser) : text :=
  let buf := [] in
  let (buf, _) := ReadFrom buf contents in   (* the error is not looked at *)
  let newStr := buf in
  newStr.

(** What a call of the S3 client returns: a value, or an error, kept as
    its text. *)
Inductive reply (A : Type) : Type :=
| Reply (a : A)
| Failure (err : text).

Arguments Reply {A} a.
Arguments Failure {A} err.

Section Program.

Variable float32 : Type.
Variable float32_zero : float32.
Variable ParseFloat32 : text -> option float32.
Variable FormatFloat32 : float32 -> option text.

(** The service the program talks to.  Its state is a [world];
    [session.NewSession] gives an error or none, [ListObjects] the keys
    under a prefix, [GetObject] the body of an object, and [PutObject]
    changes the world and gives a result to print. *)
Variable world : Type.
Variable NewSession : world -> option text.
Variable ListObjects : world -> text -> text -> reply (list text).
Variable GetObject : world -> text -> text -> reply ReadCloser.
Variable PutObject : world -> text -> text -> text -> reply text * world.

(** The state of a run: the service, and the lines printed on the
    standard output. *)
Record state : Type := {
  s3 : world;
  stdout : list text
}.

Definition Println (line : text) (w : world) (st : state) : state :=
  {| s3 := w; stdout := stdout st ++ [ line ] |}.

(** The second loop of [main]: read each object and parse the contents,
    create the correct JSON and replace the object.  [Ok tt] is the return
    of [main]. *)
Fixpoint main_loop (bucket : text) (l : list text) (st : state)
  : outcome unit * state :=
  match l with
  | [] => (Ok tt, st)
  | item :: l' =>
      match GetObject (s3 st) bucket item with
      | Failure err =>
          (exitErrorf "Unable to read contents of item %q, %v"
             [ AText item; AText err ], st)
      | Reply obj =>
          let contents := getContents obj in
          match process float32_zero ParseFloat32 FormatFloat32 item contents
          with
          | Ok b =>
              match PutObject (s3 st) bucket item b with
              | (Failure err, w) => (Ok tt, Println err w st)   (* return *)
              | (Reply result, w) => main_loop bucket l' (Println result w st)
              end
          | Err e => (Err e, st)
          | Exit msg args => (Exit msg args, st)
          | Panic msg => (Panic msg, st)
          end
      end
  end.

Definition main (Args : list text) (st : state) : outcome unit * state :=
  if negb (length Args =? 3) then
    (exitErrorf
       "Bucket name is required\nUsage: go run s3-format-fixer bucket prefix"
       [], st)
  else
    let bucket := nth 1 Args [] in
    let prefix := nth 2 Args [] in
    match NewSession (s3 st) with
    | Some err => (exitErrorf "Error trying to create the session" [], st)
    | None =>
        (* List object on the bucket to get the keys *)
        match ListObjects (s3 st) bucket prefix with
        | Failure err =>
            (exitErrorf "Unable to list items in bucket %q, %v"
               [ AText bucket; AText err ], st)
        | Reply list =>
            let l := list in
            main_loop bucket l st
        end
    end.

(** The state after every object of [l] has been read, converted and
    written back, none of the calls failing. *)
Fixpoint replaced (bucket : text) (l : list text) (st : state)
  : option state :=
  match l with
  | [] => Some st
  | item :: l' =>
      match GetObject (s3 st) bucket item with
      | Reply obj =>
          match process float32_zero ParseFloat32 FormatFloat32 item
                  (getContents obj) with
          | Ok b =>
              match PutObject (s3 st) bucket item b with
              | (Reply result, w) => replaced bucket l' (Println result w st)
              | (Failure _, _) => None
              end
          | _ => None
          end
      | Failure _ => None
      end
  end.

(** What the program writes for an object it can read and convert. *)
Definition converted (w : world) (bucket item : text) : option text :=
  match GetObject w bucket item with
  | Reply obj =>
      match process float32_zero ParseFloat32 FormatFloat32 item
              (getContents obj) with
      | Ok b => Some b
      | _ => None
      end
  | Failure _ => None
  end.

End Program.

(** A bucket for the examples: the objects as a list of keys and contents,
    the first entry of a key being the object.  The bucket name is not
    looked at, no call fails for another reason than a missing key. *)
Definition bucket_world : Type := list (text * text).

Fixpoint bucket_find (w : bucket_world) (key : text) : option text :=
  match w with
  | [] => None
  | (k, c) :: w' => if text_eqb k key then Some c else bucket_find w' key
  end.

Definition bucket_session (w : bucket_world) : option text := None.

Definition bucket_list (w : bucket_world) (bucket prefix : text)
  : reply (list text) :=
  Reply (map fst w).

Definition bucket_get (w : bucket_world) (bucket key : text)
  : reply ReadCloser :=
  match bucket_find w key with
  | Some c => Reply {| received := c; failure := None |}
  | None => Failure (bq "NoSuchKey")
  end.

Definition bucket_put (w : bucket_world) (bucket key body : text)
  : reply text * bucket_world :=
  (Reply (bq "{}"), (key, body) :: w).

(** A bucket in which no object can be written. *)
Definition bucket_put_denied (w : bucket_world) (bucket key body : text)
  : reply text * bucket_world :=
  (Failure (bq "AccessDenied: Access Denied"), w).

(** Two objects in the format the program reads, and what it writes for
    them. *)
Definition example_1 : text := bq "{sns: {type: Notification, message: hello}}".
Definition example_2 : text :=
  bq "{eventSource: 'aws:sns', sns: {signatureVersion: `1`, messageId: m-2}}".

Definition example_1_written : text :=
  bq "{`sns`:{`messageAttributes`:null,`signingCertUrl`:``,`messageId`:``,`message`:`hello`,`unsubscribeUrl`:``,`type`:`Notification`,`signatureVersion`:0,`signature`:``,`timestamp`:0,`topicArn`:``},`eventVersion`:0,`eventSource`:``,`eventSubscriptionArn`:``}".
Definition example_2_written : text :=
  bq "{`sns`:{`messageAttributes`:null,`signingCertUrl`:``,`messageId`:`m-2`,`message`:``,`unsubscribeUrl`:``,`type`:``,`signatureVersion`:1,`signature`:``,`timestamp`:0,`topicArn`:``},`eventVersion`:0,`eventSource`:`aws:sns`,`eventSubscriptionArn`:``}".

Definition example_bucket : bucket_world :=
  [ (bq "a/1", example_1); (bq "a/2", example_2) ].

(** The same with an object between them that is not in the format. *)
Definition broken_bucket : bucket_world :=
  [ (bq "a/1", example_1); (bq "a/2", flat_scenario); (bq "a/3", example_2) ].

(** The body with its error taken away, and the service that hands over
    such bodies only. *)
Definition without_failure (obj : ReadCloser) : ReadCloser :=
  {| received := received obj; failure := None |}.

Definition reliable {world : Type}
  (GetObject : world -> text -> text -> reply ReadCloser)
  (w : world) (bucket key : text) : reply ReadCloser :=
  match GetObject w bucket key with
  | Reply obj => Reply (without_failure obj)
  | Failure err => Failure err
  end.

(** A character that stands for itself in a JSON string literal. *)
Definition plain (c : ascii) : bool :=
  negb (Ascii.eqb c dq) && negb (Ascii.eqb c "\")
  && (32 <=? nat_of_ascii c) && (nat_of_ascii c <? 128).

(** * Properties *)

Unset Implicit Arguments.

(** ** The outcome of the normalizer *)

Lemma Compile_key_pattern : exists re, Regexp.Compile key_pattern = Some re.
Proof. eexists. vm_compute. reflexivity. Qed.

Lemma Compile_value_pattern : exists re, Regexp.Compile value_pattern = Some re.
Proof. eexists. vm_compute. reflexivity. Qed.

Lemma Compile_number_pattern : exists re, Regexp.Compile number_pattern = Some re.
Proof. eexists. vm_compute. reflexivity. Qed.

Lemma MustCompile_Ok : forall p re,
  Regexp.Compile p = Some re -> Regexp.MustCompile p = Ok re.
Proof. intros p re H. unfold Regexp.MustCompile. rewrite H. reflexivity. Qed.

(** C7: for every input, [parseUnquotedJSON] returns a string; it returns no
    error, does not end the process and does not panic (the three patterns
    compile). *)
Theorem parseUnquotedJSON_total : forall unquotedJSON : text,
  exists s : text, parseUnquotedJSON unquotedJSON = Ok s.
Proof.
  intro x.
  destruct Compile_key_pattern as [r1 H1].
  destruct Compile_value_pattern as [r2 H2].
  destruct Compile_number_pattern as [r3 H3].
  unfold parseUnquotedJSON.
  rewrite (MustCompile_Ok _ _ H1). cbn [bind].
  rewrite (MustCompile_Ok _ _ H2). cbn [bind].
  rewrite (MustCompile_Ok _ _ H3). cbn [bind].
  eexists. reflexivity.
Qed.

(** ** The timestamp codec *)

Lemma wrap64_id : forall x : Z, int64 x -> Time.wrap64 x = x.
Proof.
  intros x [Hlo Hhi]. unfold Time.wrap64.
  rewrite Z.mod_small; lia.
Qed.

(** [time.Unix(0, n).UnixNano()] gives [n] back. *)
Lemma UnixNano_Unix : forall n : Z, int64 n ->
  Time.UnixNano (Time.Unix 0 n) = n.
Proof.
  intros n Hn. unfold Time.Unix.
  destruct ((n <? 0)%Z || (1000000000 <=? n)%Z) eqn:Hr.
  - pose proof (Z.quot_rem' n 1000000000) as Hqr.
    assert (Hb : (Z.abs (Z.rem n 1000000000) < 1000000000)%Z).
    { pose proof (Z.rem_bound_abs n 1000000000). lia. }
    assert (Hs : (0 <= n -> 0 <= Z.rem n 1000000000)%Z).
    { intro. apply Z.rem_nonneg; lia. }
    assert (Hs' : (n <= 0 -> Z.rem n 1000000000 <= 0)%Z).
    { intro. apply Z.rem_nonpos; lia. }
    set (q := Z.quot n 1000000000) in *.
    set (r := Z.rem n 1000000000) in *.
    unfold int64 in Hn.
    assert (Hq : Time.wrap64 (0 + q) = q).
    { apply wrap64_id. unfold int64. lia. }
    assert (Hr' : Time.wrap64 (n - q * 1000000000) = r).
    { replace (n - q * 1000000000)%Z with r by lia.
      apply wrap64_id. unfold int64. lia. }
    rewrite Hq, Hr'.
    destruct (r <? 0)%Z eqn:Hneg; unfold Time.UnixNano; cbn [Time.sec Time.nsec].
    + rewrite (wrap64_id (q - 1)%Z) by (unfold int64; lia).
      replace ((q - 1) * 1000000000 + (r + 1000000000))%Z with n by lia.
      apply wrap64_id. exact Hn.
    + replace (q * 1000000000 + r)%Z with n by lia.
      apply wrap64_id. exact Hn.
  - unfold Time.UnixNano. cbn [Time.sec Time.nsec].
    rewrite Z.mul_0_l, Z.add_0_l. apply wrap64_id. exact Hn.
Qed.

Lemma quot_int64 : forall n d : Z, int64 n -> (0 < d)%Z -> int64 (Z.quot n d).
Proof.
  intros n d [Hlo Hhi] Hd. unfold int64.
  destruct (Z.le_gt_cases 0 n) as [Hn | Hn].
  - pose proof (Z.quot_pos n d Hn Hd).
    assert (Z.quot n d <= n)%Z by (apply Z.quot_le_upper_bound; nia).
    lia.
  - assert (Hq : Z.quot n d = (- Z.quot (- n) d)%Z).
    { rewrite Z.quot_opp_l by lia. lia. }
    pose proof (Z.quot_pos (- n) d ltac:(lia) Hd).
    assert (Z.quot (- n) d <= - n)%Z by (apply Z.quot_le_upper_bound; nia).
    lia.
Qed.

Lemma timestamp_round_trip_eq : forall (s : text) (t : Time.Time),
  Time.Parse_RFC3339 s = Some t ->
  int64 (nanos_since_epoch t) ->
  timestamp_round_trip s
  = Ok (FormatInt (Z.quot (nanos_since_epoch t) 1000000)).
Proof.
  intros s t Hp Hr.
  unfold timestamp_round_trip, snsTimestamp_UnmarshalJSON, Unmarshal_string.
  cbn [store_string bind]. rewrite Hp. cbn [bind].
  unfold snsTimestamp_MarshalJSON.
  assert (Hn : Time.UnixNano t = nanos_since_epoch t).
  { unfold Time.UnixNano. apply wrap64_id. exact Hr. }
  rewrite Hn. unfold Time.Millisecond.
  rewrite UnixNano_Unix by (apply quot_int64; [exact Hr | lia]).
  reflexivity.
Qed.

(** C1, as amended: for every RFC3339 timestamp string whose instant is
    within the range of [int64] nanoseconds from the epoch, decoding it and
    then encoding the value yields the decimal JSON number of the
    milliseconds from the epoch, rounded toward zero; for an instant not
    before the epoch that is the number of whole milliseconds since the
    epoch.  In particular the string 2023-01-01T00:00:00.000Z yields
    1672531200000. *)
Theorem timestamp_round_trip_millis : forall (s : text) (t : Time.Time),
  Time.Parse_RFC3339 s = Some t ->
  int64 (nanos_since_epoch t) ->
  timestamp_round_trip s
  = Ok (FormatInt (Z.quot (nanos_since_epoch t) 1000000))
  /\ ((0 <= nanos_since_epoch t)%Z ->
      timestamp_round_trip s = Ok (FormatInt (millis_since_epoch t)))
  /\ timestamp_round_trip (bq "2023-01-01T00:00:00.000Z")
     = Ok (bq "1672531200000").
Proof.
  intros s t Hp Hr. split; [| split].
  - apply timestamp_round_trip_eq; assumption.
  - intro Hpos. rewrite (timestamp_round_trip_eq _ _ Hp Hr).
    do 2 f_equal. unfold millis_since_epoch, nanos_since_epoch in *.
    rewrite Z.quot_div_nonneg by lia.
    replace (Time.sec t * 1000000000 + Time.nsec t)%Z
      with (Time.nsec t + Time.sec t * 1000 * 1000000)%Z by lia.
    rewrite Z.div_add by lia. lia.
  - vm_compute. reflexivity.
Qed.

Lemma timestamp_round_trip_millis_witness :
  let s := bq "2023-06-15T12:00:00Z" in
  let t := {| Time.sec := 1686830400; Time.nsec := 0 |} in
  timestamp_round_trip s
  = Ok (FormatInt (Z.quot (nanos_since_epoch t) 1000000))
  /\ ((0 <= nanos_since_epoch t)%Z ->
      timestamp_round_trip s = Ok (FormatInt (millis_since_epoch t)))
  /\ timestamp_round_trip (bq "2023-01-01T00:00:00.000Z")
     = Ok (bq "1672531200000").
Proof.
  intros s t.
  apply (timestamp_round_trip_millis s t).
  - vm_compute. reflexivity.
  - vm_compute. split; [discriminate | reflexivity].
Defined.

(** The claim of C1 fails for a timestamp after the year 2262: the
    nanoseconds overflow [int64], and the number written is not the
    milliseconds since the epoch (10413792000000). *)
Lemma timestamp_round_trip_year_2300 :
  exists t : Time.Time,
    Time.Parse_RFC3339 (bq "2300-01-01T00:00:00Z") = Some t
    /\ millis_since_epoch t = 10413792000000%Z
    /\ timestamp_round_trip (bq "2300-01-01T00:00:00Z")
       = Ok (bq "-8032952073709")
    /\ timestamp_round_trip (bq "2300-01-01T00:00:00Z")
       <> Ok (FormatInt (millis_since_epoch t)).
Proof.
  eexists. split; [vm_compute; reflexivity |].
  split; [vm_compute; reflexivity |].
  split; [vm_compute; reflexivity |].
  vm_compute. discriminate.
Qed.

(** ** Decoding documents *)

Lemma text_eqb_true : forall a b : text, text_eqb a b = true -> a = b.
Proof.
  intros a b. unfold text_eqb.
  destruct (list_eq_dec ascii_dec a b); [auto | discriminate].
Qed.

Lemma text_eqb_false : forall a b : text, a <> b -> text_eqb a b = false.
Proof.
  intros a b H. unfold text_eqb.
  destruct (list_eq_dec ascii_dec a b); [contradiction | reflexivity].
Qed.

(** A key names at most one field. *)
Lemma names_exclusive : forall (f g : string) (k : text),
  names f k = true ->
  fold_name (bq g) <> fold_name (bq f) ->
  names g k = false.
Proof.
  intros f g k Hf Hne. unfold names in *.
  apply text_eqb_true in Hf. rewrite Hf.
  apply text_eqb_false. congruence.
Qed.

Ltac other_field H :=
  match goal with
  | |- context [ names ?g ?k ] =>
      rewrite (names_exclusive _ g k H) by (vm_compute; discriminate)
  end.

Lemma sns_member_timestamp : forall k v (st : store sns),
  names "timestamp" k = true ->
  sns_member k v st
  = (ts <- snsTimestamp_UnmarshalJSON v ;;
     Ok (set_Timestamp (fst st) ts, snd st)).
Proof.
  intros k v st H. unfold sns_member.
  repeat other_field H. rewrite H. reflexivity.
Qed.

Lemma messageAttributes_UnmarshalJSON_cases : forall b,
  messageAttributes_UnmarshalJSON b = Ok {| Key := []; Value := [] |}
  \/ exists e, messageAttributes_UnmarshalJSON b = Err e.
Proof.
  intro b. unfold messageAttributes_UnmarshalJSON, Unmarshal_map.
  destruct b; try (right; eexists; reflexivity);
    try (left; reflexivity).
  destruct (store_map_members members [] None) as [m [e |]].
  - right. eexists. reflexivity.
  - left. reflexivity.
Qed.

Lemma string_field_Ok : forall A (get : A -> text) set v (st : store A),
  exists st', string_field get set v st = Ok st'.
Proof.
  intros. unfold string_field.
  destruct (store_string v (get (fst st)) (snd st)). eexists. reflexivity.
Qed.

(** A member that is not the timestamp is stored, unless it is the
    messageAttributes member and its codec returns an error. *)
Lemma sns_member_other : forall k v (st : store sns),
  names "timestamp" k = false ->
  (exists st', sns_member k v st = Ok st')
  \/ (exists e, sns_member k v st = Err e
        /\ names "messageAttributes" k = true
        /\ messageAttributes_UnmarshalJSON v = Err e).
Proof.
  intros k v st H. unfold sns_member. rewrite H.
  destruct (names "messageAttributes" k).
  { destruct (messageAttributes_UnmarshalJSON_cases v) as [Hm | [e Hm]].
    - left. rewrite Hm. destruct v; eexists; reflexivity.
    - destruct v;
        try solve [ right; exists e; rewrite Hm; repeat split; reflexivity ].
      left. eexists. reflexivity. }
  repeat match goal with
         | |- context [ if names ?f k then _ else _ ] => destruct (names f k)
         end;
    try (left; apply string_field_Ok);
    try (left; eexists; reflexivity).
  left. destruct (store_int v (SignatureVersion (fst st)) (snd st)).
  eexists. reflexivity.
Qed.

Lemma store_members_number_timestamp : forall ns (st : store sns) lit,
  first_member "timestamp" ns = Some (Json.Number lit) ->
  exists e, store_members sns_member ns st = Err e.
Proof.
  induction ns as [| [k v] ns IH]; intros st lit H; [discriminate |].
  cbn [first_member] in H. cbn [store_members].
  destruct (names "timestamp" k) eqn:Hk.
  - injection H as ->. rewrite (sns_member_timestamp _ _ _ Hk).
    eexists. reflexivity.
  - destruct (sns_member_other k v st Hk) as [[st' Hs] | [e [Hs _]]];
      rewrite Hs; cbn [bind].
    + eapply IH. exact H.
    + eexists. reflexivity.
Qed.

Lemma store_members_bad_timestamp : forall ns (st : store sns) s,
  first_member "timestamp" ns = Some (Json.Str s) ->
  Time.Parse_RFC3339 s = None ->
  store_members sns_member ns st
  = Exit "Error unmarshaling event timestamp %q" [ AText s ]
  \/ exists e k v,
       store_members sns_member ns st = Err e
       /\ In (k, v) ns /\ names "messageAttributes" k = true
       /\ messageAttributes_UnmarshalJSON v = Err e.
Proof.
  induction ns as [| [k v] ns IH]; intros st s H Hp; [discriminate |].
  cbn [first_member] in H. cbn [store_members].
  destruct (names "timestamp" k) eqn:Hk.
  - injection H as ->. rewrite (sns_member_timestamp _ _ _ Hk).
    left. unfold snsTimestamp_UnmarshalJSON, Unmarshal_string.
    cbn [store_string bind]. rewrite Hp. reflexivity.
  - destruct (sns_member_other k v st Hk) as [[st' Hs] | [e [Hs [Hn Hm]]]];
      rewrite Hs; cbn [bind].
    + destruct (IH st' s H Hp) as [He | [e [k' [v' [He [Hin Hrest]]]]]].
      * left. exact He.
      * right. exists e, k', v'. split; [exact He |].
        split; [right; exact Hin | exact Hrest].
    + right. exists e, k, v. split; [reflexivity |].
      split; [left; reflexivity | auto].
Qed.

Section EnvelopeProperties.

Variable float32 : Type.
Variable float32_zero : float32.
Variable ParseFloat32 : text -> option float32.
Variable FormatFloat32 : float32 -> option text.

Let member := snsEvent_member ParseFloat32.

Lemma snsEvent_member_other : forall k v (st : store (snsEvent float32)),
  names "sns" k = false -> exists st', member k v st = Ok st'.
Proof.
  intros k v st H. unfold member, snsEvent_member. rewrite H.
  destruct (names "eventVersion" k).
  { destruct (store_float32 ParseFloat32 v (EventVersion (fst st)) (snd st)).
    eexists. reflexivity. }
  destruct (names "eventSource" k); [apply string_field_Ok |].
  destruct (names "eventSubscriptionArn" k); [apply string_field_Ok |].
  eexists. reflexivity.
Qed.

(** The outcome of the first sns member, when it is not a stored value,
    is the outcome of the whole object. *)
Lemma store_members_sns_Err : forall ms (st : store (snsEvent float32)) ns e,
  first_member "sns" ms = Some (Json.Object ns) ->
  (forall st', store_members sns_member ns st' = Err e) ->
  store_members member ms st = Err e.
Proof.
  induction ms as [| [k v] ms IH]; intros st ns e H Hs; [discriminate |].
  cbn [first_member] in H. cbn [store_members].
  destruct (names "sns" k) eqn:Hk.
  - injection H as ->. unfold member, snsEvent_member. rewrite Hk.
    unfold store_sns, store_struct. rewrite Hs. reflexivity.
  - destruct (snsEvent_member_other k v st Hk) as [st' Hm]. rewrite Hm.
    cbn [bind]. eapply IH; eassumption.
Qed.

Lemma store_members_sns_outcome :
  forall ms (st : store (snsEvent float32)) ns,
  first_member "sns" ms = Some (Json.Object ns) ->
  exists st' : store sns,
    forall (r : outcome (store (snsEvent float32))),
      (forall e, store_members sns_member ns st' = Err e -> r = Err e) ->
      (forall m a, store_members sns_member ns st' = Exit m a -> r = Exit m a) ->
      (forall x, store_members sns_member ns st' <> Ok x) ->
      (forall m, store_members sns_member ns st' <> Panic m) ->
      store_members member ms st = r.
Proof.
  induction ms as [| [k v] ms IH]; intros st ns H; [discriminate |].
  cbn [first_member] in H. cbn [store_members].
  destruct (names "sns" k) eqn:Hk.
  - injection H as ->. exists (Sns (fst st), snd st).
    intros r He Hx Hok Hp. unfold member, snsEvent_member. rewrite Hk.
    unfold store_sns, store_struct.
    destruct (store_members sns_member ns (Sns (fst st), snd st)) eqn:Hs;
      cbn [bind].
    + exfalso. eapply Hok. reflexivity.
    + symmetry. apply He. reflexivity.
    + symmetry. apply Hx. reflexivity.
    + exfalso. eapply Hp. reflexivity.
  - destruct (snsEvent_member_other k v st Hk) as [st1 Hm]. rewrite Hm.
    cbn [bind]. eapply IH. exact H.
Qed.

(** C2, as amended: for every input JSON document whose timestamp member
    holds a string that is not parseable as RFC3339, [json.Unmarshal]
    yields no envelope, so no default value takes the place of the
    timestamp; but it does not return an error for that member either: the
    timestamp codec calls [exitErrorf] with the message
    [Error unmarshaling event timestamp %q] and the text, which ends the
    process.  An error is returned only when the codec of a
    messageAttributes member of the same object has returned it before
    the timestamp was reached. *)
Theorem Unmarshal_bad_timestamp : forall (data : text) ms ns s,
  Json.Parse data = Some (Json.Object ms) ->
  first_member "sns" ms = Some (Json.Object ns) ->
  first_member "timestamp" ns = Some (Json.Str s) ->
  Time.Parse_RFC3339 s = None ->
  Unmarshal float32_zero ParseFloat32 data
  = Exit "Error unmarshaling event timestamp %q" [ AText s ]
  \/ exists e k v,
       Unmarshal float32_zero ParseFloat32 data = Err e
       /\ In (k, v) ns /\ names "messageAttributes" k = true
       /\ messageAttributes_UnmarshalJSON v = Err e.
Proof.
  intros data ms ns s Hp Hs Ht Hbad. unfold Unmarshal. rewrite Hp.
  cbn [store_struct]. fold member.
  destruct (store_members_sns_outcome ms (snsEvent_zero float32_zero, None) ns Hs)
    as [st' Hout].
  destruct (store_members_bad_timestamp ns st' s Ht Hbad)
    as [He | [e [k [v [He Hrest]]]]].
  - left. rewrite (Hout (Exit "Error unmarshaling event timestamp %q" [ AText s ])).
    + reflexivity.
    + intros e' H'. congruence.
    + intros m a H'. congruence.
    + intros x H'. congruence.
    + intros m H'. congruence.
  - right. exists e, k, v. split; [| exact Hrest].
    rewrite (Hout (Err e)).
    + reflexivity.
    + intros e' H'. congruence.
    + intros m a H'. congruence.
    + intros x H'. congruence.
    + intros m H'. congruence.
Qed.

End EnvelopeProperties.

(** The bytes [json.Marshal] writes for the zero envelope are rejected by
    [json.Unmarshal]: the timestamp is a number there. *)
Example Unmarshal_of_Marshal_zero :
  exists out : text,
    Marshal whole_format (snsEvent_zero whole_zero) = Ok out
    /\ Unmarshal whole_zero whole_parse out
       = Err (UnmarshalTypeError "number" "string").
Proof.
  eexists. split; [vm_compute; reflexivity | vm_compute; reflexivity].
Qed.

Lemma Unmarshal_bad_timestamp_witness :
  Unmarshal whole_zero whole_parse (bq "{`sns`:{`timestamp`:`not-a-date`}}")
  = Exit "Error unmarshaling event timestamp %q" [ AText (bq "not-a-date") ]
  \/ exists e k v,
       Unmarshal whole_zero whole_parse (bq "{`sns`:{`timestamp`:`not-a-date`}}")
       = Err e
       /\ In (k, v) [ (bq "timestamp", Json.Str (bq "not-a-date")) ]
       /\ names "messageAttributes" k = true
       /\ messageAttributes_UnmarshalJSON v = Err e.
Proof.
  apply (Unmarshal_bad_timestamp whole_version whole_zero whole_parse
           (bq "{`sns`:{`timestamp`:`not-a-date`}}")
           [ (bq "sns",
              Json.Object [ (bq "timestamp", Json.Str (bq "not-a-date")) ]) ]
           [ (bq "timestamp", Json.Str (bq "not-a-date")) ]
           (bq "not-a-date")).
  - vm_compute. reflexivity.
  - vm_compute. reflexivity.
  - vm_compute. reflexivity.
  - vm_compute. reflexivity.
Defined.

(** The claim of C2 fails on a document whose timestamp is the string
    not-a-date: no error is returned, the process ends in [exitErrorf]. *)
Lemma Unmarshal_not_a_date_exits :
  Unmarshal whole_zero whole_parse (bq "{`sns`:{`timestamp`:`not-a-date`}}")
  = Exit "Error unmarshaling event timestamp %q" [ AText (bq "not-a-date") ]
  /\ ~ exists e : error,
         Unmarshal whole_zero whole_parse
           (bq "{`sns`:{`timestamp`:`not-a-date`}}") = Err e.
Proof.
  split; [vm_compute; reflexivity |].
  intros [e H]. vm_compute in H. discriminate H.
Qed.

(** ** The attribute placeholder *)

(** An object whose members all hold strings or null is accepted, and the
    placeholder is encoded as the empty object. *)
Lemma store_map_members_strings : forall ms cur,
  Forall (fun m : text * Json.value =>
            match snd m with
            | Json.Str _ | Json.Null => True
            | _ => False
            end) ms ->
  snd (store_map_members ms cur None) = None.
Proof.
  induction ms as [| [k v] ms IH]; intros cur H; [reflexivity |].
  inversion H as [| m ms' Hv Hms]; subst. cbn [snd] in Hv.
  cbn [store_map_members].
  destruct v; try contradiction; cbn [store_string]; apply IH; exact Hms.
Qed.

Lemma placeholder_round_trip_strings : forall ms,
  Forall (fun m : text * Json.value =>
            match snd m with
            | Json.Str _ | Json.Null => True
            | _ => False
            end) ms ->
  placeholder_round_trip (Json.Object ms) = Ok (bq "{}").
Proof.
  intros ms H. unfold placeholder_round_trip, messageAttributes_UnmarshalJSON,
    Unmarshal_map.
  pose proof (store_map_members_strings ms [] H) as Hs.
  destruct (store_map_members ms [] None) as [m saved]. cbn [snd] in Hs.
  subst saved. reflexivity.
Qed.

(** C3, at the input on which the code departs from it: the well-formed
    object with the member a holding the number 1 is not decoded into the
    placeholder, so nothing is encoded; the codec returns the type error of
    the map of strings it decodes into. *)
Theorem placeholder_round_trip_number_member :
  Json.Parse (bq "{`a`:1}") = Some (Json.Object [ (bq "a", Json.Number (bq "1")) ])
  /\ placeholder_round_trip (Json.Object [ (bq "a", Json.Number (bq "1")) ])
     = Err (UnmarshalTypeError "number" "string")
  /\ placeholder_round_trip (Json.Object [ (bq "a", Json.Number (bq "1")) ])
     <> Ok (bq "{}").
Proof.
  split; [vm_compute; reflexivity |].
  split; [vm_compute; reflexivity |].
  vm_compute. discriminate.
Qed.

(** C6, at the inputs on which the code departs from it: a well-formed
    object with a member that holds a number, or a nested object, is
    rejected by the codec of messageAttributes, and with it the whole
    document. *)
Theorem messageAttributes_UnmarshalJSON_rejects :
  messageAttributes_UnmarshalJSON
    (Json.Object [ (bq "a", Json.Number (bq "1")) ])
  = Err (UnmarshalTypeError "number" "string")
  /\ Unmarshal_sns (bq "{`messageAttributes`:{`a`:1}}")
     = Err (UnmarshalTypeError "number" "string")
  /\ Unmarshal_sns
       (bq "{`messageAttributes`:{`k`:{`Type`:`String`,`Value`:`v`}}}")
     = Err (UnmarshalTypeError "object" "string").
Proof.
  split; [vm_compute; reflexivity |].
  split; vm_compute; reflexivity.
Qed.

(** ** Encoding *)

Lemma encode_MessageAttributes_Some : forall m,
  encode_MessageAttributes (Some m) = Ok (bq "{}").
Proof. reflexivity. Qed.

(** C5, at the input on which the code departs from it: the envelope
    decoded from a document without a messageAttributes member has a nil
    pointer, and the encoder writes null for it. *)
Theorem Marshal_sns_nil_messageAttributes :
  Unmarshal_sns (bq "{}") = Ok sns_zero
  /\ MessageAttributes sns_zero = None
  /\ Marshal_sns sns_zero
     = Ok (bq "{`messageAttributes`:null,`signingCertUrl`:``,`messageId`:``,`message`:``,`unsubscribeUrl`:``,`type`:``,`signatureVersion`:0,`signature`:``,`timestamp`:0,`topicArn`:``}").
Proof.
  split; [vm_compute; reflexivity |].
  split; vm_compute; reflexivity.
Qed.

(** ** The end-to-end scenario *)

(** The claim of C4 fails: the flat text is normalized to a sequence of
    members without braces, which is not a JSON text, and [main] ends the
    process. *)
Lemma process_flat_scenario_exits :
  parseUnquotedJSON flat_scenario
  = Ok (bq "`messageId`: `abc-123`, `signatureVersion`: 1, `timestamp`: `2023-06-15T12:00:00Z`, `type`: `Notification`, `message`: `hello`")
  /\ process whole_zero whole_parse whole_format (bq "item") flat_scenario
     = Exit "Unable to unmarshal contents of item %q, %v"
         [ AText (bq "item"); AError SyntaxError ].
Proof. split; vm_compute; reflexivity. Qed.

(** C4, as amended: the flat text of the scenario is normalized to the
    members with quoted keys and values and the signature version unquoted,
    which without braces is not a JSON text, so the loop body ends the
    process at decoding.  With the same fields inside the braces of the sns
    member of the envelope, the loop body normalizes, decodes and encodes to
    strict JSON in which messageId is the string abc-123, signatureVersion
    the number 1, timestamp the number 1686830400000, type the string
    Notification and message the string hello. *)
Theorem process_envelope_scenario :
  forall (float32 : Type) (float32_zero : float32)
         (ParseFloat32 : text -> option float32)
         (FormatFloat32 : float32 -> option text) (item version : text),
  FormatFloat32 float32_zero = Some version ->
  parseUnquotedJSON envelope_scenario
  = Ok (bq "{`sns`: {`messageId`: `abc-123`, `signatureVersion`: 1, `timestamp`: `2023-06-15T12:00:00Z`, `type`: `Notification`, `message`: `hello`}}")
  /\ process float32_zero ParseFloat32 FormatFloat32 item flat_scenario
     = Exit "Unable to unmarshal contents of item %q, %v"
         [ AText item; AError SyntaxError ]
  /\ process float32_zero ParseFloat32 FormatFloat32 item envelope_scenario
     = Ok (bq "{`sns`:{`messageAttributes`:null,`signingCertUrl`:``,`messageId`:`abc-123`,`message`:`hello`,`unsubscribeUrl`:``,`type`:`Notification`,`signatureVersion`:1,`signature`:``,`timestamp`:1686830400000,`topicArn`:``},`eventVersion`:"
           ++ version ++ bq ",`eventSource`:``,`eventSubscriptionArn`:``}").
Proof.
  intros float32 z pf ff item version Hv.
  split; [vm_compute; reflexivity |].
  split.
  - vm_compute. reflexivity.
  - unfold process.
    replace (parseUnquotedJSON envelope_scenario)
      with (Ok (bq "{`sns`: {`messageId`: `abc-123`, `signatureVersion`: 1, `timestamp`: `2023-06-15T12:00:00Z`, `type`: `Notification`, `message`: `hello`}}"))
      by (vm_compute; reflexivity).
    cbn [bind].
    vm_compute. rewrite Hv. reflexivity.
Qed.

Lemma process_envelope_scenario_witness :
  parseUnquotedJSON envelope_scenario
  = Ok (bq "{`sns`: {`messageId`: `abc-123`, `signatureVersion`: 1, `timestamp`: `2023-06-15T12:00:00Z`, `type`: `Notification`, `message`: `hello`}}")
  /\ process whole_zero whole_parse whole_format (bq "item") flat_scenario
     = Exit "Unable to unmarshal contents of item %q, %v"
         [ AText (bq "item"); AError SyntaxError ]
  /\ process whole_zero whole_parse whole_format (bq "item") envelope_scenario
     = Ok (bq "{`sns`:{`messageAttributes`:null,`signingCertUrl`:``,`messageId`:`abc-123`,`message`:`hello`,`unsubscribeUrl`:``,`type`:`Notification`,`signatureVersion`:1,`signature`:``,`timestamp`:1686830400000,`topicArn`:``},`eventVersion`:"
           ++ bq "0" ++ bq ",`eventSource`:``,`eventSubscriptionArn`:``}").
Proof.
  apply (process_envelope_scenario whole_version whole_zero whole_parse
           whole_format (bq "item") (bq "0")).
  vm_compute. reflexivity.
Defined.

(** * The normalizer, pass by pass *)

#[local] Arguments is_quote : simpl never.
#[local] Arguments is_ident : simpl never.
#[local] Arguments is_safe : simpl never.
#[local] Arguments is_numeric : simpl never.
#[local] Arguments is_space : simpl never.
#[local] Arguments Regexp.in_class : simpl never.

(** ** Characters *)

Lemma ascii_bound : forall c : ascii, nat_of_ascii c < 256.
Proof.
  intro c. destruct c as [[] [] [] [] [] [] [] []]; vm_compute; lia.
Qed.

(** A boolean property checked on the 256 characters holds of all. *)
Lemma forall_ascii : forall P : ascii -> bool,
  forallb P (map ascii_of_nat (seq 0 256)) = true ->
  forall c : ascii, P c = true.
Proof.
  intros P H c. rewrite forallb_forall in H. apply H.
  rewrite <- (ascii_nat_embedding c). apply in_map.
  apply in_seq. pose proof (ascii_bound c). lia.
Qed.

Ltac by_chars :=
  let c := fresh "c" in
  intro c; revert c;
  match goal with
  | |- forall c : ascii, @?P c = true =>
      apply (forall_ascii P); vm_compute; reflexivity
  end.

(** A goal about the classes of one character [c], under hypotheses of
    the form [f c = true] or [f c = false], is turned into a boolean formula
    and checked on the 256 characters. *)
Ltac bool_of P :=
  lazymatch P with
  | ?X = true => constr:(X)
  | ?X = false => constr:(negb X)
  | False => constr:(false)
  | ?A -> ?B =>
      let a := bool_of A in
      let b := bool_of B in
      constr:(implb a b)
  end.

Ltac cls c :=
  repeat match goal with
         | H : ?l = true |- _ =>
             match l with context [ c ] => revert H end
         | H : ?l = false |- _ =>
             match l with context [ c ] => revert H end
         end;
  match goal with
  | |- ?P =>
      let b := bool_of P in
      let Hb := fresh "Hb" in
      cut (b = true);
      [ intro Hb; intros;
        repeat match goal with
               | H : ?X = true |- _ =>
                   tryif constr_eq H Hb then fail else rewrite H in Hb
               | H : ?X = false |- _ =>
                   tryif constr_eq H Hb then fail else rewrite H in Hb
               end;
        cbn in Hb;
        first [ discriminate Hb
              | exact Hb
              | apply negb_true_iff in Hb; exact Hb ]
      | generalize c;
        match goal with
        | |- forall c : ascii, @?Q c = true =>
            apply (forall_ascii Q); vm_compute; reflexivity
        end ]
  end.

Lemma ident_safe : forall c, is_ident c = true -> is_safe c = true.
Proof. intros c H. cls c. Qed.

Lemma numeric_safe : forall c, is_numeric c = true -> is_safe c = true.
Proof. intros c H. cls c. Qed.

Lemma quote_not_safe : forall c, is_quote c = true -> is_safe c = false.
Proof. intros c H. cls c. Qed.

Lemma quote_not_ident : forall c, is_quote c = true -> is_ident c = false.
Proof. intros c H. cls c. Qed.

Lemma quote_not_space : forall c, is_quote c = true -> is_space c = false.
Proof. intros c H. cls c. Qed.

Lemma space_not_safe : forall c, is_space c = true -> is_safe c = false.
Proof. intros c H. cls c. Qed.

Lemma space_not_ident : forall c, is_space c = true -> is_ident c = false.
Proof. intros c H. cls c. Qed.

Lemma space_not_quote : forall c, is_space c = true -> is_quote c = false.
Proof. intros c H. cls c. Qed.

Lemma quote_swap : forall c,
  Regexp.in_class [ (dq, dq); ("'"%char, "'"%char) ] c = is_quote c.
Proof.
  intro c. apply Bool.eqb_prop. revert c.
  apply (forall_ascii (fun c =>
    Bool.eqb (Regexp.in_class [ (dq, dq); ("'"%char, "'"%char) ] c) (is_quote c))).
  vm_compute. reflexivity.
Qed.

Lemma colon_not_ident : forall c, Ascii.eqb c ":" = true -> is_ident c = false.
Proof. intros c H. cls c. Qed.

(** ** Runs of characters *)

Lemma span_spec : forall p s a b,
  span p s = (a, b) -> s = a ++ b /\ all_in p a /\ stops p b.
Proof.
  induction s as [| c s IH]; intros a b H; cbn in H.
  - injection H as <- <-. repeat split. constructor.
  - destruct (p c) eqn:Hc.
    + destruct (span p s) as [a' b'] eqn:Hs. injection H as <- <-.
      destruct (IH a' b' eq_refl) as [E [Ha Hb]].
      split; [cbn; congruence |]. split; [| exact Hb].
      constructor; assumption.
    + injection H as <- <-. repeat split; [constructor | exact Hc].
Qed.

Lemma span_run : forall p k x,
  all_in p k -> stops p x -> span p (k ++ x) = (k, x).
Proof.
  induction k as [| c k IH]; intros x Hk Hx; cbn [app span].
  - destruct x as [| d x]; [reflexivity |]. cbn [span]. cbn in Hx.
    rewrite Hx. reflexivity.
  - inversion Hk as [| c' k' Hc Hk']; subst. rewrite Hc.
    rewrite (IH x Hk' Hx). reflexivity.
Qed.

(** A text splits in one way into a run of a class and a rest that stops
    the run. *)
Lemma run_unique : forall p a b x y,
  all_in p a -> all_in p b -> stops p x -> stops p y ->
  a ++ x = b ++ y -> a = b /\ x = y.
Proof.
  intros p a b x y Ha Hb Hx Hy E.
  pose proof (span_run p a x Ha Hx) as E1.
  pose proof (span_run p b y Hb Hy) as E2.
  rewrite E in E1. rewrite E1 in E2. injection E2 as -> ->. auto.
Qed.

Lemma all_in_app : forall p a b, all_in p (a ++ b) <-> all_in p a /\ all_in p b.
Proof. intros. unfold all_in. apply Forall_app. Qed.

Lemma all_in_impl : forall (p q : ascii -> bool) s,
  (forall c, p c = true -> q c = true) -> all_in p s -> all_in q s.
Proof.
  intros p q s H Hs. unfold all_in in *. eapply Forall_impl; [| exact Hs].
  cbn. auto.
Qed.

Lemma drop_quote_stops : forall s,
  stops is_quote s -> drop_quote s = s.
Proof.
  intros [| c s] H; [reflexivity |]. unfold drop_quote, stops in *.
  rewrite H. reflexivity.
Qed.

Lemma drop_quote_quote : forall q s,
  is_quote q = true -> drop_quote (q :: s) = s.
Proof. intros q s H. unfold drop_quote. rewrite H. reflexivity. Qed.

Lemma drop_quote_opt : forall o s,
  opt_quote o -> stops is_quote (o ++ s) \/ o <> [] -> drop_quote (o ++ s) = s
  \/ (o = [] /\ drop_quote s = s).
Proof.
  intros o s [-> | [q [-> Hq]]] H.
  - right. split; [reflexivity |]. destruct H as [H | H]; [| contradiction].
    apply drop_quote_stops. exact H.
  - left. apply drop_quote_quote. exact Hq.
Qed.

(** ** The matcher on the shapes of the three patterns *)

Lemma flat_map_pair : forall (A B : Type) (l : list (A * B)),
  flat_map (fun m => [ (fst m, snd m) ]) l = l.
Proof.
  induction l as [| [a b] l IH]; cbn; [reflexivity | rewrite IH; reflexivity].
Qed.

Lemma rmatch_seq_empty : forall r s caps,
  Regexp.rmatch (Regexp.RSeq r Regexp.REmpty) s caps = Regexp.rmatch r s caps.
Proof. intros. cbn [Regexp.rmatch]. apply flat_map_pair. Qed.

Lemma sub_succ_self : forall n, S n - n = 1.
Proof. intro n. lia. Qed.

Lemma plus_iter_S : forall step fuel s caps,
  Regexp.plus_iter step (S fuel) s caps
  = flat_map
      (fun r : Regexp.captures * text =>
         (if length (snd r) <? length s
          then Regexp.plus_iter step fuel (snd r) (fst r) else [])
         ++ [ r ])
      (step s caps).
Proof. reflexivity. Qed.

Lemma rmatch_class : forall rs c s caps,
  Regexp.rmatch (Regexp.RClass rs) (c :: s) caps
  = if Regexp.in_class rs c then [ (caps, s) ] else [].
Proof. reflexivity. Qed.

Lemma rmatch_char : forall x c s caps,
  Regexp.rmatch (Regexp.RChar x) (c :: s) caps
  = if Ascii.eqb x c then [ (caps, s) ] else [].
Proof. reflexivity. Qed.

(** One or more characters of a class, within a group and followed by
    something that cannot begin with a character of the class: only the
    longest run leads on. *)
Lemma plus_iter_class : forall rs (A : Type)
  (f : Regexp.captures * text -> list A) caps,
  (forall c s, Regexp.in_class rs c = true -> f (caps, c :: s) = []) ->
  forall s fuel, length s < fuel ->
  flat_map f (Regexp.plus_iter (Regexp.rmatch (Regexp.RClass rs)) fuel s caps)
  = match span (Regexp.in_class rs) s with
    | ([], _) => []
    | (_, s2) => f (caps, s2)
    end.
Proof.
  intros rs A f caps Hf. induction s as [| c s IH]; intros fuel Hfuel.
  - destruct fuel; [reflexivity |]. reflexivity.
  - destruct fuel as [| fuel]; [cbn in Hfuel; lia |].
    rewrite plus_iter_S, rmatch_class. cbn [span].
    destruct (Regexp.in_class rs c) eqn:Hc.
    + cbn [flat_map snd fst app length].
      replace (length s <? S (length s)) with true
        by (symmetry; apply Nat.ltb_lt; lia).
      rewrite app_nil_r, flat_map_app. cbn [flat_map]. rewrite app_nil_r.
      rewrite (IH fuel) by (cbn in Hfuel; lia).
      destruct (span (Regexp.in_class rs) s) as [k s2] eqn:Hs.
      destruct k as [| d k].
      * apply span_spec in Hs. destruct Hs as [-> _]. reflexivity.
      * apply span_spec in Hs. destruct Hs as [-> [Hk _]].
        inversion Hk; subst. cbn [app]. rewrite (Hf d (k ++ s2)) by assumption.
        apply app_nil_r.
    + reflexivity.
Qed.

Lemma firstn_span : forall p s k s2,
  span p s = (k, s2) -> firstn (length s - length s2) s = k.
Proof.
  intros p s k s2 H. apply span_spec in H. destruct H as [-> _].
  rewrite length_app. replace (length k + length s2 - length s2) with (length k) by lia.
  rewrite firstn_app, firstn_all. replace (length k - length k) with 0 by lia.
  cbn. apply app_nil_r.
Qed.

Lemma flat_map_map : forall (A B C : Type) (g : A -> B) (f : B -> list C) l,
  flat_map f (map g l) = flat_map (fun x => f (g x)) l.
Proof.
  induction l as [| x l IH]; cbn; [reflexivity | rewrite IH; reflexivity].
Qed.

Lemma group_plus_class : forall n rs (A : Type)
  (f : Regexp.captures * text -> list A) caps s,
  (forall c s' cp, Regexp.in_class rs c = true -> f (cp, c :: s') = []) ->
  flat_map f
    (Regexp.rmatch
       (Regexp.RGroup n (Regexp.RSeq (Regexp.RPlus (Regexp.RClass rs)) Regexp.REmpty))
       s caps)
  = match span (Regexp.in_class rs) s with
    | ([], _) => []
    | (k, s2) => f ((n, k) :: caps, s2)
    end.
Proof.
  intros n rs A f caps s Hf.
  change (Regexp.rmatch (Regexp.RGroup n (Regexp.RSeq (Regexp.RPlus (Regexp.RClass rs)) Regexp.REmpty)) s caps)
    with (map (fun m : Regexp.captures * text =>
                 ((n, firstn (length s - length (snd m)) s) :: fst m, snd m))
            (Regexp.rmatch (Regexp.RSeq (Regexp.RPlus (Regexp.RClass rs)) Regexp.REmpty) s caps)).
  rewrite rmatch_seq_empty, flat_map_map.
  change (Regexp.rmatch (Regexp.RPlus (Regexp.RClass rs)) s caps)
    with (Regexp.plus_iter (Regexp.rmatch (Regexp.RClass rs)) (S (length s)) s caps).
  rewrite (plus_iter_class rs _
             (fun x : Regexp.captures * text =>
                f ((n, firstn (length s - length (snd x)) s) :: fst x, snd x)) caps).
  - destruct (span (Regexp.in_class rs) s) as [k s2] eqn:Hs.
    destruct k as [| d k]; [reflexivity |].
    cbn [fst snd]. rewrite (firstn_span _ _ _ _ Hs). reflexivity.
  - intros c s' Hc. cbn [fst snd]. apply Hf. exact Hc.
  - lia.
Qed.

Lemma opt_group_class : forall n rs s cp,
  Regexp.rmatch
    (Regexp.ROpt (Regexp.RGroup n (Regexp.RSeq (Regexp.RClass rs) Regexp.REmpty)))
    s cp
  = match s with
    | a :: t =>
        if Regexp.in_class rs a then [ ((n, [ a ]) :: cp, t); (cp, s) ]
        else [ (cp, s) ]
    | [] => [ (cp, []) ]
    end.
Proof.
  intros n rs s cp.
  change (Regexp.rmatch (Regexp.ROpt (Regexp.RGroup n (Regexp.RSeq (Regexp.RClass rs) Regexp.REmpty))) s cp)
    with (map (fun m : Regexp.captures * text =>
                 ((n, firstn (length s - length (snd m)) s) :: fst m, snd m))
            (Regexp.rmatch (Regexp.RSeq (Regexp.RClass rs) Regexp.REmpty) s cp)
          ++ [ (cp, s) ]).
  rewrite rmatch_seq_empty. destruct s as [| a t]; [reflexivity |].
  rewrite rmatch_class. destruct (Regexp.in_class rs a); [| reflexivity].
  cbn [map app fst snd length]. rewrite sub_succ_self. reflexivity.
Qed.

Lemma group_opt_class : forall n rs s cp,
  Regexp.rmatch
    (Regexp.RGroup n (Regexp.RSeq (Regexp.ROpt (Regexp.RClass rs)) Regexp.REmpty))
    s cp
  = match s with
    | a :: t =>
        if Regexp.in_class rs a then [ ((n, [ a ]) :: cp, t); ((n, []) :: cp, s) ]
        else [ ((n, []) :: cp, s) ]
    | [] => [ ((n, []) :: cp, []) ]
    end.
Proof.
  intros n rs s cp.
  change (Regexp.rmatch (Regexp.RGroup n (Regexp.RSeq (Regexp.ROpt (Regexp.RClass rs)) Regexp.REmpty)) s cp)
    with (map (fun m : Regexp.captures * text =>
                 ((n, firstn (length s - length (snd m)) s) :: fst m, snd m))
            (Regexp.rmatch (Regexp.RSeq (Regexp.ROpt (Regexp.RClass rs)) Regexp.REmpty) s cp)).
  rewrite rmatch_seq_empty.
  change (Regexp.rmatch (Regexp.ROpt (Regexp.RClass rs)) s cp)
    with (Regexp.rmatch (Regexp.RClass rs) s cp ++ [ (cp, s) ]).
  destruct s as [| a t]; [reflexivity |].
  rewrite rmatch_class. destruct (Regexp.in_class rs a).
  - cbn [map app fst snd length]. rewrite sub_succ_self, Nat.sub_diag. reflexivity.
  - cbn [map app fst snd]. rewrite Nat.sub_diag. reflexivity.
Qed.

Lemma rmatch_seq : forall r1 r2 s caps,
  Regexp.rmatch (Regexp.RSeq r1 r2) s caps
  = flat_map (fun m : Regexp.captures * text => Regexp.rmatch r2 (snd m) (fst m))
      (Regexp.rmatch r1 s caps).
Proof. reflexivity. Qed.

(** *** The compiled patterns *)

Lemma compiled_key_pattern :
  compiled key_pattern
  = Regexp.RSeq
      (Regexp.ROpt (Regexp.RGroup 1
         (Regexp.RSeq (Regexp.RClass [ ("'"%char, "'"%char); (dq, dq) ]) Regexp.REmpty)))
      (Regexp.RSeq
         (Regexp.RGroup 2
            (Regexp.RSeq
               (Regexp.RPlus (Regexp.RClass
                  [ ("a"%char, "z"%char); ("0"%char, "9"%char);
                    ("A"%char, "Z"%char); ("_"%char, "_"%char) ]))
               Regexp.REmpty))
         (Regexp.RSeq
            (Regexp.ROpt (Regexp.RGroup 3
               (Regexp.RSeq (Regexp.RClass [ ("'"%char, "'"%char); (dq, dq) ])
                  Regexp.REmpty)))
            (Regexp.RSeq (Regexp.RChar ":")
               (Regexp.RSeq (Regexp.RClass Regexp.space_class) Regexp.REmpty)))).
Proof. vm_compute. reflexivity. Qed.

Lemma compiled_value_pattern :
  compiled value_pattern
  = Regexp.RSeq (Regexp.RChar ":")
      (Regexp.RSeq (Regexp.RChar " ")
         (Regexp.RSeq
            (Regexp.ROpt (Regexp.RGroup 1
               (Regexp.RSeq (Regexp.RClass [ ("'"%char, "'"%char); (dq, dq) ])
                  Regexp.REmpty)))
            (Regexp.RSeq
               (Regexp.RGroup 2
                  (Regexp.RSeq
                     (Regexp.RPlus (Regexp.RClass
                        [ ("a"%char, "z"%char); ("0"%char, "9"%char);
                          ("A"%char, "Z"%char); ("_"%char, "_"%char);
                          ("/"%char, "/"%char); ("."%char, "."%char);
                          ("-"%char, "-"%char); (":"%char, ":"%char);
                          ("?"%char, "?"%char); ("&"%char, "&"%char);
                          ("="%char, "="%char); ("+"%char, "+"%char) ]))
                     Regexp.REmpty))
               (Regexp.RSeq
                  (Regexp.ROpt (Regexp.RGroup 3
                     (Regexp.RSeq
                        (Regexp.RClass [ ("'"%char, "'"%char); (dq, dq) ])
                        Regexp.REmpty)))
                  Regexp.REmpty)))).
Proof. vm_compute. reflexivity. Qed.

Lemma compiled_number_pattern :
  compiled number_pattern
  = Regexp.RSeq (Regexp.RChar ":")
      (Regexp.RSeq (Regexp.RChar " ")
         (Regexp.RSeq
            (Regexp.RGroup 1
               (Regexp.RSeq
                  (Regexp.ROpt (Regexp.RClass [ (dq, dq); ("'"%char, "'"%char) ]))
                  Regexp.REmpty))
            (Regexp.RSeq
               (Regexp.RGroup 2
                  (Regexp.RSeq
                     (Regexp.RPlus (Regexp.RClass
                        [ ("0"%char, "9"%char); ("."%char, "."%char) ]))
                     Regexp.REmpty))
               (Regexp.RSeq
                  (Regexp.RGroup 3
                     (Regexp.RSeq
                        (Regexp.ROpt
                           (Regexp.RClass [ (dq, dq); ("'"%char, "'"%char) ]))
                        Regexp.REmpty))
                  (Regexp.RSeq (Regexp.RChar ",") Regexp.REmpty))))).
Proof. vm_compute. reflexivity. Qed.

(** The parts of the three patterns. *)
Local Abbreviation quotes := [ ("'"%char, "'"%char); (dq, dq) ].
Local Abbreviation quotes' := [ (dq, dq); ("'"%char, "'"%char) ].
Local Abbreviation opt_quote_group n :=
  (Regexp.ROpt (Regexp.RGroup n
     (Regexp.RSeq (Regexp.RClass quotes) Regexp.REmpty))).
Local Abbreviation quote_opt_group n :=
  (Regexp.RGroup n
     (Regexp.RSeq (Regexp.ROpt (Regexp.RClass quotes')) Regexp.REmpty)).
Local Abbreviation run_group rs :=
  (Regexp.RGroup 2
     (Regexp.RSeq (Regexp.RPlus (Regexp.RClass rs)) Regexp.REmpty)).
Local Abbreviation idents :=
  [ ("a"%char, "z"%char); ("0"%char, "9"%char);
    ("A"%char, "Z"%char); ("_"%char, "_"%char) ].
Local Abbreviation safes :=
  [ ("a"%char, "z"%char); ("0"%char, "9"%char);
    ("A"%char, "Z"%char); ("_"%char, "_"%char);
    ("/"%char, "/"%char); ("."%char, "."%char);
    ("-"%char, "-"%char); (":"%char, ":"%char);
    ("?"%char, "?"%char); ("&"%char, "&"%char);
    ("="%char, "="%char); ("+"%char, "+"%char) ].
Local Abbreviation numerics := [ ("0"%char, "9"%char); ("."%char, "."%char) ].
Local Abbreviation colon_space :=
  (Regexp.RSeq (Regexp.RChar ":")
     (Regexp.RSeq (Regexp.RClass Regexp.space_class) Regexp.REmpty)).
Local Abbreviation key_end := (Regexp.RSeq (opt_quote_group 3) colon_space).
Local Abbreviation number_end :=
  (Regexp.RSeq (quote_opt_group 3)
     (Regexp.RSeq (Regexp.RChar ",") Regexp.REmpty)).

(** *** The key pattern *)

Lemma key_tail : forall t cp,
  match
    match drop_quote t with
    | c :: w :: r => if Ascii.eqb c ":" && is_space w then Some r else None
    | _ => None
    end
  with
  | Some r =>
      exists cp',
        Regexp.rmatch key_end t cp = [ (cp', r) ]
        /\ Regexp.group_text cp' 2 = Regexp.group_text cp 2
  | None => Regexp.rmatch key_end t cp = []
  end.
Proof.
  intros t cp. rewrite rmatch_seq, opt_group_class.
  assert (CS : forall u cq,
    Regexp.rmatch colon_space u cq
    = match u with
      | c :: w :: r => if Ascii.eqb c ":" && is_space w then [ (cq, r) ] else []
      | _ => []
      end).
  { intros u cq. rewrite rmatch_seq. destruct u as [| c u]; [reflexivity |].
    rewrite rmatch_char, (Ascii.eqb_sym ":" c).
    destruct (Ascii.eqb c ":"); cbn [flat_map andb fst snd].
    - rewrite rmatch_seq_empty, app_nil_r. destruct u as [| w r]; [reflexivity |].
      rewrite rmatch_class. reflexivity.
    - destruct u; reflexivity. }
  destruct t as [| a t].
  - cbn [flat_map fst snd drop_quote]. rewrite CS. reflexivity.
  - fold (is_quote a). unfold drop_quote. destruct (is_quote a) eqn:Ha.
    + cbn [flat_map fst snd]. rewrite !CS.
      assert (Hc : Ascii.eqb a ":" = false) by (cls a).
      rewrite Hc. cbn [andb]. rewrite app_nil_r.
      destruct t as [| c [| w r]]; try reflexivity.
      destruct (Ascii.eqb c ":" && is_space w); [| reflexivity].
      eexists. split; reflexivity.
    + cbn [flat_map fst snd]. rewrite CS, app_nil_r.
      destruct t as [| w r]; [destruct (Ascii.eqb a ":"); reflexivity |].
      destruct (Ascii.eqb a ":" && is_space w); [| reflexivity].
      eexists. split; reflexivity.
Qed.

Lemma key_tail_ident : forall c s cp,
  is_ident c = true -> Regexp.rmatch key_end (c :: s) cp = [].
Proof.
  intros c s cp Hc. pose proof (key_tail (c :: s) cp) as H.
  assert (Hq : is_quote c = false) by (cls c).
  assert (Hn : Ascii.eqb c ":" = false) by (cls c).
  unfold drop_quote in H. rewrite Hq in H.
  destruct s as [| w r]; [exact H |]. rewrite Hn in H. exact H.
Qed.

Lemma key_body : forall t cp,
  Regexp.rmatch (Regexp.RSeq (run_group idents) key_end) t cp
  = match span is_ident t with
    | ([], _) => []
    | (k, s2) => Regexp.rmatch key_end s2 ((2, k) :: cp)
    end.
Proof.
  intros t cp. rewrite rmatch_seq.
  rewrite (group_plus_class 2 idents _
             (fun m : Regexp.captures * text =>
                Regexp.rmatch key_end (snd m) (fst m))).
  - reflexivity.
  - intros c s' cq Hc. cbn [fst snd]. apply key_tail_ident. exact Hc.
Qed.

(** The key pattern matches at the start of [s] exactly when [key_match]
    gives a result, with the same text for group 2 and the same rest. *)
Lemma match_here_key : forall s,
  match key_match s with
  | Some (k, rest) =>
      exists caps,
        Regexp.match_here (compiled key_pattern) s = Some (caps, rest)
        /\ Regexp.group_text caps 2 = k
  | None => Regexp.match_here (compiled key_pattern) s = None
  end.
Proof.
  intro s. rewrite compiled_key_pattern. unfold Regexp.match_here, key_match.
  rewrite rmatch_seq, opt_group_class.
  assert (Hres : forall t cp,
    match
      (let (k, s2) := span is_ident t in
       match k with
       | [] => None
       | _ :: _ =>
           match drop_quote s2 with
           | c :: w :: rest =>
               if Ascii.eqb c ":" && is_space w then Some (k, rest) else None
           | _ => None
           end
       end)
    with
    | Some (k, rest) =>
        exists caps,
          Regexp.rmatch (Regexp.RSeq (run_group idents) key_end) t cp
          = [ (caps, rest) ]
          /\ Regexp.group_text caps 2 = k
    | None => Regexp.rmatch (Regexp.RSeq (run_group idents) key_end) t cp = []
    end).
  { intros t cp. rewrite key_body.
    destruct (span is_ident t) as [k s2]. destruct k as [| d k]; [reflexivity |].
    pose proof (key_tail s2 ((2, d :: k) :: cp)) as H.
    destruct (drop_quote s2) as [| c [| w rest]]; try exact H.
    destruct (Ascii.eqb c ":" && is_space w); [| exact H].
    destruct H as [cp' [H1 H2]]. exists cp'. split; [exact H1 |].
    rewrite H2. reflexivity. }
  destruct s as [| a t].
  - cbn [flat_map fst snd drop_quote]. specialize (Hres [] []).
    cbn [span] in Hres. rewrite Hres. reflexivity.
  - fold (is_quote a). destruct (is_quote a) eqn:Ha.
    + rewrite (drop_quote_quote a t Ha).
      cbn [flat_map fst snd]. rewrite app_nil_r.
      assert (Hz : Regexp.rmatch (Regexp.RSeq (run_group idents) key_end) (a :: t) [] = []).
      { rewrite key_body. cbn [span].
        assert (Hi : is_ident a = false) by (cls a). rewrite Hi. reflexivity. }
      rewrite Hz, app_nil_r.
      match goal with
      | |- context [ Regexp.rmatch _ t ?c ] => specialize (Hres t c)
      end.
      destruct (span is_ident t) as [k s2]. destruct k as [| d k].
      * rewrite Hres. reflexivity.
      * destruct (drop_quote s2) as [| c [| w rest]]; try (rewrite Hres; reflexivity).
        destruct (Ascii.eqb c ":" && is_space w); [| rewrite Hres; reflexivity].
        destruct Hres as [caps [H1 H2]]. rewrite H1. exists caps. auto.
    + rewrite (drop_quote_stops (a :: t) Ha).
      cbn [flat_map fst snd]. rewrite app_nil_r.
      match goal with
      | |- context [ Regexp.rmatch _ (a :: t) ?c ] => specialize (Hres (a :: t) c)
      end.
      destruct (span is_ident (a :: t)) as [k s2]. destruct k as [| d k].
      * rewrite Hres. reflexivity.
      * destruct (drop_quote s2) as [| c [| w rest]]; try (rewrite Hres; reflexivity).
        destruct (Ascii.eqb c ":" && is_space w); [| rewrite Hres; reflexivity].
        destruct Hres as [caps [H1 H2]]. rewrite H1. exists caps. auto.
Qed.

(** *** The value pattern *)

Lemma plus_iter_first : forall rs caps s fuel,
  length s < fuel ->
  match span (Regexp.in_class rs) s with
  | ([], _) =>
      Regexp.plus_iter (Regexp.rmatch (Regexp.RClass rs)) fuel s caps = []
  | (_, s2) =>
      exists l,
        Regexp.plus_iter (Regexp.rmatch (Regexp.RClass rs)) fuel s caps
        = (caps, s2) :: l
  end.
Proof.
  intros rs caps. induction s as [| c s IH]; intros fuel Hfuel.
  - destruct fuel; reflexivity.
  - destruct fuel as [| fuel]; [cbn in Hfuel; lia |].
    rewrite plus_iter_S, rmatch_class. cbn [span].
    destruct (Regexp.in_class rs c) eqn:Hc; [| reflexivity].
    cbn [flat_map snd fst app length].
    replace (length s <? S (length s)) with true
      by (symmetry; apply Nat.ltb_lt; lia).
    rewrite app_nil_r.
    specialize (IH fuel ltac:(cbn in Hfuel; lia)).
    destruct (span (Regexp.in_class rs) s) as [k s2] eqn:Hs.
    destruct k as [| d k].
    + rewrite IH. apply span_spec in Hs. destruct Hs as [-> _].
      exists []. reflexivity.
    + destruct IH as [l IH]. rewrite IH. eexists. reflexivity.
Qed.

Lemma group_plus_first : forall rs s caps,
  match span (Regexp.in_class rs) s with
  | ([], _) => Regexp.rmatch (run_group rs) s caps = []
  | (k, s2) =>
      exists l, Regexp.rmatch (run_group rs) s caps = ((2, k) :: caps, s2) :: l
  end.
Proof.
  intros rs s caps.
  change (Regexp.rmatch (run_group rs) s caps)
    with (map (fun m : Regexp.captures * text =>
                 ((2, firstn (length s - length (snd m)) s) :: fst m, snd m))
            (Regexp.rmatch (Regexp.RSeq (Regexp.RPlus (Regexp.RClass rs)) Regexp.REmpty) s caps)).
  rewrite rmatch_seq_empty.
  change (Regexp.rmatch (Regexp.RPlus (Regexp.RClass rs)) s caps)
    with (Regexp.plus_iter (Regexp.rmatch (Regexp.RClass rs)) (S (length s)) s caps).
  pose proof (plus_iter_first rs caps s (S (length s)) ltac:(lia)) as H.
  destruct (span (Regexp.in_class rs) s) as [k s2] eqn:Hs.
  destruct k as [| d k].
  - rewrite H. reflexivity.
  - destruct H as [l H]. rewrite H. cbn [map fst snd].
    rewrite (firstn_span _ _ _ _ Hs). eexists. reflexivity.
Qed.

Lemma value_body : forall t cp,
  match span is_safe t with
  | ([], _) =>
      Regexp.rmatch
        (Regexp.RSeq (run_group safes)
           (Regexp.RSeq (opt_quote_group 3) Regexp.REmpty)) t cp = []
  | (k, s2) =>
      exists cp' l,
        Regexp.rmatch
          (Regexp.RSeq (run_group safes)
             (Regexp.RSeq (opt_quote_group 3) Regexp.REmpty)) t cp
        = (cp', drop_quote s2) :: l
        /\ Regexp.group_text cp' 2 = k
  end.
Proof.
  intros t cp. rewrite rmatch_seq.
  pose proof (group_plus_first safes t cp) as H.
  change (Regexp.in_class safes) with is_safe in H.
  destruct (span is_safe t) as [k s2]. destruct k as [| d k].
  - rewrite H. reflexivity.
  - destruct H as [l H]. rewrite H. cbn [flat_map fst snd].
    rewrite rmatch_seq_empty, opt_group_class.
    destruct s2 as [| a r].
    + eexists. eexists. split; reflexivity.
    + fold (is_quote a). destruct (is_quote a) eqn:Ha.
      * rewrite (drop_quote_quote a r Ha). eexists. eexists. split; reflexivity.
      * rewrite (drop_quote_stops (a :: r) Ha). eexists. eexists.
        split; reflexivity.
Qed.

(** The value pattern matches at the start of [s] exactly when
    [value_match] gives a result. *)
Lemma match_here_value : forall s,
  match value_match s with
  | Some (v, rest) =>
      exists caps,
        Regexp.match_here (compiled value_pattern) s = Some (caps, rest)
        /\ Regexp.group_text caps 2 = v
  | None => Regexp.match_here (compiled value_pattern) s = None
  end.
Proof.
  intro s. rewrite compiled_value_pattern. unfold Regexp.match_here, value_match.
  destruct s as [| c [| b s0]]; try reflexivity.
  - rewrite rmatch_seq, rmatch_char. destruct (Ascii.eqb ":" c); reflexivity.
  - rewrite rmatch_seq, rmatch_char, (Ascii.eqb_sym ":" c).
    destruct (Ascii.eqb c ":"); [| reflexivity].
    cbn [flat_map fst snd andb]. rewrite app_nil_r.
    rewrite rmatch_seq, rmatch_char, (Ascii.eqb_sym " " b).
    destruct (Ascii.eqb b " "); [| reflexivity].
    cbn [flat_map fst snd]. rewrite app_nil_r.
    rewrite rmatch_seq, opt_group_class.
    destruct s0 as [| a t].
    + cbn [flat_map fst snd drop_quote]. rewrite app_nil_r.
      match goal with
      | |- context [ Regexp.rmatch _ [] ?c ] => pose proof (value_body [] c) as H
      end.
      cbn [span] in *. rewrite H. reflexivity.
    + fold (is_quote a). destruct (is_quote a) eqn:Ha.
      * rewrite (drop_quote_quote a t Ha). cbn [flat_map fst snd].
        rewrite app_nil_r.
        match goal with
        | |- context [ Regexp.rmatch ?r (a :: t) ?c ] =>
            assert (Hz : Regexp.rmatch r (a :: t) c = [])
        end.
        { match goal with
          | |- Regexp.rmatch _ _ ?c = _ => pose proof (value_body (a :: t) c) as H
          end.
          cbn [span] in H. assert (Hs : is_safe a = false) by (cls a).
          rewrite Hs in H. exact H. }
        rewrite Hz, app_nil_r.
        match goal with
        | |- context [ Regexp.rmatch _ t ?c ] => pose proof (value_body t c) as H
        end.
        destruct (span is_safe t) as [k s2]. destruct k as [| d k].
        -- rewrite H. reflexivity.
        -- destruct H as [cp' [l [H1 H2]]]. rewrite H1. exists cp'. auto.
      * rewrite (drop_quote_stops (a :: t) Ha). cbn [flat_map fst snd].
        rewrite app_nil_r.
        match goal with
        | |- context [ Regexp.rmatch _ (a :: t) ?c ] =>
            pose proof (value_body (a :: t) c) as H
        end.
        destruct (span is_safe (a :: t)) as [k s2]. destruct k as [| d k].
        -- rewrite H. reflexivity.
        -- destruct H as [cp' [l [H1 H2]]]. rewrite H1. exists cp'. auto.
Qed.

(** *** The number pattern *)

Lemma number_tail : forall t cp,
  match
    match drop_quote t with
    | e :: r => if Ascii.eqb e "," then Some r else None
    | [] => None
    end
  with
  | Some r =>
      exists cp',
        Regexp.rmatch number_end t cp = [ (cp', r) ]
        /\ Regexp.group_text cp' 2 = Regexp.group_text cp 2
  | None => Regexp.rmatch number_end t cp = []
  end.
Proof.
  intros t cp. rewrite rmatch_seq, group_opt_class.
  assert (CS : forall u cq,
    Regexp.rmatch (Regexp.RSeq (Regexp.RChar ",") Regexp.REmpty) u cq
    = match u with
      | e :: r => if Ascii.eqb e "," then [ (cq, r) ] else []
      | [] => []
      end).
  { intros u cq. rewrite rmatch_seq_empty. destruct u as [| e r]; [reflexivity |].
    rewrite rmatch_char, (Ascii.eqb_sym "," e). reflexivity. }
  destruct t as [| a t].
  - cbn [flat_map fst snd drop_quote]. rewrite CS. reflexivity.
  - rewrite quote_swap. destruct (is_quote a) eqn:Ha.
    + rewrite (drop_quote_quote a t Ha). cbn [flat_map fst snd]. rewrite !CS.
      assert (Hc : Ascii.eqb a "," = false) by (cls a).
      rewrite Hc, app_nil_r.
      destruct t as [| e r]; [reflexivity |].
      destruct (Ascii.eqb e ","); [| reflexivity].
      eexists. split; reflexivity.
    + rewrite (drop_quote_stops (a :: t) Ha). cbn [flat_map fst snd].
      rewrite CS, app_nil_r.
      destruct (Ascii.eqb a ","); [| reflexivity].
      eexists. split; reflexivity.
Qed.

Lemma number_tail_numeric : forall c s cp,
  is_numeric c = true -> Regexp.rmatch number_end (c :: s) cp = [].
Proof.
  intros c s cp Hc. pose proof (number_tail (c :: s) cp) as H.
  assert (Hq : is_quote c = false) by (cls c).
  assert (Hn : Ascii.eqb c "," = false) by (cls c).
  rewrite (drop_quote_stops (c :: s) Hq), Hn in H. exact H.
Qed.

Lemma number_body : forall t cp,
  Regexp.rmatch (Regexp.RSeq (run_group numerics) number_end) t cp
  = match span is_numeric t with
    | ([], _) => []
    | (k, s2) => Regexp.rmatch number_end s2 ((2, k) :: cp)
    end.
Proof.
  intros t cp. rewrite rmatch_seq.
  rewrite (group_plus_class 2 numerics _
             (fun m : Regexp.captures * text =>
                Regexp.rmatch number_end (snd m) (fst m))).
  - reflexivity.
  - intros c s' cq Hc. cbn [fst snd]. apply number_tail_numeric. exact Hc.
Qed.

(** The number pattern matches at the start of [s] exactly when
    [number_match] gives a result. *)
Lemma match_here_number : forall s,
  match number_match s with
  | Some (d, rest) =>
      exists caps,
        Regexp.match_here (compiled number_pattern) s = Some (caps, rest)
        /\ Regexp.group_text caps 2 = d
  | None => Regexp.match_here (compiled number_pattern) s = None
  end.
Proof.
  intro s. rewrite compiled_number_pattern.
  unfold Regexp.match_here, number_match.
  assert (Hres : forall t cp,
    match
      (let (d, s2) := span is_numeric t in
       match d with
       | [] => None
       | _ :: _ =>
           match drop_quote s2 with
           | e :: rest => if Ascii.eqb e "," then Some (d, rest) else None
           | [] => None
           end
       end)
    with
    | Some (d, rest) =>
        exists caps,
          Regexp.rmatch (Regexp.RSeq (run_group numerics) number_end) t cp
          = [ (caps, rest) ]
          /\ Regexp.group_text caps 2 = d
    | None =>
        Regexp.rmatch (Regexp.RSeq (run_group numerics) number_end) t cp = []
    end).
  { intros t cp. rewrite number_body.
    destruct (span is_numeric t) as [k s2]. destruct k as [| d k]; [reflexivity |].
    pose proof (number_tail s2 ((2, d :: k) :: cp)) as H.
    destruct (drop_quote s2) as [| e rest]; try exact H.
    destruct (Ascii.eqb e ","); [| exact H].
    destruct H as [cp' [H1 H2]]. exists cp'. split; [exact H1 |].
    rewrite H2. reflexivity. }
  destruct s as [| c [| b s0]]; try reflexivity.
  - rewrite rmatch_seq, rmatch_char. destruct (Ascii.eqb ":" c); reflexivity.
  - rewrite rmatch_seq, rmatch_char, (Ascii.eqb_sym ":" c).
    destruct (Ascii.eqb c ":"); [| reflexivity].
    cbn [flat_map fst snd andb]. rewrite app_nil_r.
    rewrite rmatch_seq, rmatch_char, (Ascii.eqb_sym " " b).
    destruct (Ascii.eqb b " "); [| reflexivity].
    cbn [flat_map fst snd]. rewrite app_nil_r.
    rewrite rmatch_seq, group_opt_class.
    destruct s0 as [| a t].
    + cbn [flat_map fst snd drop_quote]. rewrite app_nil_r.
      match goal with
      | |- context [ Regexp.rmatch _ [] ?c ] => specialize (Hres [] c)
      end.
      cbn [span] in Hres. rewrite Hres. reflexivity.
    + rewrite quote_swap. destruct (is_quote a) eqn:Ha.
      * rewrite (drop_quote_quote a t Ha). cbn [flat_map fst snd].
        rewrite app_nil_r.
        match goal with
        | |- context [ Regexp.rmatch ?r (a :: t) ?c ] =>
            assert (Hz : Regexp.rmatch r (a :: t) c = [])
        end.
        { rewrite number_body. cbn [span].
          assert (Hi : is_numeric a = false) by (cls a). rewrite Hi. reflexivity. }
        rewrite Hz, app_nil_r.
        match goal with
        | |- context [ Regexp.rmatch _ t ?c ] => specialize (Hres t c)
        end.
        destruct (span is_numeric t) as [k s2]. destruct k as [| d k].
        -- rewrite Hres. reflexivity.
        -- destruct (drop_quote s2) as [| e rest]; try (rewrite Hres; reflexivity).
           destruct (Ascii.eqb e ","); [| rewrite Hres; reflexivity].
           destruct Hres as [caps [H1 H2]]. rewrite H1. exists caps. auto.
      * rewrite (drop_quote_stops (a :: t) Ha). cbn [flat_map fst snd].
        rewrite app_nil_r.
        match goal with
        | |- context [ Regexp.rmatch _ (a :: t) ?c ] => specialize (Hres (a :: t) c)
        end.
        destruct (span is_numeric (a :: t)) as [k s2]. destruct k as [| d k].
        -- rewrite Hres. reflexivity.
        -- destruct (drop_quote s2) as [| e rest]; try (rewrite Hres; reflexivity).
           destruct (Ascii.eqb e ","); [| rewrite Hres; reflexivity].
           destruct Hres as [caps [H1 H2]]. rewrite H1. exists caps. auto.
Qed.

(** ** The shape of a match *)

Lemma drop_quote_shape : forall s,
  exists o, opt_quote o /\ s = o ++ drop_quote s
            /\ (o = [] -> stops is_quote s).
Proof.
  intros [| c s].
  - exists []. repeat split. left. reflexivity.
  - unfold drop_quote. destruct (is_quote c) eqn:Hc.
    + exists [ c ]. split; [right; exists c; auto |]. split; [reflexivity |].
      discriminate.
    + exists []. split; [left; reflexivity |]. split; [reflexivity |].
      intros _. exact Hc.
Qed.

Lemma drop_quote_app : forall o s,
  opt_quote o -> (o = [] -> stops is_quote s) -> drop_quote (o ++ s) = s.
Proof.
  intros o s [-> | [q [-> Hq]]] H.
  - apply drop_quote_stops. auto.
  - apply drop_quote_quote. exact Hq.
Qed.

Lemma key_match_shape : forall s k rest,
  key_match s = Some (k, rest) ->
  exists o1 o3 w,
    s = o1 ++ k ++ o3 ++ ":"%char :: w :: rest
    /\ k <> [] /\ all_in is_ident k /\ opt_quote o1 /\ opt_quote o3
    /\ is_space w = true.
Proof.
  intros s k rest H. unfold key_match in H.
  destruct (drop_quote_shape s) as [o1 [Ho1 [Es _]]].
  destruct (span is_ident (drop_quote s)) as [k' s2] eqn:Hs.
  apply span_spec in Hs. destruct Hs as [E2 [Hk _]].
  destruct k' as [| d k']; [discriminate |].
  destruct (drop_quote_shape s2) as [o3 [Ho3 [E3 _]]].
  destruct (drop_quote s2) as [| c [| w r]]; try discriminate.
  destruct (Ascii.eqb c ":") eqn:Hc; [| discriminate].
  destruct (is_space w) eqn:Hw; [| discriminate].
  cbn [andb] in H. injection H as <- <-.
  apply Ascii.eqb_eq in Hc. subst c.
  exists o1, o3, w. split; [| repeat split; auto; discriminate].
  rewrite Es, E2, E3. reflexivity.
Qed.

Lemma key_match_intro : forall o1 k o3 w rest,
  k <> [] -> all_in is_ident k -> opt_quote o1 -> opt_quote o3 ->
  is_space w = true ->
  key_match (o1 ++ k ++ o3 ++ ":"%char :: w :: rest) = Some (k, rest).
Proof.
  intros o1 k o3 w rest Hk Hi Ho1 Ho3 Hw. unfold key_match.
  rewrite drop_quote_app; [| exact Ho1 |].
  - rewrite span_run; [| exact Hi |].
    + destruct k as [| d k]; [contradiction |].
      rewrite drop_quote_app; [| exact Ho3 | intros _; reflexivity].
      rewrite Hw. reflexivity.
    + destruct Ho3 as [-> | [q [-> Hq]]]; cbn [app stops]; [reflexivity |].
      cls q.
  - intros _. destruct k as [| d k]; [contradiction |].
    inversion Hi; subst. cbn [app stops]. cls d.
Qed.

Lemma value_match_shape : forall s v rest,
  value_match s = Some (v, rest) ->
  exists o1 o3,
    s = ":"%char :: " "%char :: o1 ++ v ++ o3 ++ rest
    /\ v <> [] /\ all_in is_safe v /\ opt_quote o1 /\ opt_quote o3
    /\ stops is_safe (o3 ++ rest) /\ (o3 = [] -> stops is_quote rest).
Proof.
  intros s v rest H. unfold value_match in H.
  destruct s as [| c [| b s0]]; try discriminate.
  destruct (Ascii.eqb c ":") eqn:Hc; [| discriminate].
  destruct (Ascii.eqb b " ") eqn:Hb; [| discriminate].
  cbn [andb] in H. apply Ascii.eqb_eq in Hc, Hb. subst c b.
  destruct (drop_quote_shape s0) as [o1 [Ho1 [Es _]]].
  destruct (span is_safe (drop_quote s0)) as [v' s2] eqn:Hs.
  apply span_spec in Hs. destruct Hs as [E2 [Hv Hstop]].
  destruct v' as [| d v']; [discriminate |].
  injection H as <- <-.
  destruct (drop_quote_shape s2) as [o3 [Ho3 [E3 Hq]]].
  exists o1, o3. split; [rewrite Es, E2, E3 at 1; reflexivity |].
  split; [discriminate |]. split; [exact Hv |]. split; [exact Ho1 |].
  split; [exact Ho3 |]. split.
  - rewrite <- E3. exact Hstop.
  - intro Ho. subst o3. cbn [app] in E3. specialize (Hq eq_refl).
    rewrite <- E3. exact Hq.
Qed.

Lemma value_match_intro : forall o1 v o3 rest,
  v <> [] -> all_in is_safe v -> opt_quote o1 -> opt_quote o3 ->
  stops is_safe (o3 ++ rest) -> (o3 = [] -> stops is_quote rest) ->
  value_match (":"%char :: " "%char :: o1 ++ v ++ o3 ++ rest) = Some (v, rest).
Proof.
  intros o1 v o3 rest Hv Hs Ho1 Ho3 Hstop Hq. unfold value_match.
  rewrite !Ascii.eqb_refl. cbn [andb].
  rewrite drop_quote_app; [| exact Ho1 |].
  - rewrite span_run; [| exact Hs | exact Hstop].
    destruct v as [| d v]; [contradiction |].
    rewrite drop_quote_app; [reflexivity | exact Ho3 | exact Hq].
  - intros _. destruct v as [| d v]; [contradiction |].
    inversion Hs; subst. cbn [app stops]. cls d.
Qed.

Lemma number_match_shape : forall s d rest,
  number_match s = Some (d, rest) ->
  exists o1 o3,
    s = ":"%char :: " "%char :: o1 ++ d ++ o3 ++ ","%char :: rest
    /\ d <> [] /\ all_in is_numeric d /\ opt_quote o1 /\ opt_quote o3.
Proof.
  intros s d rest H. unfold number_match in H.
  destruct s as [| c [| b s0]]; try discriminate.
  destruct (Ascii.eqb c ":") eqn:Hc; [| discriminate].
  destruct (Ascii.eqb b " ") eqn:Hb; [| discriminate].
  cbn [andb] in H. apply Ascii.eqb_eq in Hc, Hb. subst c b.
  destruct (drop_quote_shape s0) as [o1 [Ho1 [Es _]]].
  destruct (span is_numeric (drop_quote s0)) as [d' s2] eqn:Hs.
  apply span_spec in Hs. destruct Hs as [E2 [Hd _]].
  destruct d' as [| x d']; [discriminate |].
  destruct (drop_quote_shape s2) as [o3 [Ho3 [E3 _]]].
  destruct (drop_quote s2) as [| e r]; [discriminate |].
  destruct (Ascii.eqb e ",") eqn:He; [| discriminate].
  injection H as <- <-. apply Ascii.eqb_eq in He. subst e.
  exists o1, o3. split; [rewrite Es, E2, E3 at 1; reflexivity |].
  repeat split; auto. discriminate.
Qed.

Lemma number_match_intro : forall o1 d o3 rest,
  d <> [] -> all_in is_numeric d -> opt_quote o1 -> opt_quote o3 ->
  number_match (":"%char :: " "%char :: o1 ++ d ++ o3 ++ ","%char :: rest)
  = Some (d, rest).
Proof.
  intros o1 d o3 rest Hd Hn Ho1 Ho3. unfold number_match.
  rewrite !Ascii.eqb_refl. cbn [andb].
  rewrite drop_quote_app; [| exact Ho1 |].
  - rewrite span_run; [| exact Hn |].
    + destruct d as [| x d]; [contradiction |].
      rewrite drop_quote_app; [| exact Ho3 | intros _; reflexivity].
      reflexivity.
    + destruct Ho3 as [-> | [q [-> Hq]]]; cbn [app stops]; [reflexivity |].
      cls q.
  - intros _. destruct d as [| x d]; [contradiction |].
    inversion Hn; subst. cbn [app stops]. cls x.
Qed.

(** ** The scan of [ReplaceAllString] *)

Lemma replace_scan_skip : forall re repl s n,
  Regexp.replace_scan re repl n s = Regexp.replace_scan re repl 0 (skipn n s).
Proof.
  intros re repl. induction s as [| c s IH]; intros n.
  - destruct n; reflexivity.
  - destruct n as [| n]; [reflexivity |].
    cbn [Regexp.replace_scan skipn]. apply IH.
Qed.

Lemma replace_scan_copy : forall re repl c s,
  Regexp.match_here re (c :: s) = None ->
  Regexp.replace_scan re repl 0 (c :: s)
  = c :: Regexp.replace_scan re repl 0 s.
Proof.
  intros re repl c s H. cbn [Regexp.replace_scan]. rewrite H. reflexivity.
Qed.

Lemma replace_scan_step : forall re repl s caps p rest,
  Regexp.match_here re s = Some (caps, rest) ->
  s = p ++ rest -> p <> [] ->
  Regexp.replace_scan re repl 0 s
  = Regexp.expand repl caps ++ Regexp.replace_scan re repl 0 rest.
Proof.
  intros re repl s caps p rest H E Hp.
  destruct p as [| c p]; [contradiction |]. subst s.
  cbn [app Regexp.replace_scan]. cbn [app] in H. rewrite H.
  cbn [length]. rewrite length_app.
  replace (S (length p + length rest) - length rest) with (S (length p)) by lia.
  rewrite replace_scan_skip, skipn_app, skipn_all, Nat.sub_diag.
  reflexivity.
Qed.

Lemma key_text_nil : key_text [] = [].
Proof. reflexivity. Qed.

Lemma value_text_nil : value_text [] = [].
Proof. reflexivity. Qed.

Lemma number_text_nil : number_text [] = [].
Proof. reflexivity. Qed.

Lemma key_text_copy : forall c s,
  key_match (c :: s) = None -> key_text (c :: s) = c :: key_text s.
Proof.
  intros c s H. unfold key_text, Regexp.ReplaceAllString.
  apply replace_scan_copy. pose proof (match_here_key (c :: s)) as M.
  rewrite H in M. exact M.
Qed.

Lemma key_text_step : forall s k rest,
  key_match s = Some (k, rest) ->
  key_text s = dq :: k ++ dq :: ":"%char :: " "%char :: key_text rest.
Proof.
  intros s k rest H. unfold key_text, Regexp.ReplaceAllString.
  pose proof (match_here_key s) as M. rewrite H in M.
  destruct M as [caps [M Hg]].
  destruct (key_match_shape s k rest H) as [o1 [o3 [w [E [Hk _]]]]].
  rewrite (replace_scan_step _ _ s caps (o1 ++ k ++ o3 ++ [ ":"%char; w ]) rest M).
  - change (Regexp.expand (bq "`$2`: ") caps)
      with (dq :: Regexp.group_text caps 2 ++ [ dq; ":"%char; " "%char ]).
    rewrite Hg. cbn [app]. rewrite <- app_assoc. reflexivity.
  - rewrite E. rewrite <- !app_assoc. reflexivity.
  - destruct o1; [destruct k; [contradiction | discriminate] | discriminate].
Qed.

Lemma value_text_copy : forall c s,
  value_match (c :: s) = None -> value_text (c :: s) = c :: value_text s.
Proof.
  intros c s H. unfold value_text, Regexp.ReplaceAllString.
  apply replace_scan_copy. pose proof (match_here_value (c :: s)) as M.
  rewrite H in M. exact M.
Qed.

Lemma value_text_step : forall s v rest,
  value_match s = Some (v, rest) ->
  value_text s = ":"%char :: " "%char :: dq :: v ++ dq :: value_text rest.
Proof.
  intros s v rest H. unfold value_text, Regexp.ReplaceAllString.
  pose proof (match_here_value s) as M. rewrite H in M.
  destruct M as [caps [M Hg]].
  destruct (value_match_shape s v rest H) as [o1 [o3 [E _]]].
  rewrite (replace_scan_step _ _ s caps
             (":"%char :: " "%char :: o1 ++ v ++ o3) rest M).
  - change (Regexp.expand (bq ": `$2`") caps)
      with (":"%char :: " "%char :: dq :: Regexp.group_text caps 2 ++ [ dq ]).
    rewrite Hg. cbn [app]. rewrite <- app_assoc. reflexivity.
  - rewrite E. cbn [app]. rewrite <- !app_assoc. reflexivity.
  - discriminate.
Qed.

Lemma number_text_copy : forall c s,
  number_match (c :: s) = None -> number_text (c :: s) = c :: number_text s.
Proof.
  intros c s H. unfold number_text, Regexp.ReplaceAllString.
  apply replace_scan_copy. pose proof (match_here_number (c :: s)) as M.
  rewrite H in M. exact M.
Qed.

Lemma number_text_step : forall s d rest,
  number_match s = Some (d, rest) ->
  number_text s = ":"%char :: " "%char :: d ++ ","%char :: number_text rest.
Proof.
  intros s d rest H. unfold number_text, Regexp.ReplaceAllString.
  pose proof (match_here_number s) as M. rewrite H in M.
  destruct M as [caps [M Hg]].
  destruct (number_match_shape s d rest H) as [o1 [o3 [E _]]].
  rewrite (replace_scan_step _ _ s caps
             (":"%char :: " "%char :: o1 ++ d ++ o3 ++ [ ","%char ]) rest M).
  - change (Regexp.expand (bq ": $2,") caps)
      with (":"%char :: " "%char :: Regexp.group_text caps 2 ++ [ ","%char ]).
    rewrite Hg. cbn [app]. rewrite <- app_assoc. reflexivity.
  - rewrite E. cbn [app]. rewrite <- !app_assoc. reflexivity.
  - discriminate.
Qed.

(** [parseUnquotedJSON] returns the text of the three passes. *)
Lemma parseUnquotedJSON_normalize : forall s,
  parseUnquotedJSON s = Ok (normalize s).
Proof.
  intro s. unfold parseUnquotedJSON.
  assert (H1 : Regexp.MustCompile key_pattern = Ok (compiled key_pattern))
    by (vm_compute; reflexivity).
  assert (H2 : Regexp.MustCompile value_pattern = Ok (compiled value_pattern))
    by (vm_compute; reflexivity).
  assert (H3 : Regexp.MustCompile number_pattern = Ok (compiled number_pattern))
    by (vm_compute; reflexivity).
  rewrite H1. cbn [bind]. rewrite H2. cbn [bind]. rewrite H3. reflexivity.
Qed.

(** Induction on the length of a text. *)
Lemma length_induction : forall P : text -> Prop,
  (forall s, (forall t, length t < length s -> P t) -> P s) ->
  forall s, P s.
Proof.
  intros P H s.
  assert (G : forall n t, length t < n -> P t).
  { induction n as [| n IH]; intros t Ht; [lia |].
    apply H. intros u Hu. apply IH. lia. }
  apply (G (S (length s))). lia.
Qed.

(** ** Where a match can begin *)

Lemma key_match_start : forall c s,
  is_ident c = false -> is_quote c = false -> key_match (c :: s) = None.
Proof.
  intros c s Hi Hq. unfold key_match.
  rewrite (drop_quote_stops (c :: s) Hq). cbn [span]. rewrite Hi. reflexivity.
Qed.

Lemma value_match_start : forall c s,
  c <> ":"%char -> value_match (c :: s) = None.
Proof.
  intros c s H. unfold value_match. destruct s as [| b s]; [reflexivity |].
  destruct (Ascii.eqb c ":") eqn:E; [| reflexivity].
  apply Ascii.eqb_eq in E. contradiction.
Qed.

Lemma value_match_second : forall c b s,
  b <> " "%char -> value_match (c :: b :: s) = None.
Proof.
  intros c b s H. unfold value_match.
  destruct (Ascii.eqb b " ") eqn:E.
  - apply Ascii.eqb_eq in E. contradiction.
  - rewrite andb_false_r. reflexivity.
Qed.

Lemma number_match_start : forall c s,
  c <> ":"%char -> number_match (c :: s) = None.
Proof.
  intros c s H. unfold number_match. destruct s as [| b s]; [reflexivity |].
  destruct (Ascii.eqb c ":") eqn:E; [| reflexivity].
  apply Ascii.eqb_eq in E. contradiction.
Qed.

Lemma number_match_second : forall c b s,
  b <> " "%char -> number_match (c :: b :: s) = None.
Proof.
  intros c b s H. unfold number_match.
  destruct (Ascii.eqb b " ") eqn:E.
  - apply Ascii.eqb_eq in E. contradiction.
  - rewrite andb_false_r. reflexivity.
Qed.

(** After a colon and a space the value pattern fails exactly when no
    safe character follows the optional quote. *)
Lemma value_match_colon_space : forall x,
  value_match (":"%char :: " "%char :: x) = None
  <-> stops is_safe (drop_quote x).
Proof.
  intro x. unfold value_match. rewrite !Ascii.eqb_refl. cbn [andb].
  destruct (span is_safe (drop_quote x)) as [v s2] eqn:Hs.
  pose proof (span_spec _ _ _ _ Hs) as [E [Hv Hstop]].
  destruct v as [| d v].
  - cbn [app] in E. rewrite E. split; auto.
  - split; [discriminate |]. intro H. rewrite E in H. cbn [app stops] in H.
    inversion Hv; subst. congruence.
Qed.

(** A match of the number pattern is also a place where the value
    pattern matches. *)
Lemma number_match_value : forall s d rest,
  number_match s = Some (d, rest) -> value_match s <> None.
Proof.
  intros s d rest H.
  destruct (number_match_shape s d rest H) as [o1 [o3 [E [Hd [Hn [Ho1 _]]]]]].
  subst s. intro Hv. apply value_match_colon_space in Hv.
  destruct d as [| x d]; [contradiction |]. inversion Hn; subst.
  rewrite drop_quote_app in Hv; [| exact Ho1 |].
  - cbn [app stops] in Hv. cls x.
  - intros _. cbn [app stops]. cls x.
Qed.

(** ** First characters *)

Lemma stops_hd : forall p (a b : text),
  hd_error b = hd_error a -> stops p a -> stops p b.
Proof.
  intros p [| x a] [| y b] H Hs; try discriminate; [exact I |].
  injection H as ->. exact Hs.
Qed.

Lemma value_text_hd : forall s, hd_error (value_text s) = hd_error s.
Proof.
  intros [| c s]; [reflexivity |].
  destruct (value_match (c :: s)) as [[v rest] |] eqn:H.
  - rewrite (value_text_step _ _ _ H).
    destruct (value_match_shape _ _ _ H) as [o1 [o3 [E _]]].
    rewrite E. reflexivity.
  - rewrite (value_text_copy _ _ H). reflexivity.
Qed.

Lemma number_text_hd : forall s, hd_error (number_text s) = hd_error s.
Proof.
  intros [| c s]; [reflexivity |].
  destruct (number_match (c :: s)) as [[v rest] |] eqn:H.
  - rewrite (number_text_step _ _ _ H).
    destruct (number_match_shape _ _ _ H) as [o1 [o3 [E _]]].
    rewrite E. reflexivity.
  - rewrite (number_text_copy _ _ H). reflexivity.
Qed.

(** The value pattern, where it fails, still fails when the text after
    the first character goes through a pass that keeps first characters. *)
Lemma value_match_None_pass : forall f : text -> text,
  (forall s, hd_error (f s) = hd_error s) ->
  (forall c s, c <> ":"%char -> f (c :: s) = c :: f s) ->
  f [] = [] ->
  forall c t, value_match (c :: t) = None -> value_match (c :: f t) = None.
Proof.
  intros f Hhd Hcopy Hnil c t H.
  destruct (ascii_dec c ":") as [-> | Hc]; [| apply value_match_start; exact Hc].
  destruct t as [| b t]; [rewrite Hnil; reflexivity |].
  destruct (ascii_dec b " ") as [-> | Hb].
  - rewrite Hcopy by discriminate.
    apply value_match_colon_space in H. apply value_match_colon_space.
    destruct t as [| a t]; [rewrite Hnil; exact I |].
    destruct (is_quote a) eqn:Ha.
    + assert (Hne : a <> ":"%char) by (intro; subst; discriminate).
      rewrite Hcopy by exact Hne.
      rewrite (drop_quote_quote a (f t) Ha).
      rewrite (drop_quote_quote a t Ha) in H.
      eapply stops_hd; [apply Hhd | exact H].
    + rewrite (drop_quote_stops (a :: t) Ha) in H.
      assert (Hs : stops is_quote (f (a :: t))).
      { eapply stops_hd; [apply Hhd | exact Ha]. }
      rewrite (drop_quote_stops _ Hs).
      eapply stops_hd; [apply Hhd | exact H].
  - pose proof (Hhd (b :: t)) as Hb'.
    destruct (f (b :: t)) as [| b' u]; [reflexivity |].
    injection Hb' as ->. apply value_match_second. exact Hb.
Qed.

Lemma value_text_copy_start : forall c s,
  c <> ":"%char -> value_text (c :: s) = c :: value_text s.
Proof. intros c s H. apply value_text_copy, value_match_start, H. Qed.

Lemma number_text_copy_start : forall c s,
  c <> ":"%char -> number_text (c :: s) = c :: number_text s.
Proof. intros c s H. apply number_text_copy, number_match_start, H. Qed.

(** ** The value pass applied twice *)

Lemma step_shorter : forall (p rest : text), p <> [] ->
  length rest < length (p ++ rest).
Proof.
  intros p rest H. rewrite length_app. destruct p; [contradiction | cbn; lia].
Qed.

Lemma value_match_shorter : forall s v rest,
  value_match s = Some (v, rest) -> length rest < length s.
Proof.
  intros s v rest H.
  destruct (value_match_shape _ _ _ H) as [o1 [o3 [E _]]]. subst s.
  cbn [length]. rewrite !length_app. lia.
Qed.

Lemma number_match_shorter : forall s v rest,
  number_match s = Some (v, rest) -> length rest < length s.
Proof.
  intros s v rest H.
  destruct (number_match_shape _ _ _ H) as [o1 [o3 [E _]]]. subst s.
  cbn [length]. rewrite !length_app. cbn [length]. lia.
Qed.

Lemma key_match_shorter : forall s v rest,
  key_match s = Some (v, rest) -> length rest < length s.
Proof.
  intros s v rest H.
  destruct (key_match_shape _ _ _ H) as [o1 [o3 [w [E _]]]]. subst s.
  rewrite !length_app. cbn [length]. lia.
Qed.

(** The value pattern matches the text it has written, quotes included. *)
Lemma value_match_written : forall v rest,
  v <> [] -> all_in is_safe v ->
  value_match (":"%char :: " "%char :: dq :: v ++ dq :: rest) = Some (v, rest).
Proof.
  intros v rest Hv Hs.
  apply (value_match_intro [ dq ] v [ dq ] rest); auto.
  - right. exists dq. split; reflexivity.
  - right. exists dq. split; reflexivity.
  - reflexivity.
  - discriminate.
Qed.

Lemma value_text_idempotent : forall s, value_text (value_text s) = value_text s.
Proof.
  induction s as [s IH] using length_induction.
  destruct s as [| c s]; [reflexivity |].
  destruct (value_match (c :: s)) as [[v rest] |] eqn:H.
  - rewrite (value_text_step _ _ _ H).
    destruct (value_match_shape _ _ _ H) as [o1 [o3 [E [Hv [Hs _]]]]].
    rewrite (value_text_step _ v (value_text rest)
               (value_match_written v _ Hv Hs)).
    rewrite (IH rest (value_match_shorter _ _ _ H)). reflexivity.
  - rewrite (value_text_copy _ _ H).
    rewrite value_text_copy.
    + rewrite (IH s) by (cbn; lia). reflexivity.
    + apply (value_match_None_pass value_text value_text_hd
               value_text_copy_start value_text_nil). exact H.
Qed.

(** ** The value pass after the number pass *)

Lemma number_text_skip : forall s x y,
  (forall c, In c s -> c <> " "%char) -> x <> " "%char ->
  number_text (s ++ x :: y) = s ++ number_text (x :: y).
Proof.
  induction s as [| c s IH]; intros x y Hs Hx; [reflexivity |].
  cbn [app]. rewrite number_text_copy.
  - rewrite IH; [reflexivity | | exact Hx].
    intros d Hd. apply Hs. right. exact Hd.
  - destruct s as [| b s]; cbn [app].
    + apply number_match_second. exact Hx.
    + apply number_match_second. apply Hs. right. left. reflexivity.
Qed.

Lemma safe_not_blank : forall v c,
  all_in is_safe v -> In c v -> c <> " "%char.
Proof.
  intros v c Hv Hc E. subst c. unfold all_in in Hv.
  rewrite Forall_forall in Hv. specialize (Hv _ Hc). discriminate Hv.
Qed.

(** A text the value pass leaves unchanged has, at each match, the value
    already between double quotes. *)
Lemma value_fixed_step : forall t v rest,
  value_match t = Some (v, rest) -> value_text t = t ->
  t = ":"%char :: " "%char :: dq :: v ++ dq :: rest /\ value_text rest = rest.
Proof.
  intros t v rest H Hfix.
  rewrite (value_text_step _ _ _ H) in Hfix.
  destruct (value_match_shape _ _ _ H)
    as [o1 [o3 [E [Hv [Hs [Ho1 [Ho3 [Hstop Hq]]]]]]]].
  rewrite E in Hfix. injection Hfix as Hfix.
  destruct v as [| x v]; [contradiction |]. inversion Hs; subst.
  destruct Ho1 as [-> | [q [-> Hq1]]].
  - cbn [app] in Hfix. injection Hfix as Hx _. subst x. discriminate.
  - cbn [app] in Hfix. injection Hfix as Hq' Hfix. subst q.
    apply app_inv_head in Hfix.
    destruct Ho3 as [-> | [q [-> Hq3]]].
    + cbn [app] in Hfix. specialize (Hq eq_refl). rewrite <- Hfix in Hq.
      cbn [stops] in Hq. discriminate.
    + cbn [app] in Hfix. injection Hfix as Hq' Hfix. subst q.
      split; [reflexivity | exact Hfix].
Qed.

Lemma number_match_quoted : forall v rest d r3,
  v <> [] -> all_in is_safe v ->
  number_match (":"%char :: " "%char :: dq :: v ++ dq :: rest) = Some (d, r3) ->
  d = v /\ rest = ","%char :: r3.
Proof.
  intros v rest d r3 Hv Hs H.
  destruct (number_match_shape _ _ _ H) as [o1 [o3 [E [Hd [Hn [Ho1 Ho3]]]]]].
  injection E as E.
  destruct d as [| x d]; [contradiction |]. inversion Hn; subst.
  destruct Ho1 as [-> | [q [-> Hq1]]].
  - cbn [app] in E. injection E as Hx _. subst x. discriminate.
  - cbn [app] in E. injection E as _ E.
    assert (Hsd : all_in is_safe (x :: d)).
    { eapply all_in_impl; [| exact Hn]. apply numeric_safe. }
    destruct (run_unique is_safe v (x :: d) (dq :: rest)
                (o3 ++ ","%char :: r3) Hs Hsd) as [E1 E2].
    + reflexivity.
    + destruct Ho3 as [-> | [q3 [-> Hq3]]]; cbn [app stops]; [reflexivity |].
      cls q3.
    + exact E.
    + split; [auto |].
      destruct Ho3 as [-> | [q3 [-> Hq3]]]; cbn [app] in E2.
      * discriminate.
      * injection E2 as _ E2. exact E2.
Qed.

(** C8's second half: a text the value pass leaves unchanged is restored
    by the value pass after the number pass has unquoted its numbers. *)
Lemma value_text_number_text : forall t,
  value_text t = t -> value_text (number_text t) = t.
Proof.
  induction t as [t IH] using length_induction. intro Hfix.
  destruct t as [| c t]; [reflexivity |].
  destruct (value_match (c :: t)) as [[v rest] |] eqn:H.
  - destruct (value_fixed_step _ _ _ H Hfix) as [E Hrest].
    destruct (value_match_shape _ _ _ H) as [_ [_ [_ [Hv [Hs _]]]]].
    pose proof (value_match_shorter _ _ _ H) as Hlen.
    rewrite E in *. clear E.
    destruct (number_match (":"%char :: " "%char :: dq :: v ++ dq :: rest))
      as [[d r3] |] eqn:Hn.
    + destruct (number_match_quoted v rest d r3 Hv Hs Hn) as [-> ->].
      rewrite (number_text_step _ _ _ Hn).
      assert (Hm : value_match
                (":"%char :: " "%char :: v ++ ","%char :: number_text r3)
              = Some (v, ","%char :: number_text r3)).
      { apply (value_match_intro [] v []); auto; try (left; reflexivity);
          try reflexivity. }
      rewrite (value_text_step _ _ _ Hm).
      rewrite value_text_copy_start by discriminate.
      rewrite value_text_copy_start in Hrest by discriminate.
      injection Hrest as Hrest.
      rewrite (IH r3); [reflexivity | | exact Hrest].
      cbn [length] in *. rewrite length_app in *. cbn [length] in *. lia.
    + rewrite (number_text_copy _ _ Hn).
      rewrite number_text_copy_start by discriminate.
      change (dq :: v ++ dq :: rest) with ((dq :: v) ++ dq :: rest).
      rewrite number_text_skip.
      * rewrite number_text_copy_start by discriminate.
        cbn [app].
        rewrite (value_text_step _ v (number_text rest)
                   (value_match_written v _ Hv Hs)).
        rewrite (IH rest); [reflexivity | | exact Hrest].
        cbn [length]. rewrite length_app. cbn [length]. lia.
      * intros x [<- | Hx]; [discriminate |].
        eapply safe_not_blank; eassumption.
      * discriminate.
  - rewrite (value_text_copy _ _ H) in Hfix. injection Hfix as Hfix.
    assert (Hn : number_match (c :: t) = None).
    { destruct (number_match (c :: t)) as [[d r3] |] eqn:Hn; [| reflexivity].
      exfalso. exact (number_match_value _ _ _ Hn H). }
    rewrite (number_text_copy _ _ Hn).
    rewrite value_text_copy.
    + rewrite (IH t); [reflexivity | cbn; lia | exact Hfix].
    + apply (value_match_None_pass number_text number_text_hd
               number_text_copy_start number_text_nil). exact H.
Qed.

(** ** The key pattern, one character at a time *)

Lemma colon_not_quote : forall c, Ascii.eqb c ":" = true -> is_quote c = false.
Proof. intros c H. cls c. Qed.

Lemma colon_not_space : forall c, Ascii.eqb c ":" = true -> is_space c = false.
Proof. intros c H. cls c. Qed.

Lemma ident_not_colon : forall c, is_ident c = true -> Ascii.eqb c ":" = false.
Proof. intros c H. cls c. Qed.

Lemma ident_not_quote : forall c, is_ident c = true -> is_quote c = false.
Proof. intros c H. cls c. Qed.

Lemma ident_not_space : forall c, is_ident c = true -> is_space c = false.
Proof. intros c H. cls c. Qed.

Lemma quote_not_colon : forall c, is_quote c = true -> Ascii.eqb c ":" = false.
Proof. intros c H. cls c. Qed.

Lemma space_not_colon : forall c, is_space c = true -> Ascii.eqb c ":" = false.
Proof. intros c H. cls c. Qed.

Lemma safe_not_space : forall c, is_safe c = true -> is_space c = false.
Proof. intros c H. cls c. Qed.

Lemma safe_not_quote : forall c, is_safe c = true -> is_quote c = false.
Proof. intros c H. cls c. Qed.

Lemma key_run_AfterColon : forall b rest,
  key_run AfterColon b = Some rest ->
  exists w, b = w :: rest /\ is_space w = true.
Proof.
  intros [| w b] rest H; cbn [key_run] in H; [discriminate |].
  destruct (is_space w) eqn:Hw; [| discriminate].
  injection H as <-. exists w. auto.
Qed.

Lemma key_run_AfterClose : forall b rest,
  key_run AfterClose b = Some rest ->
  exists w, b = ":"%char :: w :: rest /\ is_space w = true.
Proof.
  intros [| c b] rest H; cbn [key_run] in H; [discriminate |].
  destruct (Ascii.eqb c ":") eqn:Hc; [| discriminate].
  apply Ascii.eqb_eq in Hc. subst c.
  destruct (key_run_AfterColon _ _ H) as [w [-> Hw]]. exists w. auto.
Qed.

(** The name state reads the run of name characters and what ends a
    match. *)
Lemma key_run_InName : forall t,
  key_run InName t
  = let (k, s2) := span is_ident t in
    match drop_quote s2 with
    | c :: w :: rest =>
        if Ascii.eqb c ":" && is_space w then Some rest else None
    | _ => None
    end.
Proof.
  induction t as [| c t IH]; [reflexivity |].
  cbn [key_run span]. destruct (is_ident c) eqn:Hi.
  - rewrite IH. destruct (span is_ident t) as [k s2]. reflexivity.
  - destruct (is_quote c) eqn:Hq.
    + rewrite (drop_quote_quote c t Hq).
      destruct t as [| d [| w t]]; cbn [key_run]; try reflexivity.
      * destruct (Ascii.eqb d ":"); reflexivity.
      * destruct (Ascii.eqb d ":"); [| reflexivity].
        cbn [key_run andb]. reflexivity.
    + rewrite (drop_quote_stops (c :: t) Hq).
      destruct (Ascii.eqb c ":") eqn:Hc.
      * destruct t as [| w t]; cbn [key_run andb]; reflexivity.
      * destruct t as [| w t]; cbn [andb]; reflexivity.
Qed.

Lemma key_match_run : forall s,
  key_run AtStart s
  = match key_match s with
    | Some (_, rest) => Some rest
    | None => None
    end.
Proof.
  intros [| c s]; [reflexivity |].
  unfold key_match. cbn [key_run].
  destruct (is_quote c) eqn:Hq.
  - rewrite (drop_quote_quote c s Hq).
    destruct s as [| d s]; [reflexivity |].
    cbn [key_run span]. destruct (is_ident d) eqn:Hd; [| reflexivity].
    rewrite key_run_InName. destruct (span is_ident s) as [k s2].
    destruct (drop_quote s2) as [| e [| w r]]; try reflexivity.
    destruct (Ascii.eqb e ":" && is_space w); reflexivity.
  - rewrite (drop_quote_stops (c :: s) Hq). cbn [span].
    destruct (is_ident c) eqn:Hi; [| reflexivity].
    rewrite key_run_InName. destruct (span is_ident s) as [k s2].
    destruct (drop_quote s2) as [| e [| w r]]; try reflexivity.
    destruct (Ascii.eqb e ":" && is_space w); reflexivity.
Qed.

Lemma key_match_run_None : forall s,
  key_match s = None <-> key_run AtStart s = None.
Proof.
  intro s. rewrite key_match_run.
  destruct (key_match s) as [[k r] |]; split; intro H;
    try reflexivity; discriminate.
Qed.

(** ** A match does not see what follows it *)

Lemma key_match_app : forall a b k r,
  key_match a = Some (k, r) -> key_match (a ++ b) = Some (k, r ++ b).
Proof.
  intros a b k r H.
  destruct (key_match_shape _ _ _ H) as [o1 [o3 [w [E [Hk [Hi [Ho1 [Ho3 Hw]]]]]]]].
  subst a.
  replace ((o1 ++ k ++ o3 ++ ":"%char :: w :: r) ++ b)
    with (o1 ++ k ++ o3 ++ ":"%char :: w :: (r ++ b)).
  - apply key_match_intro; assumption.
  - rewrite <- !app_assoc. reflexivity.
Qed.

Lemma key_match_app_None : forall a b,
  key_match (a ++ b) = None -> key_match a = None.
Proof.
  intros a b H. destruct (key_match a) as [[k r] |] eqn:Ha; [| reflexivity].
  rewrite (key_match_app _ b _ _ Ha) in H. discriminate.
Qed.

(** After [y], a run that goes on into [b] shows in [crosses]. *)
Lemma key_run_crosses : forall st y b rest,
  key_run st (y :: b) = Some rest ->
  crosses y b = false ->
  st = AfterColon /\ rest = b /\ is_space y = true.
Proof.
  intros st y b rest H Hc.
  destruct st; cbn [key_run] in H.
  - (* at the start *)
    destruct (is_quote y) eqn:Hq.
    + destruct b as [| z b]; cbn [key_run] in H; [discriminate |].
      destruct (is_ident z) eqn:Hz; [| discriminate].
      unfold crosses in Hc. rewrite Hz, Hq, orb_true_r in Hc. discriminate.
    + destruct (is_ident y) eqn:Hi; [| discriminate].
      destruct b as [| z b]; cbn [key_run] in H; [discriminate |].
      unfold crosses in Hc. rewrite Hi in Hc. cbn [orb andb] in Hc.
      destruct (is_ident z) eqn:Hz; [discriminate |].
      destruct (is_quote z) eqn:Hzq.
      * destruct (key_run_AfterClose _ _ H) as [w [-> Hw]].
        cbn [anchor] in Hc. rewrite Hw in Hc. discriminate.
      * destruct (Ascii.eqb z ":") eqn:Hzc; [| discriminate].
        destruct (key_run_AfterColon _ _ H) as [w [-> Hw]].
        rewrite Hw in Hc. discriminate.
  - (* after the opening quote *)
    destruct (is_ident y) eqn:Hi; [| discriminate].
    destruct b as [| z b]; cbn [key_run] in H; [discriminate |].
    unfold crosses in Hc. rewrite Hi in Hc. cbn [orb andb] in Hc.
    destruct (is_ident z) eqn:Hz; [discriminate |].
    destruct (is_quote z) eqn:Hzq.
    + destruct (key_run_AfterClose _ _ H) as [w [-> Hw]].
      cbn [anchor] in Hc. rewrite Hw in Hc. discriminate.
    + destruct (Ascii.eqb z ":") eqn:Hzc; [| discriminate].
      destruct (key_run_AfterColon _ _ H) as [w [-> Hw]].
      rewrite Hw in Hc. discriminate.
  - (* in the name *)
    destruct (is_ident y) eqn:Hi.
    + destruct b as [| z b]; cbn [key_run] in H; [discriminate |].
      unfold crosses in Hc. rewrite Hi in Hc. cbn [orb andb] in Hc.
      destruct (is_ident z) eqn:Hz; [discriminate |].
      destruct (is_quote z) eqn:Hzq.
      * destruct (key_run_AfterClose _ _ H) as [w [-> Hw]].
        cbn [anchor] in Hc. rewrite Hw in Hc. discriminate.
      * destruct (Ascii.eqb z ":") eqn:Hzc; [| discriminate].
        destruct (key_run_AfterColon _ _ H) as [w [-> Hw]].
        rewrite Hw in Hc. discriminate.
    + destruct (is_quote y) eqn:Hq.
      * destruct (key_run_AfterClose _ _ H) as [w [-> Hw]].
        unfold crosses in Hc. cbn [Ascii.eqb] in Hc.
        change (is_ident ":") with false in Hc.
        change (is_quote ":") with false in Hc.
        change (Ascii.eqb ":" ":") with true in Hc.
        rewrite Hq, Hw, orb_true_r in Hc. discriminate.
      * destruct (Ascii.eqb y ":") eqn:Hy; [| discriminate].
        destruct (key_run_AfterColon _ _ H) as [w [-> Hw]].
        unfold crosses in Hc.
        rewrite (space_not_ident _ Hw), (space_not_quote _ Hw),
          (space_not_colon _ Hw), Hw, Hy in Hc. discriminate.
  - (* after the closing quote *)
    destruct (Ascii.eqb y ":") eqn:Hy; [| discriminate].
    destruct (key_run_AfterColon _ _ H) as [w [-> Hw]].
    unfold crosses in Hc.
    rewrite (space_not_ident _ Hw), (space_not_quote _ Hw),
      (space_not_colon _ Hw), Hw, Hy in Hc. discriminate.
  - (* after the colon *)
    destruct (is_space y) eqn:Hy; [| discriminate].
    injection H as <-. auto.
Qed.

Lemma key_run_cut : forall a st y b rest,
  crosses y b = false ->
  key_run st (a ++ y :: b) = Some rest ->
  exists r, key_run st (a ++ [ y ]) = Some r /\ rest = r ++ b.
Proof.
  induction a as [| c a IH]; intros st y b rest Hc H.
  - cbn [app] in *.
    destruct (key_run_crosses _ _ _ _ H Hc) as [-> [-> Hy]].
    exists []. cbn [key_run]. rewrite Hy. auto.
  - cbn [app] in *. destruct st; cbn [key_run] in *.
    + destruct (is_quote c); [apply IH; assumption |].
      destruct (is_ident c); [apply IH; assumption | discriminate].
    + destruct (is_ident c); [apply IH; assumption | discriminate].
    + destruct (is_ident c); [apply IH; assumption |].
      destruct (is_quote c); [apply IH; assumption |].
      destruct (Ascii.eqb c ":"); [apply IH; assumption | discriminate].
    + destruct (Ascii.eqb c ":"); [apply IH; assumption | discriminate].
    + destruct (is_space c); [| discriminate].
      injection H as <-. exists (a ++ [ y ]). split; [reflexivity |].
      rewrite <- app_assoc. reflexivity.
Qed.

Lemma cut_last : forall a y b, crosses y b = false -> cut (a ++ [ y ]) b.
Proof.
  intros a y b H a' y' E. apply app_inj_tail in E. destruct E as [_ <-].
  exact H.
Qed.

Lemma cut_suffix : forall p r b, cut (p ++ r) b -> cut r b.
Proof.
  intros p r b H a y ->. apply (H (p ++ a) y). rewrite app_assoc. reflexivity.
Qed.

Lemma cut_nil : forall b, cut [] b.
Proof. intros b [| c a] y E; discriminate. Qed.

Lemma key_match_cut : forall s b k rest,
  cut s b -> s <> [] ->
  key_match (s ++ b) = Some (k, rest) ->
  exists r, key_match s = Some (k, r) /\ rest = r ++ b.
Proof.
  intros s b k rest Hcut Hs H.
  destruct (exists_last Hs) as [a [y ->]].
  pose proof (key_match_run ((a ++ [ y ]) ++ b)) as Hr. rewrite H in Hr.
  rewrite <- app_assoc in Hr. cbn [app] in Hr.
  destruct (key_run_cut a AtStart y b rest (Hcut a y eq_refl) Hr)
    as [r [Hr' ->]].
  rewrite key_match_run in Hr'.
  destruct (key_match (a ++ [ y ])) as [[k' r'] |] eqn:Hm; [| discriminate].
  injection Hr' as ->.
  rewrite (key_match_app _ b _ _ Hm) in H. injection H as ->.
  exists r. auto.
Qed.

(** ** The key pass on two texts side by side *)

Lemma key_text_app : forall s b,
  cut s b -> key_text (s ++ b) = key_text s ++ key_text b.
Proof.
  induction s as [s IH] using length_induction. intros b Hcut.
  destruct s as [| c s]; [rewrite key_text_nil; reflexivity |].
  destruct (key_match ((c :: s) ++ b)) as [[k rest] |] eqn:H.
  - destruct (key_match_cut _ _ _ _ Hcut ltac:(discriminate) H) as [r [Hm ->]].
    rewrite (key_text_step _ _ _ H), (key_text_step _ _ _ Hm).
    rewrite (IH r).
    + cbn [app]. rewrite <- app_assoc. reflexivity.
    + exact (key_match_shorter _ _ _ Hm).
    + destruct (key_match_shape _ _ _ Hm) as [o1 [o3 [w [E _]]]].
      rewrite E in Hcut.
      apply (cut_suffix (o1 ++ k ++ o3 ++ [ ":"%char; w ])).
      rewrite <- !app_assoc. exact Hcut.
  - pose proof (key_match_app_None _ _ H) as Hm.
    cbn [app] in *. rewrite (key_text_copy _ _ H), (key_text_copy _ _ Hm).
    rewrite (IH s); [reflexivity | cbn; lia |].
    apply (cut_suffix [ c ]). exact Hcut.
Qed.

Lemma opt_quote_length : forall o, opt_quote o -> length o <= 1.
Proof. intros o [-> | [q [-> _]]]; cbn; lia. Qed.

Lemma key_text_length : forall s : text, length s <= length (key_text s).
Proof.
  induction s as [s IH] using length_induction.
  destruct s as [| c s]; [cbn; lia |].
  destruct (key_match (c :: s)) as [[k rest] |] eqn:H.
  - rewrite (key_text_step _ _ _ H).
    pose proof (IH rest (key_match_shorter _ _ _ H)) as Hr.
    destruct (key_match_shape _ _ _ H) as [o1 [o3 [w [E [_ [_ [Ho1 [Ho3 _]]]]]]]].
    rewrite E. apply opt_quote_length in Ho1, Ho3.
    repeat first [rewrite length_app | progress cbn [length]]. lia.
  - rewrite (key_text_copy _ _ H). cbn [length].
    pose proof (IH s ltac:(cbn; lia)). lia.
Qed.

Lemma app_eq_length : forall (a b c d : text),
  a ++ b = c ++ d -> length a = length c -> a = c /\ b = d.
Proof.
  induction a as [| x a IH]; intros b [| y c] d E L; try discriminate.
  - auto.
  - cbn in E. injection E as -> E. cbn in L.
    destruct (IH b c d E ltac:(lia)) as [-> ->]. auto.
Qed.

Lemma key_fixed_app : forall s b,
  cut s b -> (key_fixed (s ++ b) <-> key_fixed s /\ key_fixed b).
Proof.
  intros s b Hcut. unfold key_fixed. rewrite (key_text_app _ _ Hcut). split.
  - intro H. apply app_eq_length; [exact H |].
    pose proof (key_text_length s). pose proof (key_text_length b).
    apply (f_equal (@length ascii)) in H. rewrite !length_app in H. lia.
  - intros [-> ->]. reflexivity.
Qed.

Lemma key_fixed_cons : forall c s,
  is_ident c = false -> is_quote c = false ->
  (key_fixed (c :: s) <-> key_fixed s).
Proof.
  intros c s Hi Hq. unfold key_fixed.
  rewrite (key_text_copy _ _ (key_match_start c s Hi Hq)). split.
  - intro H. injection H as H. exact H.
  - intros ->. reflexivity.
Qed.

(** A text without white space has no match at all. *)
Lemma key_match_space : forall s k rest,
  key_match s = Some (k, rest) -> ~ no_space s.
Proof.
  intros s k rest H Hn.
  destruct (key_match_shape _ _ _ H) as [o1 [o3 [w [E [_ [_ [_ [_ Hw]]]]]]]].
  subst s. unfold no_space in Hn. rewrite Forall_forall in Hn.
  assert (Hin : In w (o1 ++ k ++ o3 ++ ":"%char :: w :: rest)).
  { apply in_or_app. right. apply in_or_app. right. apply in_or_app. right.
    right. left. reflexivity. }
  apply Hn in Hin. congruence.
Qed.

Lemma no_space_fixed : forall s, no_space s -> key_fixed s.
Proof.
  induction s as [| c s IH]; intro H; [apply key_text_nil |].
  unfold key_fixed. rewrite key_text_copy.
  - inversion H; subst. rewrite (IH ltac:(assumption)). reflexivity.
  - destruct (key_match (c :: s)) as [[k r] |] eqn:Hm; [| reflexivity].
    exfalso. exact (key_match_space _ _ _ Hm H).
Qed.

(** ** The key pass applied twice *)

Lemma key_run_key_text : forall s st rest,
  st <> AtStart -> key_run st (key_text s) = Some rest ->
  key_run st s <> None.
Proof.
  induction s as [s IH] using length_induction. intros st rest Hst H.
  destruct s as [| c s]; [rewrite key_text_nil in H; discriminate |].
  destruct (key_match (c :: s)) as [[k r] |] eqn:Hm.
  - exfalso. rewrite (key_text_step _ _ _ Hm) in H.
    destruct (key_match_shape _ _ _ Hm) as [_ [_ [_ [_ [Hk [Hi _]]]]]].
    destruct k as [| i k]; [contradiction |]. inversion Hi; subst.
    destruct st; cbn [key_run app] in H; try contradiction.
    + change (is_ident dq) with false in H. discriminate.
    + change (is_ident dq) with false in H.
      change (is_quote dq) with true in H. cbn [key_run app] in H.
      rewrite (ident_not_colon i) in H by assumption. discriminate.
    + change (Ascii.eqb dq ":") with false in H. discriminate.
    + change (is_space dq) with false in H. discriminate.
  - rewrite (key_text_copy _ _ Hm) in H.
    assert (Hlt : length s < length (c :: s)) by (cbn; lia).
    destruct st; cbn [key_run] in *; try contradiction.
    + destruct (is_ident c); [| discriminate].
      apply (IH s Hlt InName rest); [discriminate | exact H].
    + destruct (is_ident c);
        [apply (IH s Hlt InName rest); [discriminate | exact H] |].
      destruct (is_quote c);
        [apply (IH s Hlt AfterClose rest); [discriminate | exact H] |].
      destruct (Ascii.eqb c ":"); [| discriminate].
      apply (IH s Hlt AfterColon rest); [discriminate | exact H].
    + destruct (Ascii.eqb c ":"); [| discriminate].
      apply (IH s Hlt AfterColon rest); [discriminate | exact H].
    + destruct (is_space c); discriminate.
Qed.

(** Where the key pattern fails it still fails when the key pass has
    gone over the text after the first character. *)
Lemma key_match_None_key_text : forall c s,
  key_match (c :: s) = None -> key_match (c :: key_text s) = None.
Proof.
  intros c s H. apply key_match_run_None in H. apply key_match_run_None.
  destruct (key_run AtStart (c :: key_text s)) as [r |] eqn:Hr;
    [| reflexivity].
  exfalso. cbn [key_run] in H, Hr.
  destruct (is_quote c).
  - exact (key_run_key_text s AfterOpen r ltac:(discriminate) Hr H).
  - destruct (is_ident c); [| discriminate].
    exact (key_run_key_text s InName r ltac:(discriminate) Hr H).
Qed.

Lemma key_match_written : forall k rest,
  k <> [] -> all_in is_ident k ->
  key_match (dq :: k ++ dq :: ":"%char :: " "%char :: rest) = Some (k, rest).
Proof.
  intros k rest Hk Hi.
  apply (key_match_intro [ dq ] k [ dq ] " "%char rest); auto.
  - right. exists dq. split; reflexivity.
  - right. exists dq. split; reflexivity.
Qed.

Lemma key_text_idempotent : forall s, key_text (key_text s) = key_text s.
Proof.
  induction s as [s IH] using length_induction.
  destruct s as [| c s]; [reflexivity |].
  destruct (key_match (c :: s)) as [[k rest] |] eqn:H.
  - rewrite (key_text_step _ _ _ H).
    destruct (key_match_shape _ _ _ H) as [_ [_ [_ [_ [Hk [Hi _]]]]]].
    rewrite (key_text_step _ k (key_text rest) (key_match_written k _ Hk Hi)).
    rewrite (IH rest (key_match_shorter _ _ _ H)). reflexivity.
  - rewrite (key_text_copy _ _ H).
    rewrite (key_text_copy _ _ (key_match_None_key_text _ _ H)).
    rewrite (IH s) by (cbn; lia). reflexivity.
Qed.

(** ** Where the key pass can be cut *)

Lemma crosses_inert : forall y b,
  is_ident y = false -> is_quote y = false -> Ascii.eqb y ":" = false ->
  crosses y b = false.
Proof.
  intros y [| z b] Hi Hq Hc; [reflexivity |]. unfold crosses.
  rewrite Hi, Hq, Hc. cbn [orb andb].
  destruct (is_ident z), (is_quote z), (Ascii.eqb z ":"), (is_space z);
    reflexivity.
Qed.

Lemma crosses_space : forall y b, is_space y = true -> crosses y b = false.
Proof.
  intros y b H. apply crosses_inert.
  - apply space_not_ident, H.
  - apply space_not_quote, H.
  - apply space_not_colon, H.
Qed.

Lemma crosses_sep : forall y z b,
  is_ident z = false -> is_quote z = false -> Ascii.eqb z ":" = false ->
  (is_space z = true -> Ascii.eqb y ":" = false) ->
  crosses y (z :: b) = false.
Proof.
  intros y z b Hi Hq Hc Hs. unfold crosses. rewrite Hi, Hq, Hc.
  destruct (is_space z); auto.
Qed.

Lemma crosses_quote : forall y z b,
  is_quote z = true -> is_ident y = false \/ anchor b = false ->
  crosses y (z :: b) = false.
Proof.
  intros y z b Hq H. unfold crosses.
  rewrite (quote_not_ident _ Hq), Hq.
  destruct H as [-> | ->]; [reflexivity | apply andb_false_r].
Qed.

Lemma crosses_ident : forall y z b,
  is_ident y = false -> is_quote y = false -> is_ident z = true ->
  crosses y (z :: b) = false.
Proof.
  intros y z b Hi Hq Hz. unfold crosses. rewrite Hz, Hi, Hq. reflexivity.
Qed.

(** ** Texts without white space *)

Lemma no_space_app : forall a b, no_space a -> no_space b -> no_space (a ++ b).
Proof. intros a b Ha Hb. apply Forall_app. auto. Qed.

Lemma no_space_safe : forall v, all_in is_safe v -> no_space v.
Proof.
  intros v H. eapply Forall_impl; [| exact H].
  intros c Hc. apply safe_not_space, Hc.
Qed.

Lemma no_space_numeric : forall v, all_in is_numeric v -> no_space v.
Proof.
  intros v H. apply no_space_safe. eapply all_in_impl; [| exact H].
  apply numeric_safe.
Qed.

Lemma no_space_quote : forall o, opt_quote o -> no_space o.
Proof.
  intros o [-> | [q [-> Hq]]]; [constructor |].
  constructor; [apply quote_not_space, Hq | constructor].
Qed.

Lemma no_space_one : forall c, is_space c = false -> no_space [ c ].
Proof. intros c H. constructor; [exact H | constructor]. Qed.

(** ** The run of name characters that ends a value *)

Lemma ident_suffix : forall v : text,
  exists v0 k, v = v0 ++ k /\ all_in is_ident k
    /\ (v0 = [] \/ exists v1 x, v0 = v1 ++ [ x ] /\ is_ident x = false).
Proof.
  induction v as [| c v [v0 [k [E [Hk H0]]]]].
  - exists [], []. repeat split; [constructor | left; reflexivity].
  - destruct H0 as [-> | [v1 [x [-> Hx]]]].
    + cbn [app] in E. subst v. destruct (is_ident c) eqn:Hc.
      * exists [], (c :: k). repeat split;
          [constructor; assumption | left; reflexivity].
      * exists [ c ], k. repeat split; [exact Hk |].
        right. exists [], c. auto.
    + exists (c :: v1 ++ [ x ]), k. subst v. repeat split; [exact Hk |].
      right. exists (c :: v1), x. auto.
Qed.

(** ** Quoting a value keeps the key pass fixed *)

Lemma key_match_quote : forall q q' t,
  is_quote q = true -> is_quote q' = true ->
  key_match (q :: t) = key_match (q' :: t).
Proof.
  intros q q' t Hq Hq'. unfold key_match.
  rewrite (drop_quote_quote q t Hq), (drop_quote_quote q' t Hq').
  reflexivity.
Qed.

Lemma key_match_quote_stop : forall q t,
  is_quote q = true -> stops is_ident t -> key_match (q :: t) = None.
Proof.
  intros q t Hq Ht. unfold key_match. rewrite (drop_quote_quote q t Hq).
  destruct t as [| z t]; [reflexivity |]. cbn [span]. cbn in Ht.
  rewrite Ht. reflexivity.
Qed.

(** The quote before the rest of the text may as well be a double quote. *)
Lemma key_fixed_quote : forall o3 rest,
  opt_quote o3 -> (o3 = [] -> stops is_ident rest) ->
  key_fixed (o3 ++ rest) -> key_fixed (dq :: rest).
Proof.
  intros o3 rest [-> | [q [-> Hq]]] Hstop H; cbn [app] in H.
  - unfold key_fixed in *.
    rewrite (key_text_copy _ _ (key_match_quote_stop dq rest eq_refl (Hstop eq_refl))).
    rewrite H. reflexivity.
  - unfold key_fixed in *.
    destruct (key_match (q :: rest)) as [[k r] |] eqn:Hm.
    + rewrite (key_text_step _ _ _ Hm) in H. injection H as <- H.
      rewrite (key_text_step _ _ _ Hm), H. reflexivity.
    + rewrite (key_text_copy _ _ Hm) in H. injection H as H.
      rewrite (key_match_quote q dq rest Hq eq_refl) in Hm.
      rewrite (key_text_copy _ _ Hm), H. reflexivity.
Qed.

Lemma key_fixed_colon_space : forall w, key_fixed [ ":"%char; w ].
Proof.
  intro w. unfold key_fixed.
  rewrite (key_text_copy _ _ (key_match_start ":" [ w ] eq_refl eq_refl)).
  destruct (is_space w) eqn:Hw.
  - rewrite (key_text_copy _ _
      (key_match_start w [] (space_not_ident _ Hw) (space_not_quote _ Hw))).
    reflexivity.
  - rewrite (no_space_fixed [ w ] (no_space_one w Hw)). reflexivity.
Qed.

(** A name between quotes, or after a character that ends a name, with no
    quote before it: the key pass changes the second. *)
Lemma key_fixed_bare_name : forall k q3 w,
  k <> [] -> all_in is_ident k -> is_quote q3 = true -> is_space w = true ->
  ~ key_fixed (k ++ [ q3; ":"%char; w ]).
Proof.
  intros k q3 w Hk Hi Hq Hw H. unfold key_fixed in H.
  assert (Hm : key_match (k ++ [ q3; ":"%char; w ]) = Some (k, [])).
  { apply (key_match_intro [] k [ q3 ] w []); auto.
    - left. reflexivity.
    - right. exists q3. auto. }
  rewrite (key_text_step _ _ _ Hm) in H.
  apply (f_equal (@length ascii)) in H.
  cbn [length] in H. rewrite !length_app in H. cbn [length] in H. lia.
Qed.

Lemma key_fixed_edit_anchor : forall o1 v q3 w,
  opt_quote o1 -> v <> [] -> all_in is_safe v ->
  is_quote q3 = true -> is_space w = true ->
  key_fixed (o1 ++ v ++ [ q3; ":"%char; w ]) ->
  key_fixed (dq :: v ++ [ dq; ":"%char; w ]).
Proof.
  intros o1 v q3 w Ho1 Hv Hs Hq Hw H.
  destruct (ident_suffix v) as [v0 [k [E [Hk H0]]]].
  destruct k as [| i k].
  - (* the value ends with a character that is not of a name *)
    rewrite app_nil_r in E. subst v0.
    destruct H0 as [-> | [v1 [x [-> Hx]]]]; [contradiction |].
    change (dq :: (v1 ++ [ x ]) ++ [ dq; ":"%char; w ])
      with ((dq :: v1 ++ [ x ]) ++ [ dq; ":"%char; w ]).
    apply key_fixed_app.
    + apply (cut_last (dq :: v1)). apply crosses_quote; auto.
    + split.
      * apply no_space_fixed. constructor; [reflexivity |].
        apply no_space_safe, Hs.
      * apply (key_fixed_quote []); [left; reflexivity | reflexivity |].
        apply key_fixed_colon_space.
  - destruct H0 as [-> | [v1 [x [-> Hx]]]].
    + (* the value is a name *)
      cbn [app] in E. subst v.
      assert (Hm : key_match (o1 ++ (i :: k) ++ [ q3 ] ++ [ ":"%char; w ])
                   = Some (i :: k, [])).
      { apply (key_match_intro o1 (i :: k) [ q3 ] w []); auto.
        right. exists q3. auto. }
      unfold key_fixed in H. cbn [app] in Hm, H.
      rewrite (key_text_step _ _ _ Hm) in H.
      rewrite key_text_nil in H.
      destruct Ho1 as [-> | [q [-> Hq1]]].
      * apply (f_equal (@length ascii)) in H.
        cbn [length app] in H. rewrite !length_app in H. cbn [length] in H.
        lia.
      * cbn [app] in H. injection H as _ H. apply app_inv_head in H.
        injection H as <- <-.
        unfold key_fixed.
        rewrite (key_text_step _ (i :: k) []);
          [rewrite key_text_nil; reflexivity |].
        apply (key_match_written (i :: k) []); auto.
    + (* a name after other characters of the value *)
      exfalso. subst v.
      assert (Hx' : is_quote x = false).
      { apply safe_not_quote. unfold all_in in Hs. rewrite Forall_forall in Hs.
        apply Hs. apply in_or_app. left. apply in_or_app. right. left.
        reflexivity. }
      replace (o1 ++ ((v1 ++ [ x ]) ++ i :: k) ++ [ q3; ":"%char; w ])
        with (((o1 ++ v1) ++ [ x ]) ++ ((i :: k) ++ [ q3; ":"%char; w ])) in H
        by (rewrite <- !app_assoc; reflexivity).
      apply key_fixed_app in H.
      * destruct H as [_ H].
        apply (key_fixed_bare_name (i :: k) q3 w) in H; auto.
        discriminate.
      * apply cut_last. inversion Hk; subst.
        apply crosses_ident; assumption.
Qed.

Lemma not_safe_not_ident : forall c, is_safe c = false -> is_ident c = false.
Proof. intros c H. cls c. Qed.

Lemma not_safe_not_colon : forall c,
  is_safe c = false -> Ascii.eqb c ":" = false.
Proof. intros c H. cls c. Qed.

Ltac assoc :=
  repeat first [rewrite <- app_assoc | progress cbn [app]]; reflexivity.

Lemma key_fixed_edit_plain : forall o1 v' y o3 rest,
  opt_quote o1 -> all_in is_safe (v' ++ [ y ]) -> opt_quote o3 ->
  (o3 = [] -> stops is_ident rest) ->
  crosses y (o3 ++ rest) = false -> anchor rest = false ->
  key_fixed (o1 ++ (v' ++ [ y ]) ++ o3 ++ rest) ->
  key_fixed (dq :: (v' ++ [ y ]) ++ dq :: rest).
Proof.
  intros o1 v' y o3 rest Ho1 Hs Ho3 Hstop Hc Ha H.
  replace (o1 ++ (v' ++ [ y ]) ++ o3 ++ rest)
    with (((o1 ++ v') ++ [ y ]) ++ (o3 ++ rest)) in H by assoc.
  apply key_fixed_app in H; [| apply cut_last; exact Hc].
  destruct H as [_ H]. apply key_fixed_quote in H; auto.
  change (dq :: (v' ++ [ y ]) ++ dq :: rest)
    with (((dq :: v') ++ [ y ]) ++ dq :: rest).
  apply key_fixed_app.
  - apply cut_last. apply crosses_quote; auto.
  - split; [| exact H]. apply no_space_fixed.
    constructor; [reflexivity | apply no_space_safe, Hs].
Qed.

(** The value pattern's edit: the value between double quotes instead of
    its own optional quotes.  A text the key pass leaves alone stays so. *)
Lemma key_fixed_edit : forall o1 v o3 rest,
  opt_quote o1 -> opt_quote o3 -> v <> [] -> all_in is_safe v ->
  stops is_safe (o3 ++ rest) -> (o3 = [] -> stops is_quote rest) ->
  key_fixed (o1 ++ v ++ o3 ++ rest) -> key_fixed (dq :: v ++ dq :: rest).
Proof.
  intros o1 v o3 rest Ho1 Ho3 Hv Hs Hstop Hq H.
  destruct (exists_last Hv) as [v' [y ->]].
  destruct Ho3 as [-> | [q3 [-> Hq3]]].
  - (* no closing quote *)
    cbn [app] in Hstop, H. specialize (Hq eq_refl).
    destruct rest as [| z r].
    + apply (key_fixed_edit_plain o1 v' y [] []); auto.
      left. reflexivity.
    + cbn [stops] in Hstop, Hq.
      destruct (is_space z && Ascii.eqb y ":") eqn:Hzy.
      * (* the value ends with a colon and a white space follows *)
        apply andb_true_iff in Hzy. destruct Hzy as [Hz Hy].
        apply Ascii.eqb_eq in Hy. subst y.
        replace (o1 ++ (v' ++ [ ":"%char ]) ++ z :: r)
          with (((o1 ++ v' ++ [ ":"%char ]) ++ [ z ]) ++ r) in H by assoc.
        apply key_fixed_app in H; [| apply cut_last, crosses_space, Hz].
        destruct H as [_ H].
        replace (dq :: (v' ++ [ ":"%char ]) ++ dq :: z :: r)
          with (((dq :: v' ++ [ ":"%char ]) ++ [ dq ]) ++ z :: r) by assoc.
        apply key_fixed_app.
        -- apply cut_last. apply crosses_sep.
           ++ apply space_not_ident, Hz.
           ++ apply space_not_quote, Hz.
           ++ apply space_not_colon, Hz.
           ++ intros _. reflexivity.
        -- split.
           ++ apply no_space_fixed. apply no_space_app.
              ** constructor; [reflexivity | apply no_space_safe, Hs].
              ** apply no_space_one. reflexivity.
           ++ apply key_fixed_cons; [| | exact H].
              ** apply space_not_ident, Hz.
              ** apply space_not_quote, Hz.
      * apply (key_fixed_edit_plain o1 v' y [] (z :: r)); auto.
        -- left. reflexivity.
        -- intros _. cbn [stops]. apply not_safe_not_ident, Hstop.
        -- cbn [app]. apply crosses_sep.
           ++ apply not_safe_not_ident, Hstop.
           ++ exact Hq.
           ++ apply not_safe_not_colon, Hstop.
           ++ intro Hz. rewrite Hz in Hzy. exact Hzy.
        -- cbn [anchor]. destruct r; [reflexivity |].
           rewrite (not_safe_not_colon _ Hstop). reflexivity.
  - (* a closing quote *)
    destruct (anchor rest) eqn:Ha.
    + destruct rest as [| c [| w r]]; try discriminate.
      cbn [anchor] in Ha. apply andb_true_iff in Ha. destruct Ha as [Hc Hw].
      apply Ascii.eqb_eq in Hc. subst c.
      replace (o1 ++ (v' ++ [ y ]) ++ [ q3 ] ++ ":"%char :: w :: r)
        with (((o1 ++ (v' ++ [ y ]) ++ [ q3; ":"%char ]) ++ [ w ]) ++ r)
        in H by assoc.
      apply key_fixed_app in H; [| apply cut_last, crosses_space, Hw].
      destruct H as [H Hr].
      replace ((o1 ++ (v' ++ [ y ]) ++ [ q3; ":"%char ]) ++ [ w ])
        with (o1 ++ (v' ++ [ y ]) ++ [ q3; ":"%char; w ]) in H by assoc.
      apply key_fixed_edit_anchor in H; auto.
      replace (dq :: (v' ++ [ y ]) ++ dq :: ":"%char :: w :: r)
        with (((dq :: (v' ++ [ y ]) ++ [ dq; ":"%char ]) ++ [ w ]) ++ r)
        by assoc.
      apply key_fixed_app; [apply cut_last, crosses_space, Hw |].
      split; [| exact Hr].
      replace ((dq :: (v' ++ [ y ]) ++ [ dq; ":"%char ]) ++ [ w ])
        with (dq :: (v' ++ [ y ]) ++ [ dq; ":"%char; w ]) by assoc.
      exact H.
    + apply (key_fixed_edit_plain o1 v' y [ q3 ] rest); auto.
      * right. exists q3. auto.
      * intro. discriminate.
      * cbn [app]. apply crosses_quote; auto.
Qed.

(** ** The key pass after the other two *)

Lemma key_fixed_value_text : forall t a : text,
  key_fixed (a ++ t) -> key_fixed (a ++ value_text t).
Proof.
  induction t as [t IH] using length_induction. intros a H.
  destruct t as [| c t]; [rewrite value_text_nil; exact H |].
  destruct (value_match (c :: t)) as [[v rest] |] eqn:Hm.
  - rewrite (value_text_step _ _ _ Hm).
    destruct (value_match_shape _ _ _ Hm)
      as [o1 [o3 [E [Hv [Hs [Ho1 [Ho3 [Hstop Hq]]]]]]]].
    rewrite E in H.
    replace (a ++ ":"%char :: " "%char :: o1 ++ v ++ o3 ++ rest)
      with (((a ++ [ ":"%char ]) ++ [ " "%char ]) ++ (o1 ++ v ++ o3 ++ rest))
      in H by assoc.
    apply key_fixed_app in H; [| apply cut_last, crosses_space; reflexivity].
    destruct H as [Ha Hu].
    apply key_fixed_edit in Hu; auto.
    pose proof (IH rest (value_match_shorter _ _ _ Hm) (dq :: v ++ [ dq ]))
      as IH'.
    replace ((dq :: v ++ [ dq ]) ++ rest) with (dq :: v ++ dq :: rest)
      in IH' by assoc.
    specialize (IH' Hu).
    replace (a ++ ":"%char :: " "%char :: dq :: v ++ dq :: value_text rest)
      with (((a ++ [ ":"%char ]) ++ [ " "%char ])
            ++ ((dq :: v ++ [ dq ]) ++ value_text rest)) by assoc.
    apply key_fixed_app; [apply cut_last, crosses_space; reflexivity |].
    split; assumption.
  - rewrite (value_text_copy _ _ Hm).
    replace (a ++ c :: value_text t) with ((a ++ [ c ]) ++ value_text t)
      by assoc.
    apply IH; [cbn; lia |]. rewrite <- app_assoc. exact H.
Qed.

Lemma key_fixed_number_text : forall t a : text,
  key_fixed (a ++ t) -> key_fixed (a ++ number_text t).
Proof.
  induction t as [t IH] using length_induction. intros a H.
  destruct t as [| c t]; [rewrite number_text_nil; exact H |].
  destruct (number_match (c :: t)) as [[d rest] |] eqn:Hm.
  - rewrite (number_text_step _ _ _ Hm).
    destruct (number_match_shape _ _ _ Hm)
      as [o1 [o3 [E [Hd [Hn [Ho1 Ho3]]]]]].
    rewrite E in H.
    replace (a ++ ":"%char :: " "%char :: o1 ++ d ++ o3 ++ ","%char :: rest)
      with (((a ++ [ ":"%char ]) ++ [ " "%char ])
            ++ (((o1 ++ d ++ o3) ++ [ ","%char ]) ++ rest))
      in H by assoc.
    apply key_fixed_app in H; [| apply cut_last, crosses_space; reflexivity].
    destruct H as [Ha Hu].
    apply key_fixed_app in Hu;
      [| apply cut_last, crosses_inert; reflexivity].
    destruct Hu as [_ Hr].
    pose proof (IH rest (number_match_shorter _ _ _ Hm) [] Hr) as IH'.
    cbn [app] in IH'.
    replace (a ++ ":"%char :: " "%char :: d ++ ","%char :: number_text rest)
      with (((a ++ [ ":"%char ]) ++ [ " "%char ])
            ++ ((d ++ [ ","%char ]) ++ number_text rest)) by assoc.
    apply key_fixed_app; [apply cut_last, crosses_space; reflexivity |].
    split; [exact Ha |].
    apply key_fixed_app; [apply cut_last, crosses_inert; reflexivity |].
    split; [| exact IH'].
    apply no_space_fixed. apply no_space_app.
    + apply no_space_numeric, Hn.
    + apply no_space_one. reflexivity.
  - rewrite (number_text_copy _ _ Hm).
    replace (a ++ c :: number_text t) with ((a ++ [ c ]) ++ number_text t)
      by assoc.
    apply IH; [cbn; lia |]. rewrite <- app_assoc. exact H.
Qed.

(** ** The three passes applied twice *)

Lemma normalize_fixed : forall x, key_fixed (normalize x).
Proof.
  intro x. unfold normalize.
  apply (key_fixed_number_text _ []), (key_fixed_value_text _ []).
  apply key_text_idempotent.
Qed.

Lemma normalize_idempotent : forall x, normalize (normalize x) = normalize x.
Proof.
  intro x. pose proof (normalize_fixed x) as H. unfold key_fixed in H.
  unfold normalize at 1. rewrite H. unfold normalize.
  rewrite value_text_number_text; [reflexivity |].
  apply value_text_idempotent.
Qed.

(** ** The passes one at a time *)

Lemma key_pass_text : forall s, key_pass s = Ok (key_text s).
Proof.
  intro s. unfold key_pass.
  assert (H : Regexp.MustCompile key_pattern = Ok (compiled key_pattern))
    by (vm_compute; reflexivity).
  rewrite H. reflexivity.
Qed.

Lemma value_pass_text : forall s, value_pass s = Ok (value_text s).
Proof.
  intro s. unfold value_pass.
  assert (H : Regexp.MustCompile value_pattern = Ok (compiled value_pattern))
    by (vm_compute; reflexivity).
  rewrite H. reflexivity.
Qed.

Lemma number_pass_text : forall s, number_pass s = Ok (number_text s).
Proof.
  intro s. unfold number_pass.
  assert (H : Regexp.MustCompile number_pattern = Ok (compiled number_pattern))
    by (vm_compute; reflexivity).
  rewrite H. reflexivity.
Qed.

(** ** Texts the passes do not change *)

Lemma value_match_no_space : forall s, no_space s -> value_match s = None.
Proof.
  intros s H. destruct (value_match s) as [[v r] |] eqn:Hm; [| reflexivity].
  destruct (value_match_shape _ _ _ Hm) as [o1 [o3 [E _]]]. subst s.
  inversion H as [| c s' _ H']; subst. inversion H' as [| c s' Hs _]; subst.
  discriminate Hs.
Qed.

Lemma number_match_no_space : forall s, no_space s -> number_match s = None.
Proof.
  intros s H. destruct (number_match s) as [[v r] |] eqn:Hm; [| reflexivity].
  exfalso. apply (number_match_value _ _ _ Hm). apply value_match_no_space, H.
Qed.

Lemma value_text_no_space : forall s, no_space s -> value_text s = s.
Proof.
  induction s as [| c s IH]; intro H; [reflexivity |].
  rewrite (value_text_copy _ _ (value_match_no_space _ H)).
  inversion H; subst. rewrite IH by assumption. reflexivity.
Qed.

Lemma number_text_no_space : forall s, no_space s -> number_text s = s.
Proof.
  induction s as [| c s IH]; intro H; [reflexivity |].
  rewrite (number_text_copy _ _ (number_match_no_space _ H)).
  inversion H; subst. rewrite IH by assumption. reflexivity.
Qed.

(** ** Characters before the first colon *)

Lemma value_text_prefix : forall a t,
  Forall (fun c => c <> ":"%char) a -> value_text (a ++ t) = a ++ value_text t.
Proof.
  induction a as [| c a IH]; intros t H; [reflexivity |].
  inversion H; subst. cbn [app].
  rewrite value_text_copy_start by assumption. rewrite IH by assumption.
  reflexivity.
Qed.

Lemma number_text_prefix : forall a t,
  Forall (fun c => c <> ":"%char) a ->
  number_text (a ++ t) = a ++ number_text t.
Proof.
  induction a as [| c a IH]; intros t H; [reflexivity |].
  inversion H; subst. cbn [app].
  rewrite number_text_copy_start by assumption. rewrite IH by assumption.
  reflexivity.
Qed.

Lemma ident_no_colon : forall k,
  all_in is_ident k -> Forall (fun c => c <> ":"%char) k.
Proof.
  intros k H. eapply Forall_impl; [| exact H].
  intros c Hc ->. discriminate Hc.
Qed.

Lemma numeric_no_colon : forall d,
  all_in is_numeric d -> Forall (fun c => c <> ":"%char) d.
Proof.
  intros d H. eapply Forall_impl; [| exact H].
  intros c Hc ->. discriminate Hc.
Qed.

Lemma numeric_no_comma : forall d, all_in is_numeric d -> ~ In ","%char d.
Proof.
  intros d H Hin. unfold all_in in H. rewrite Forall_forall in H.
  apply H in Hin. discriminate Hin.
Qed.

(** ** Properties of the normalizer *)

(** X1: applying [parseUnquotedJSON] to its own result gives that result
    again, for every input. *)
Theorem parseUnquotedJSON_idempotent : forall unquotedJSON : text,
  (s <- parseUnquotedJSON unquotedJSON ;; parseUnquotedJSON s)
  = parseUnquotedJSON unquotedJSON.
Proof.
  intro x. rewrite (parseUnquotedJSON_normalize x). cbn [bind].
  rewrite parseUnquotedJSON_normalize, normalize_idempotent. reflexivity.
Qed.

(** X2: a text with no white space character in it, such as a compact
    JSON text, is returned as it is. *)
Theorem parseUnquotedJSON_no_space : forall unquotedJSON : text,
  no_space unquotedJSON -> parseUnquotedJSON unquotedJSON = Ok unquotedJSON.
Proof.
  intros x H. rewrite parseUnquotedJSON_normalize. unfold normalize.
  rewrite (no_space_fixed x H), (value_text_no_space x H),
    (number_text_no_space x H).
  reflexivity.
Qed.

Lemma parseUnquotedJSON_no_space_witness :
  parseUnquotedJSON (bq "{`sns`:{`signatureVersion`:1,`type`:`a:b`}}")
  = Ok (bq "{`sns`:{`signatureVersion`:1,`type`:`a:b`}}").
Proof.
  apply (parseUnquotedJSON_no_space
           (bq "{`sns`:{`signatureVersion`:1,`type`:`a:b`}}")).
  repeat constructor.
Defined.

(** X3: the first pass.  A name of letters, digits and underscores, bare
    or with a quote of either kind on either side, followed by a colon and
    a white space character, is written as the name between double quotes,
    a colon and a space, whatever the white space character was; the pass
    goes on with the text after it. *)
Theorem key_pass_name : forall (o1 k o3 : text) (w : ascii) (rest : text),
  k <> [] -> all_in is_ident k -> opt_quote o1 -> opt_quote o3 ->
  is_space w = true ->
  key_pass (o1 ++ k ++ o3 ++ ":"%char :: w :: rest)
  = (r <- key_pass rest ;; Ok (dq :: k ++ dq :: ":"%char :: " "%char :: r)).
Proof.
  intros o1 k o3 w rest Hk Hi Ho1 Ho3 Hw. rewrite !key_pass_text. cbn [bind].
  rewrite (key_text_step _ k rest); [reflexivity |].
  apply key_match_intro; assumption.
Qed.

Lemma key_pass_name_witness :
  key_pass (bq "'messageId':" ++ "009"%char :: bq "abc, type: x")
  = (r <- key_pass (bq "abc, type: x") ;;
     Ok (dq :: bq "messageId" ++ dq :: ":"%char :: " "%char :: r)).
Proof.
  apply (key_pass_name (bq "'") (bq "messageId") (bq "'") "009"%char
           (bq "abc, type: x")).
  - discriminate.
  - repeat constructor.
  - right. exists "'"%char. split; reflexivity.
  - right. exists "'"%char. split; reflexivity.
  - reflexivity.
Defined.

(** X4: the second pass.  After a colon and a space, the longest run of
    safe characters, with the quote before it and the quote after it if
    there are any, is written between double quotes, and the pass goes on
    with what follows the run: what follows is not looked at, so of a
    value in several words the first word is quoted. *)
Theorem value_pass_value : forall (o1 v o3 rest : text),
  v <> [] -> all_in is_safe v -> opt_quote o1 -> opt_quote o3 ->
  stops is_safe (o3 ++ rest) -> (o3 = [] -> stops is_quote rest) ->
  value_pass (":"%char :: " "%char :: o1 ++ v ++ o3 ++ rest)
  = (r <- value_pass rest ;; Ok (":"%char :: " "%char :: dq :: v ++ dq :: r)).
Proof.
  intros o1 v o3 rest Hv Hs Ho1 Ho3 Hstop Hq. rewrite !value_pass_text.
  cbn [bind]. rewrite (value_text_step _ v rest); [reflexivity |].
  apply value_match_intro; assumption.
Qed.

Lemma value_pass_value_witness :
  value_pass (bq ": hello world, it works")
  = (r <- value_pass (bq " world, it works") ;;
     Ok (":"%char :: " "%char :: dq :: bq "hello" ++ dq :: r)).
Proof.
  apply (value_pass_value [] (bq "hello") [] (bq " world, it works")).
  - discriminate.
  - repeat constructor.
  - left. reflexivity.
  - left. reflexivity.
  - reflexivity.
  - intros _. reflexivity.
Defined.

(** X5: the third pass.  After a colon and a space, a run of digits and
    dots, with the quotes around it if there are any, that is followed by
    a comma is written without quotes. *)
Theorem number_pass_number : forall (o1 d o3 rest : text),
  d <> [] -> all_in is_numeric d -> opt_quote o1 -> opt_quote o3 ->
  number_pass (":"%char :: " "%char :: o1 ++ d ++ o3 ++ ","%char :: rest)
  = (r <- number_pass rest ;; Ok (":"%char :: " "%char :: d ++ ","%char :: r)).
Proof.
  intros o1 d o3 rest Hd Hn Ho1 Ho3. rewrite !number_pass_text. cbn [bind].
  rewrite (number_text_step _ d rest); [reflexivity |].
  apply number_match_intro; assumption.
Qed.

Lemma number_pass_number_witness :
  number_pass (bq ": `1.5`, `b`: `2`}")
  = (r <- number_pass (bq " `b`: `2`}") ;;
     Ok (":"%char :: " "%char :: bq "1.5" ++ ","%char :: r)).
Proof.
  apply (number_pass_number [ dq ] (bq "1.5") [ dq ] (bq " `b`: `2`}")).
  - discriminate.
  - repeat constructor.
  - right. exists dq. split; reflexivity.
  - right. exists dq. split; reflexivity.
Defined.

(** X6: a number that is the last member of its object has no comma after
    it: the second pass puts it between quotes and the third pass leaves it
    there, so the number comes out as a string. *)
Theorem parseUnquotedJSON_last_number : forall k d : text,
  k <> [] -> all_in is_ident k -> d <> [] -> all_in is_numeric d ->
  parseUnquotedJSON ("{"%char :: k ++ ":"%char :: " "%char :: d ++ [ "}"%char ])
  = Ok ("{"%char :: dq :: k ++ dq :: ":"%char :: " "%char
        :: dq :: d ++ [ dq; "}"%char ]).
Proof.
  intros k d Hk Hi Hd Hn. rewrite parseUnquotedJSON_normalize.
  unfold normalize.
  (* the key pass *)
  rewrite (key_text_copy _ _ (key_match_start "{" _ eq_refl eq_refl)).
  rewrite (key_text_step _ k (d ++ [ "}"%char ]));
    [| apply (key_match_intro [] k [] " "%char); auto; left; reflexivity].
  rewrite (no_space_fixed (d ++ [ "}"%char ]));
    [| apply no_space_app;
       [apply no_space_numeric, Hn | apply no_space_one; reflexivity]].
  (* the value pass *)
  change ("{"%char :: dq :: k ++ dq :: ":"%char :: " "%char :: d ++ [ "}"%char ])
    with (("{"%char :: dq :: k) ++ dq :: ":"%char :: " "%char :: d ++ [ "}"%char ]).
  rewrite value_text_prefix;
    [| constructor; [discriminate |]; constructor; [discriminate |];
       apply ident_no_colon, Hi].
  rewrite value_text_copy_start by discriminate.
  rewrite (value_text_step _ d [ "}"%char ]);
    [| apply (value_match_intro [] d [] [ "}"%char ]); auto;
       try (left; reflexivity); try reflexivity;
       eapply all_in_impl; [apply numeric_safe | exact Hn]].
  rewrite (value_text_no_space [ "}"%char ]) by (repeat constructor).
  (* the number pass *)
  rewrite number_text_prefix;
    [| constructor; [discriminate |]; constructor; [discriminate |];
       apply ident_no_colon, Hi].
  rewrite number_text_copy_start by discriminate.
  rewrite number_text_copy.
  - change (" "%char :: dq :: d ++ [ dq; "}"%char ])
      with ((" "%char :: dq :: d) ++ [ dq; "}"%char ]).
    rewrite number_text_prefix;
      [| constructor; [discriminate |]; constructor; [discriminate |];
         apply numeric_no_colon, Hn].
    rewrite (number_text_no_space [ dq; "}"%char ]) by (repeat constructor).
    reflexivity.
  - destruct (number_match (":"%char :: " "%char :: dq :: d ++ [ dq; "}"%char ]))
      as [[d' r] |] eqn:Hm; [| reflexivity].
    exfalso.
    destruct (number_match_shape _ _ _ Hm) as [o1 [o3 [E _]]].
    injection E as E.
    assert (Hin : In ","%char (dq :: d ++ [ dq; "}"%char ])).
    { rewrite E. apply in_or_app. right. apply in_or_app. right.
      apply in_or_app. right. left. reflexivity. }
    destruct Hin as [Hin | Hin]; [discriminate |].
    apply in_app_or in Hin. destruct Hin as [Hin | Hin].
    + exact (numeric_no_comma d Hn Hin).
    + destruct Hin as [Hin | [Hin | []]]; discriminate.
Qed.

Lemma parseUnquotedJSON_last_number_witness :
  parseUnquotedJSON (bq "{signatureVersion: 1}")
  = Ok (bq "{`signatureVersion`: `1`}").
Proof.
  apply (parseUnquotedJSON_last_number (bq "signatureVersion") (bq "1")).
  - discriminate.
  - repeat constructor.
  - discriminate.
  - repeat constructor.
Defined.

(** * The codecs and the decoder *)

(** ** The outcomes of decoding *)

Lemma decoding_bind : forall A B (m : outcome A) (k : A -> outcome B),
  decoding m -> (forall a, decoding (k a)) -> decoding (x <- m ;; k x).
Proof. intros A B [a | e | msg args | msg] k Hm Hk; cbn; auto. Qed.

Lemma snsTimestamp_UnmarshalJSON_decoding : forall b,
  decoding (snsTimestamp_UnmarshalJSON b).
Proof.
  intro b. unfold snsTimestamp_UnmarshalJSON. apply decoding_bind.
  - unfold Unmarshal_string. destruct (store_string b [] None) as [s [e |]];
      exact I.
  - intro s. destruct (Time.Parse_RFC3339 s); [exact I |].
    exists s. split; reflexivity.
Qed.

Lemma sns_member_decoding : forall k v (st : store sns),
  decoding (sns_member k v st).
Proof.
  intros k v st. destruct (names "timestamp" k) eqn:Hk.
  - rewrite (sns_member_timestamp _ _ _ Hk). apply decoding_bind.
    + apply snsTimestamp_UnmarshalJSON_decoding.
    + intro ts. exact I.
  - destruct (sns_member_other k v st Hk) as [[st' H] | [e [H _]]];
      rewrite H; exact I.
Qed.

Lemma store_members_decoding :
  forall A (member : text -> Json.value -> store A -> outcome (store A)),
  (forall k v st, decoding (member k v st)) ->
  forall ms st, decoding (store_members member ms st).
Proof.
  intros A member H. induction ms as [| [k v] ms IH]; intro st; [exact I |].
  cbn [store_members]. apply decoding_bind; [apply H | exact IH].
Qed.

Lemma store_struct_decoding :
  forall A gotype (member : text -> Json.value -> store A -> outcome (store A)),
  (forall k v st, decoding (member k v st)) ->
  forall v st, decoding (store_struct gotype member v st).
Proof.
  intros A gotype member H v st. unfold store_struct.
  destruct v; try exact I. apply store_members_decoding, H.
Qed.

Lemma finish_decoding : forall A (r : outcome (store A)),
  decoding r -> decoding (finish r).
Proof.
  intros A r H. unfold finish. apply decoding_bind; [exact H |].
  intros [x [e |]]; exact I.
Qed.

(** ** The timestamp codec *)

(** X7: [MarshalJSON] writes the value it holds in decimal, unchanged:
    the detour through [time.Unix(0, ts).UnixNano()] gives [ts] back for
    every 64-bit value, so the unit of the number written is the unit of
    the value stored. *)
Theorem snsTimestamp_MarshalJSON_decimal : forall ts : snsTimestamp,
  int64 ts -> snsTimestamp_MarshalJSON ts = Ok (FormatInt ts).
Proof.
  intros ts H. unfold snsTimestamp_MarshalJSON.
  rewrite (UnixNano_Unix ts H). reflexivity.
Qed.

Lemma snsTimestamp_MarshalJSON_decimal_witness :
  snsTimestamp_MarshalJSON (-1500)%Z = Ok (FormatInt (-1500)%Z).
Proof.
  apply (snsTimestamp_MarshalJSON_decimal (-1500)%Z).
  unfold int64. lia.
Defined.

(** A timestamp member for which the codec ends the process ends the
    decoding of the object, unless a messageAttributes member before it has
    been rejected. *)
Lemma store_members_timestamp_exit : forall ns (st : store sns) v m a,
  first_member "timestamp" ns = Some v ->
  snsTimestamp_UnmarshalJSON v = Exit m a ->
  store_members sns_member ns st = Exit m a
  \/ exists e k v',
       store_members sns_member ns st = Err e
       /\ In (k, v') ns /\ names "messageAttributes" k = true
       /\ messageAttributes_UnmarshalJSON v' = Err e.
Proof.
  induction ns as [| [k v0] ns IH]; intros st v m a H Hx; [discriminate |].
  cbn [first_member] in H. cbn [store_members].
  destruct (names "timestamp" k) eqn:Hk.
  - injection H as ->. rewrite (sns_member_timestamp _ _ _ Hk).
    left. rewrite Hx. reflexivity.
  - destruct (sns_member_other k v0 st Hk) as [[st' Hs] | [e [Hs [Hn Hm]]]];
      rewrite Hs; cbn [bind].
    + destruct (IH st' v m a H Hx) as [He | [e [k' [v' [He [Hin Hrest]]]]]].
      * left. exact He.
      * right. exists e, k', v'. split; [exact He |].
        split; [right; exact Hin | exact Hrest].
    + right. exists e, k, v0. split; [reflexivity |].
      split; [left; reflexivity | auto].
Qed.

(** ** The attribute placeholder *)

Lemma store_map_members_saved : forall ms cur saved,
  snd (store_map_members ms cur saved) = None
  <-> saved = None /\ Forall (fun m => string_or_null (snd m)) ms.
Proof.
  induction ms as [| [k v] ms IH]; intros cur saved; cbn [store_map_members].
  - cbn [snd]. split; [intro H; split; [exact H | constructor] | tauto].
  - destruct (store_string v [] saved) as [s saved'] eqn:Hs.
    rewrite IH. split.
    + intros [-> Hms].
      destruct v; cbn [store_string] in Hs; injection Hs as _ Hs;
        try (destruct saved; discriminate Hs).
      * split; [congruence |]. constructor; [exact I | exact Hms].
      * split; [congruence |]. constructor; [exact I | exact Hms].
    + intros [-> Hms]. inversion Hms as [| m ms' Hv Hms']; subst.
      cbn [snd] in Hv.
      destruct v; try contradiction; cbn [store_string] in Hs;
        injection Hs as _ <-; auto.
Qed.

(** X9: the codec of messageAttributes accepts null and the objects whose
    members all hold a string or null, and nothing else; what it accepts
    decodes to the placeholder with two empty strings. *)
Theorem messageAttributes_UnmarshalJSON_accepts : forall b : Json.value,
  (exists m, messageAttributes_UnmarshalJSON b = Ok m)
  <-> (b = Json.Null
       \/ exists ms, b = Json.Object ms
                     /\ Forall (fun m => string_or_null (snd m)) ms).
Proof.
  intro b. unfold messageAttributes_UnmarshalJSON, Unmarshal_map. split.
  - intros [m H].
    destruct b; cbn [bind] in H; try discriminate; [left; reflexivity |].
    right. exists members. split; [reflexivity |].
    apply (store_map_members_saved members [] None).
    destruct (store_map_members members [] None) as [x [e |]];
      [discriminate | reflexivity].
  - intros [-> | [ms [-> H]]]; [eexists; reflexivity |].
    pose proof (proj2 (store_map_members_saved ms [] None) (conj eq_refl H))
      as Hs.
    destruct (store_map_members ms [] None) as [x saved]. cbn [snd] in Hs.
    subst saved. eexists. reflexivity.
Qed.

(** ** Members that name no field *)

Lemma names_any_false : forall f fields k,
  names_any fields k = false -> In f fields -> names f k = false.
Proof.
  intros f fields k H Hin. unfold names_any in H.
  destruct (names f k) eqn:Hf; [| reflexivity].
  assert (Ht : existsb (fun g => names g k) fields = true).
  { apply existsb_exists. exists f. auto. }
  congruence.
Qed.

Lemma sns_member_unknown : forall k v (st : store sns),
  names_any sns_fields k = false -> sns_member k v st = Ok st.
Proof.
  intros k v st H. unfold sns_member.
  repeat match goal with
         | |- context [ names ?f k ] =>
             rewrite (names_any_false f sns_fields k H)
               by (cbn; tauto)
         end.
  reflexivity.
Qed.

(** X10: a member whose key names no field of [sns], in any letter case,
    is skipped: the object decodes as it does without such members. *)
Theorem store_members_unknown :
  forall (ms : list (text * Json.value)) (st : store sns),
  store_members sns_member ms st
  = store_members sns_member
      (filter (fun m => names_any sns_fields (fst m)) ms) st.
Proof.
  induction ms as [| [k v] ms IH]; intro st; [reflexivity |].
  cbn [filter fst]. destruct (names_any sns_fields k) eqn:Hk.
  - cbn [store_members]. destruct (sns_member k v st); cbn [bind]; auto.
  - cbn [store_members]. rewrite (sns_member_unknown k v st Hk). cbn [bind].
    apply IH.
Qed.

Section DecodingProperties.

Variable float32 : Type.
Variable float32_zero : float32.
Variable ParseFloat32 : text -> option float32.
Variable FormatFloat32 : float32 -> option text.

Lemma snsEvent_member_decoding : forall k v (st : store (snsEvent float32)),
  decoding (snsEvent_member ParseFloat32 k v st).
Proof.
  intros k v st. destruct (names "sns" k) eqn:Hk.
  - unfold snsEvent_member. rewrite Hk. apply decoding_bind.
    + apply store_struct_decoding, sns_member_decoding.
    + intro r. exact I.
  - destruct (snsEvent_member_other float32 ParseFloat32 k v st Hk) as [st' H].
    rewrite H. exact I.
Qed.

Lemma Unmarshal_decoding : forall data,
  decoding (Unmarshal float32_zero ParseFloat32 data).
Proof.
  intro data. unfold Unmarshal. destruct (Json.Parse data); [| exact I].
  apply finish_decoding, store_struct_decoding, snsEvent_member_decoding.
Qed.

Lemma Marshal_sns_Ok : forall x, exists n, Marshal_sns x = Ok n.
Proof.
  intro x. unfold Marshal_sns, snsTimestamp_MarshalJSON.
  destruct (MessageAttributes x); cbn; eexists; reflexivity.
Qed.

(** X8: a null timestamp.  A null for a field is as a rule left out by
    [json.Unmarshal]; the timestamp has a codec, which is called with the
    null: it reads no string and ends the process on the empty one.  (As in
    C2, an error comes back only from a messageAttributes member before
    it.) *)
Theorem Unmarshal_null_timestamp : forall (data : text) ms ns,
  Json.Parse data = Some (Json.Object ms) ->
  first_member "sns" ms = Some (Json.Object ns) ->
  first_member "timestamp" ns = Some Json.Null ->
  Unmarshal float32_zero ParseFloat32 data
  = Exit "Error unmarshaling event timestamp %q" [ AText [] ]
  \/ exists e k v,
       Unmarshal float32_zero ParseFloat32 data = Err e
       /\ In (k, v) ns /\ names "messageAttributes" k = true
       /\ messageAttributes_UnmarshalJSON v = Err e.
Proof.
  intros data ms ns Hp Hs Ht. unfold Unmarshal. rewrite Hp.
  cbn [store_struct].
  destruct (store_members_sns_outcome float32 ParseFloat32 ms
              (snsEvent_zero float32_zero, None) ns Hs) as [st' Hout].
  destruct (store_members_timestamp_exit ns st' Json.Null
              "Error unmarshaling event timestamp %q" [ AText [] ] Ht eq_refl)
    as [He | [e [k [v [He Hrest]]]]].
  - left.
    rewrite (Hout (Exit "Error unmarshaling event timestamp %q" [ AText [] ])).
    + reflexivity.
    + intros e' H'. congruence.
    + intros m a H'. congruence.
    + intros x H'. congruence.
    + intros m H'. congruence.
  - right. exists e, k, v. split; [| exact Hrest].
    rewrite (Hout (Err e)).
    + reflexivity.
    + intros e' H'. congruence.
    + intros m a H'. congruence.
    + intros x H'. congruence.
    + intros m H'. congruence.
Qed.

(** X11: the body of the loop returns no error and does not panic: it
    gives the bytes to write, or the process ends, with the message of
    [main] for an error of [json.Unmarshal] or with the message of the
    timestamp codec. *)
Theorem process_outcome : forall item contents : text,
  (exists out, process float32_zero ParseFloat32 FormatFloat32 item contents
               = Ok out)
  \/ (exists e, process float32_zero ParseFloat32 FormatFloat32 item contents
                = Exit "Unable to unmarshal contents of item %q, %v"
                    [ AText item; AError e ])
  \/ (exists s, process float32_zero ParseFloat32 FormatFloat32 item contents
                = Exit "Error unmarshaling event timestamp %q" [ AText s ]).
Proof.
  intros item contents. unfold process.
  rewrite parseUnquotedJSON_normalize. cbn [bind].
  pose proof (Unmarshal_decoding (normalize contents)) as H.
  destruct (Unmarshal float32_zero ParseFloat32 (normalize contents))
    as [event | e | m a | m]; cbn [bind].
  - left. unfold Marshal. destruct (Marshal_sns_Ok (Sns event)) as [n ->].
    cbn [bind]. destruct (FormatFloat32 (EventVersion event));
      eexists; reflexivity.
  - right. left. exists e. reflexivity.
  - right. right. destruct H as [s [-> ->]]. exists s. reflexivity.
  - contradiction.
Qed.

(** *** The version number can always be written *)

Hypothesis format_zero : FormatFloat32 float32_zero <> None.
Hypothesis format_parsed : forall lit f,
  ParseFloat32 lit = Some f -> FormatFloat32 f <> None.

Lemma snsEvent_member_formats :
  forall k v (st st' : store (snsEvent float32)),
  snsEvent_member ParseFloat32 k v st = Ok st' ->
  FormatFloat32 (EventVersion (fst st)) <> None ->
  FormatFloat32 (EventVersion (fst st')) <> None.
Proof.
  intros k v st st' H Hf. unfold snsEvent_member in H.
  destruct (names "sns" k).
  { destruct (store_sns v (Sns (fst st), snd st)); cbn [bind] in H;
      try discriminate. injection H as <-. exact Hf. }
  destruct (names "eventVersion" k).
  { unfold store_float32 in H.
    destruct v; try (injection H as <-; exact Hf).
    destruct (ParseFloat32 literal) as [f |] eqn:Hp; injection H as <-.
    - cbn [fst EventVersion]. exact (format_parsed _ _ Hp).
    - exact Hf. }
  destruct (names "eventSource" k).
  { unfold string_field in H.
    destruct (store_string v (EventSource (fst st)) (snd st)).
    injection H as <-. exact Hf. }
  destruct (names "eventSubscriptionArn" k).
  { unfold string_field in H.
    destruct (store_string v (EventSubscriptionArn (fst st)) (snd st)).
    injection H as <-. exact Hf. }
  injection H as <-. exact Hf.
Qed.

Lemma store_members_formats :
  forall ms (st st' : store (snsEvent float32)),
  store_members (snsEvent_member ParseFloat32) ms st = Ok st' ->
  FormatFloat32 (EventVersion (fst st)) <> None ->
  FormatFloat32 (EventVersion (fst st')) <> None.
Proof.
  induction ms as [| [k v] ms IH]; intros st st' H Hf; cbn [store_members] in H.
  - injection H as <-. exact Hf.
  - destruct (snsEvent_member ParseFloat32 k v st) as [st1 | | |] eqn:Hm;
      cbn [bind] in H; try discriminate.
    apply (IH st1 st' H). exact (snsEvent_member_formats _ _ _ _ Hm Hf).
Qed.

Lemma Unmarshal_formats : forall data event,
  Unmarshal float32_zero ParseFloat32 data = Ok event ->
  FormatFloat32 (EventVersion event) <> None.
Proof.
  intros data event H. unfold Unmarshal in H.
  destruct (Json.Parse data) as [v |]; [| discriminate].
  unfold finish in H.
  destruct (store_struct "main.snsEvent" (snsEvent_member ParseFloat32) v
              (snsEvent_zero float32_zero, None)) as [st | | |] eqn:Hs;
    cbn [bind] in H; try discriminate.
  destruct st as [x [e |]]; cbn [snd fst] in H; [discriminate |].
  injection H as ->.
  unfold store_struct in Hs. destruct v;
    try (injection Hs as <- _; exact format_zero);
    try (injection Hs as <-; exact format_zero).
  exact (store_members_formats _ _ _ Hs format_zero).
Qed.

(** X12: when a number literal that [strconv.ParseFloat] accepts is never
    read as an infinity or a NaN, [json.Marshal] cannot fail on an
    envelope that [json.Unmarshal] has filled: the branch of [main] that
    logs its error and goes on to write nil bytes is never taken, and what
    is written is the encoding of the decoded envelope. *)
Theorem process_writes_event : forall item contents out : text,
  process float32_zero ParseFloat32 FormatFloat32 item contents = Ok out ->
  exists (s : text) (event : snsEvent float32),
    parseUnquotedJSON contents = Ok s
    /\ Unmarshal float32_zero ParseFloat32 s = Ok event
    /\ Marshal FormatFloat32 event = Ok out
    /\ out <> [].
Proof.
  intros item contents out H. unfold process in H.
  rewrite parseUnquotedJSON_normalize in H. cbn [bind] in H.
  exists (normalize contents).
  destruct (Unmarshal float32_zero ParseFloat32 (normalize contents))
    as [event | e | m a | m] eqn:Hu; cbn [bind] in H; try discriminate.
  exists event. split; [apply parseUnquotedJSON_normalize |].
  split; [reflexivity |].
  pose proof (Unmarshal_formats _ _ Hu) as Hf.
  unfold Marshal in *. destruct (Marshal_sns_Ok (Sns event)) as [n Hn].
  rewrite Hn in *. cbn [bind] in *.
  destruct (FormatFloat32 (EventVersion event)) as [f |]; [| contradiction].
  split; [exact H |]. injection H as <-. discriminate.
Qed.

End DecodingProperties.

Lemma Unmarshal_null_timestamp_witness :
  Unmarshal whole_zero whole_parse (bq "{`sns`:{`timestamp`:null}}")
  = Exit "Error unmarshaling event timestamp %q" [ AText [] ]
  \/ exists e k v,
       Unmarshal whole_zero whole_parse (bq "{`sns`:{`timestamp`:null}}")
       = Err e
       /\ In (k, v) [ (bq "timestamp", Json.Null) ]
       /\ names "messageAttributes" k = true
       /\ messageAttributes_UnmarshalJSON v = Err e.
Proof.
  apply (Unmarshal_null_timestamp whole_version whole_zero whole_parse
           (bq "{`sns`:{`timestamp`:null}}")
           [ (bq "sns", Json.Object [ (bq "timestamp", Json.Null) ]) ]
           [ (bq "timestamp", Json.Null) ]).
  - vm_compute. reflexivity.
  - vm_compute. reflexivity.
  - vm_compute. reflexivity.
Defined.

Lemma process_writes_event_witness :
  exists (s : text) (event : snsEvent whole_version),
    parseUnquotedJSON (bq "{sns: {type: Notification, message: hello}}") = Ok s
    /\ Unmarshal whole_zero whole_parse s = Ok event
    /\ Marshal whole_format event
       = Ok (bq "{`sns`:{`messageAttributes`:null,`signingCertUrl`:``,`messageId`:``,`message`:`hello`,`unsubscribeUrl`:``,`type`:`Notification`,`signatureVersion`:0,`signature`:``,`timestamp`:0,`topicArn`:``},`eventVersion`:0,`eventSource`:``,`eventSubscriptionArn`:``}")
    /\ bq "{`sns`:{`messageAttributes`:null,`signingCertUrl`:``,`messageId`:``,`message`:`hello`,`unsubscribeUrl`:``,`type`:`Notification`,`signatureVersion`:0,`signature`:``,`timestamp`:0,`topicArn`:``},`eventVersion`:0,`eventSource`:``,`eventSubscriptionArn`:``}"
       <> [].
Proof.
  apply (process_writes_event whole_version whole_zero whole_parse whole_format
           ltac:(discriminate) ltac:(intros; discriminate)
           (bq "item") (bq "{sns: {type: Notification, message: hello}}")).
  vm_compute. reflexivity.
Defined.

(** * The program *)

Lemma text_eqb_refl : forall a : text, text_eqb a a = true.
Proof.
  intro a. unfold text_eqb.
  destruct (list_eq_dec ascii_dec a a); [reflexivity | contradiction].
Qed.

Section ProgramProperties.

Variable float32 : Type.
Variable float32_zero : float32.
Variable ParseFloat32 : text -> option float32.
Variable FormatFloat32 : float32 -> option text.
Variable world : Type.
Variable NewSession : world -> option text.
Variable ListObjects : world -> text -> text -> reply (list text).
Variable GetObject : world -> text -> text -> reply ReadCloser.
Variable PutObject : world -> text -> text -> text -> reply text * world.

Local Abbreviation body :=
  (process float32_zero ParseFloat32 FormatFloat32).
Local Abbreviation loop :=
  (main_loop float32_zero ParseFloat32 FormatFloat32 GetObject PutObject).
Local Abbreviation done_with :=
  (replaced float32_zero ParseFloat32 FormatFloat32 GetObject PutObject).
Local Abbreviation written :=
  (converted float32_zero ParseFloat32 FormatFloat32 GetObject).

(** The body of the loop gives bytes or ends the process. *)
Lemma process_Ok_or_Exit : forall item contents,
  (exists b, body item contents = Ok b)
  \/ (exists m a, body item contents = Exit m a).
Proof.
  intros item contents. unfold process.
  rewrite parseUnquotedJSON_normalize. cbn [bind].
  pose proof (Unmarshal_decoding float32 float32_zero ParseFloat32
                (normalize contents))
    as H.
  destruct (Unmarshal float32_zero ParseFloat32 (normalize contents))
    as [event | e | m a | m]; cbn [bind].
  - left. unfold Marshal. destruct (Marshal_sns_Ok (Sns event)) as [n ->].
    cbn [bind]. destruct (FormatFloat32 (EventVersion event));
      eexists; reflexivity.
  - right. eexists. eexists. reflexivity.
  - right. eexists. eexists. reflexivity.
  - contradiction.
Qed.

(** The loop over the objects that are replaced, then over the others. *)
Lemma main_loop_replaced : forall bucket l1 l2 st st1,
  done_with bucket l1 st = Some st1 ->
  loop bucket (l1 ++ l2) st = loop bucket l2 st1.
Proof.
  intros bucket. induction l1 as [| item l1 IH]; intros l2 st st1 H.
  - injection H as ->. reflexivity.
  - cbn [replaced] in H. cbn [app main_loop].
    destruct (GetObject (s3 st) bucket item) as [obj | err]; [| discriminate].
    destruct (body item (getContents obj)) as [b | | |]; try discriminate.
    destruct (PutObject (s3 st) bucket item b) as [[result | err] w];
      [| discriminate].
    apply IH. exact H.
Qed.

(** X13: the loop ends the process at the first object that cannot be
    read or converted.  The objects before it have been replaced, and stay
    so; the objects after it are not read. *)
Theorem main_loop_stops : forall bucket l1 item l2 st st1,
  replaced float32_zero ParseFloat32 FormatFloat32 GetObject PutObject
    bucket l1 st = Some st1 ->
  converted float32_zero ParseFloat32 FormatFloat32 GetObject
    (s3 st1) bucket item = None ->
  exists msg args,
    main_loop float32_zero ParseFloat32 FormatFloat32 GetObject PutObject
      bucket (l1 ++ item :: l2) st
    = (Exit msg args, st1).
Proof.
  intros bucket l1 item l2 st st1 H Hw.
  rewrite (main_loop_replaced bucket l1 (item :: l2) st st1 H).
  cbn [main_loop]. unfold converted in Hw.
  destruct (GetObject (s3 st1) bucket item) as [obj | err].
  - destruct (process_Ok_or_Exit item (getContents obj))
      as [[b Hb] | [m [a Hx]]].
    + rewrite Hb in Hw. discriminate.
    + rewrite Hx. exists m, a. reflexivity.
  - eexists. eexists. reflexivity.
Qed.

(** X14: when [PutObject] fails the error is printed and [main] returns:
    the process ends as after a complete run, with the objects after the
    failure left as they were. *)
Theorem main_loop_put_failure : forall bucket l1 item l2 st st1 b err w,
  replaced float32_zero ParseFloat32 FormatFloat32 GetObject PutObject
    bucket l1 st = Some st1 ->
  converted float32_zero ParseFloat32 FormatFloat32 GetObject
    (s3 st1) bucket item = Some b ->
  PutObject (s3 st1) bucket item b = (Failure err, w) ->
  main_loop float32_zero ParseFloat32 FormatFloat32 GetObject PutObject
    bucket (l1 ++ item :: l2) st
  = (Ok tt, Println err w st1).
Proof.
  intros bucket l1 item l2 st st1 b err w H Hw Hp.
  rewrite (main_loop_replaced bucket l1 (item :: l2) st st1 H).
  cbn [main_loop]. unfold converted in Hw.
  destruct (GetObject (s3 st1) bucket item) as [obj | e]; [| discriminate].
  destruct (body item (getContents obj)) as [b' | | |]; try discriminate.
  injection Hw as ->. rewrite Hp. reflexivity.
Qed.

(** *** A service that keeps what is put *)

Hypothesis get_put : forall w bucket key contents result w',
  PutObject w bucket key contents = (Reply result, w') ->
  GetObject w' bucket key
  = Reply {| received := contents; failure := None |}.
Hypothesis get_put_other : forall w bucket key contents r w' key',
  PutObject w bucket key contents = (r, w') -> key' <> key ->
  GetObject w' bucket key' = GetObject w bucket key'.

Lemma replaced_other : forall bucket l st st' key,
  done_with bucket l st = Some st' -> ~ In key l ->
  GetObject (s3 st') bucket key = GetObject (s3 st) bucket key.
Proof.
  intros bucket. induction l as [| item l IH]; intros st st' key H Hn.
  - injection H as ->. reflexivity.
  - cbn [replaced] in H.
    destruct (GetObject (s3 st) bucket item) as [obj | err]; [| discriminate].
    destruct (body item (getContents obj)) as [b | | |]; try discriminate.
    destruct (PutObject (s3 st) bucket item b) as [[result | err] w] eqn:Hp;
      [| discriminate].
    rewrite (IH _ _ key H) by (intro; apply Hn; right; assumption).
    cbn [Println s3].
    apply (get_put_other _ _ _ _ _ _ key Hp).
    intro E. apply Hn. left. auto.
Qed.

Lemma replaced_converts : forall bucket l st st',
  NoDup l -> done_with bucket l st = Some st' ->
  forall item, In item l ->
  exists b, written (s3 st) bucket item = Some b
            /\ GetObject (s3 st') bucket item
               = Reply {| received := b; failure := None |}.
Proof.
  intros bucket. induction l as [| item0 l IH]; intros st st' Hd H item Hin;
    [contradiction |].
  inversion Hd as [| x l' Hnot Hd']; subst.
  cbn [replaced] in H.
  destruct (GetObject (s3 st) bucket item0) as [obj | err] eqn:Hg;
    [| discriminate].
  destruct (body item0 (getContents obj)) as [b | | |] eqn:Hb;
    try discriminate.
  destruct (PutObject (s3 st) bucket item0 b) as [[result | err] w] eqn:Hp;
    [| discriminate].
  destruct Hin as [<- | Hin].
  - exists b. split.
    + unfold converted. rewrite Hg, Hb. reflexivity.
    + rewrite (replaced_other _ _ _ _ item0 H Hnot). cbn [Println s3].
      exact (get_put _ _ _ _ _ _ Hp).
  - destruct (IH _ _ Hd' H item Hin) as [b' [Hw Hget]].
    exists b'. split; [| exact Hget].
    unfold converted in *. cbn [Println s3] in Hw.
    rewrite (get_put_other _ _ _ _ _ _ item Hp) in Hw; [exact Hw |].
    intros ->. contradiction.
Qed.

(** X15: a complete run.  When the keys listed are distinct and no call
    fails, [main] returns, and each object listed then holds what the
    body of the loop made of the contents it had before the run. *)
Theorem main_converts : forall prog bucket prefix l st st',
  NewSession (s3 st) = None ->
  ListObjects (s3 st) bucket prefix = Reply l ->
  NoDup l ->
  replaced float32_zero ParseFloat32 FormatFloat32 GetObject PutObject
    bucket l st = Some st' ->
  main float32_zero ParseFloat32 FormatFloat32 NewSession ListObjects
    GetObject PutObject [ prog; bucket; prefix ] st = (Ok tt, st')
  /\ forall item, In item l ->
     exists b,
       converted float32_zero ParseFloat32 FormatFloat32 GetObject
         (s3 st) bucket item = Some b
       /\ GetObject (s3 st') bucket item
          = Reply {| received := b; failure := None |}.
Proof.
  intros prog bucket prefix l st st' Hs Hl Hd H. split.
  - unfold main. cbn [length Nat.eqb negb nth]. rewrite Hs, Hl.
    rewrite <- (app_nil_r l).
    rewrite (main_loop_replaced bucket l [] st st' H). reflexivity.
  - apply replaced_converts; assumption.
Qed.

End ProgramProperties.

(** The bucket of the examples keeps what is put. *)
Lemma bucket_get_put : forall w bucket key contents result w',
  bucket_put w bucket key contents = (Reply result, w') ->
  bucket_get w' bucket key
  = Reply {| received := contents; failure := None |}.
Proof.
  intros w bucket key contents result w' H. injection H as _ <-.
  unfold bucket_get. cbn [bucket_find]. rewrite text_eqb_refl. reflexivity.
Qed.

Lemma bucket_get_put_other : forall w bucket key contents r w' key',
  bucket_put w bucket key contents = (r, w') -> key' <> key ->
  bucket_get w' bucket key' = bucket_get w bucket key'.
Proof.
  intros w bucket key contents r w' key' H Hne. injection H as _ <-.
  unfold bucket_get. cbn [bucket_find].
  rewrite (text_eqb_false key key') by congruence. reflexivity.
Qed.

Lemma main_loop_stops_witness :
  exists msg args,
    main_loop whole_zero whole_parse whole_format bucket_get bucket_put
      (bq "b") ([ bq "a/1" ] ++ bq "a/2" :: [ bq "a/3" ])
      {| s3 := broken_bucket; stdout := [] |}
    = (Exit msg args,
       {| s3 := (bq "a/1", example_1_written) :: broken_bucket;
          stdout := [ bq "{}" ] |}).
Proof.
  apply (main_loop_stops whole_version whole_zero whole_parse whole_format
           bucket_world bucket_get bucket_put
           (bq "b") [ bq "a/1" ] (bq "a/2") [ bq "a/3" ]
           {| s3 := broken_bucket; stdout := [] |}
           {| s3 := (bq "a/1", example_1_written) :: broken_bucket;
              stdout := [ bq "{}" ] |}).
  - vm_compute. reflexivity.
  - vm_compute. reflexivity.
Defined.

Lemma main_loop_put_failure_witness :
  main_loop whole_zero whole_parse whole_format bucket_get bucket_put_denied
    (bq "b") ([] ++ bq "a/1" :: [ bq "a/2" ])
    {| s3 := example_bucket; stdout := [] |}
  = (Ok tt,
     Println (bq "AccessDenied: Access Denied") example_bucket
       {| s3 := example_bucket; stdout := [] |}).
Proof.
  apply (main_loop_put_failure whole_version whole_zero whole_parse
           whole_format bucket_world bucket_get bucket_put_denied
           (bq "b") [] (bq "a/1") [ bq "a/2" ]
           {| s3 := example_bucket; stdout := [] |}
           {| s3 := example_bucket; stdout := [] |}
           example_1_written (bq "AccessDenied: Access Denied")
           example_bucket).
  - reflexivity.
  - vm_compute. reflexivity.
  - reflexivity.
Defined.

Lemma main_converts_witness :
  let st := {| s3 := example_bucket; stdout := [] |} in
  let st' :=
    {| s3 := (bq "a/2", example_2_written) :: (bq "a/1", example_1_written)
             :: example_bucket;
       stdout := [ bq "{}"; bq "{}" ] |} in
  main whole_zero whole_parse whole_format bucket_session bucket_list
    bucket_get bucket_put [ bq "s3-format-fixer"; bq "b"; bq "a/" ] st
  = (Ok tt, st')
  /\ forall item, In item [ bq "a/1"; bq "a/2" ] ->
     exists b,
       converted whole_zero whole_parse whole_format bucket_get
         (s3 st) (bq "b") item = Some b
       /\ bucket_get (s3 st') (bq "b") item
          = Reply {| received := b; failure := None |}.
Proof.
  intros st st'.
  apply (main_converts whole_version whole_zero whole_parse whole_format
           bucket_world bucket_session bucket_list bucket_get bucket_put
           bucket_get_put bucket_get_put_other
           (bq "s3-format-fixer") (bq "b") (bq "a/") [ bq "a/1"; bq "a/2" ]
           st st').
  - reflexivity.
  - reflexivity.
  - constructor; [intros [H | []]; discriminate H |].
    constructor; [intros [] | constructor].
  - vm_compute. reflexivity.
Defined.

(** * A number in the last place *)

Lemma numeric_plain : forall c, is_numeric c = true -> plain c = true.
Proof. intros c H. cls c. Qed.

Lemma parse_string_plain : forall d rest,
  Forall (fun c => plain c = true) d ->
  Json.parse_string (d ++ dq :: rest) 0 = Some (d, rest).
Proof.
  induction d as [| c d IH]; intros rest H.
  - cbn [app Json.parse_string]. rewrite Ascii.eqb_refl. reflexivity.
  - inversion H as [| c' d' Hc Hd]; subst. cbn [app Json.parse_string].
    unfold plain in Hc. apply andb_true_iff in Hc. destruct Hc as [Hc H128].
    apply andb_true_iff in Hc. destruct Hc as [Hc H32].
    apply andb_true_iff in Hc. destruct Hc as [Hq Hb].
    apply negb_true_iff in Hq, Hb. rewrite Hq, Hb.
    unfold Json.code, Json.utf8_len.
    apply Nat.leb_le in H32.
    destruct (nat_of_ascii c <? 32) eqn:Hlt;
      [apply Nat.ltb_lt in Hlt; lia |].
    unfold Json.code. rewrite H128. cbn [Nat.sub].
    rewrite (IH rest Hd). reflexivity.
Qed.

Lemma key_text_signatureVersion : forall d,
  all_in is_numeric d ->
  key_text (bq "{sns: {signatureVersion: " ++ d ++ bq "}}")
  = bq "{`sns`: {`signatureVersion`: " ++ d ++ bq "}}".
Proof.
  intros d Hn.
  change (bq "{sns: {signatureVersion: " ++ d ++ bq "}}")
    with ("{"%char :: [] ++ bq "sns" ++ [] ++ ":"%char :: " "%char
          :: "{"%char :: [] ++ bq "signatureVersion" ++ []
          ++ ":"%char :: " "%char :: d ++ bq "}}").
  rewrite (key_text_copy _ _ (key_match_start "{" _ eq_refl eq_refl)).
  rewrite (key_text_step _ (bq "sns")
             ("{"%char :: [] ++ bq "signatureVersion" ++ []
              ++ ":"%char :: " "%char :: d ++ bq "}}"));
    [| apply (key_match_intro [] (bq "sns") [] " "%char);
       [discriminate | repeat constructor | left; reflexivity
       | left; reflexivity | reflexivity]].
  rewrite (key_text_copy _ _ (key_match_start "{" _ eq_refl eq_refl)).
  rewrite (key_text_step _ (bq "signatureVersion") (d ++ bq "}}"));
    [| apply (key_match_intro [] (bq "signatureVersion") [] " "%char);
       [discriminate | repeat constructor | left; reflexivity
       | left; reflexivity | reflexivity]].
  rewrite (no_space_fixed (d ++ bq "}}"));
    [reflexivity |].
  apply no_space_app; [apply no_space_numeric, Hn | repeat constructor].
Qed.

Lemma value_text_signatureVersion : forall d,
  d <> [] -> all_in is_numeric d ->
  value_text (bq "{`sns`: {`signatureVersion`: " ++ d ++ bq "}}")
  = bq "{`sns`: {`signatureVersion`: `" ++ d ++ bq "`}}".
Proof.
  intros d Hd Hn.
  change (bq "{`sns`: {`signatureVersion`: " ++ d ++ bq "}}")
    with (bq "{`sns`" ++ ":"%char :: " "%char
          :: (bq "{`signatureVersion`" ++ ":"%char :: " "%char
              :: [] ++ d ++ [] ++ bq "}}")).
  rewrite value_text_prefix by (repeat constructor; discriminate).
  rewrite value_text_copy;
    [| apply value_match_colon_space; reflexivity].
  rewrite value_text_copy_start by discriminate.
  rewrite value_text_prefix by (repeat constructor; discriminate).
  rewrite (value_text_step _ d (bq "}}"));
    [| apply (value_match_intro [] d [] (bq "}}")); auto;
       try (left; reflexivity); try reflexivity;
       eapply all_in_impl; [apply numeric_safe | exact Hn]].
  rewrite (value_text_no_space (bq "}}")) by (repeat constructor).
  reflexivity.
Qed.

Lemma number_text_signatureVersion : forall d,
  all_in is_numeric d ->
  number_text (bq "{`sns`: {`signatureVersion`: `" ++ d ++ bq "`}}")
  = bq "{`sns`: {`signatureVersion`: `" ++ d ++ bq "`}}".
Proof.
  intros d Hn.
  change (bq "{`sns`: {`signatureVersion`: `" ++ d ++ bq "`}}")
    with (bq "{`sns`" ++ ":"%char :: " "%char
          :: (bq "{`signatureVersion`" ++ ":"%char
              :: (" "%char :: dq :: d) ++ bq "`}}")).
  rewrite number_text_prefix by (repeat constructor; discriminate).
  rewrite number_text_copy.
  - rewrite number_text_copy_start by discriminate.
    rewrite number_text_prefix by (repeat constructor; discriminate).
    rewrite number_text_copy.
    + rewrite number_text_prefix;
        [| constructor; [discriminate |]; constructor; [discriminate |];
           apply numeric_no_colon, Hn].
      rewrite (number_text_no_space (bq "`}}")) by (repeat constructor).
      reflexivity.
    + match goal with
      | |- number_match ?s = None =>
          destruct (number_match s) as [[d' r] |] eqn:Hm; [| reflexivity]
      end.
      exfalso.
      destruct (number_match_shape _ _ _ Hm) as [o1 [o3 [E _]]].
      cbn [app] in E. injection E as E.
      assert (Hin : In ","%char (dq :: d ++ bq "`}}")).
      { rewrite E. apply in_or_app. right. apply in_or_app. right.
        apply in_or_app. right. left. reflexivity. }
      destruct Hin as [Hin | Hin]; [discriminate |].
      apply in_app_or in Hin. destruct Hin as [Hin | Hin].
      * exact (numeric_no_comma d Hn Hin).
      * destruct Hin as [Hin | [Hin | [Hin | []]]]; discriminate.
  - match goal with
    | |- number_match ?s = None =>
        destruct (number_match s) as [[d' r] |] eqn:Hm; [| reflexivity]
    end.
    exfalso. apply (number_match_value _ _ _ Hm).
    apply value_match_colon_space. reflexivity.
Qed.

(** ** Reading the text back *)

Lemma parse_value_object : forall f s,
  Json.parse_value (S (S f)) ("{"%char :: dq :: s)
  = match Json.parse_members (S f) (dq :: s) with
    | Some (ms, s2) => Some (Json.Object ms, s2)
    | None => None
    end.
Proof. reflexivity. Qed.

Lemma parse_value_space : forall f s,
  Json.parse_value f (" "%char :: s) = Json.parse_value f s.
Proof. intros [| f] s; reflexivity. Qed.

Lemma parse_value_string : forall f s,
  Json.parse_value (S f) (dq :: s)
  = match Json.parse_string s 0 with
    | Some (str, s2) => Some (Json.Str str, s2)
    | None => None
    end.
Proof. reflexivity. Qed.

(** An object with one member. *)
Lemma parse_members_last : forall f s key s2 v s3,
  Json.parse_string s 0 = Some (key, ":"%char :: s2) ->
  Json.parse_value f s2 = Some (v, "}"%char :: s3) ->
  Json.parse_members (S f) (dq :: s) = Some ([ (key, v) ], s3).
Proof.
  intros f s key s2 v s3 Hk Hv.
  change (Json.parse_members (S f) (dq :: s))
    with (match Json.parse_string s 0 with
          | Some (key, s2) =>
              match Json.skip_ws s2 with
              | ":"%char :: s3 =>
                  match Json.parse_value f s3 with
                  | Some (v, s4) =>
                      match Json.skip_ws s4 with
                      | ","%char :: s5 =>
                          match Json.parse_members f s5 with
                          | Some (ms, s6) => Some ((key, v) :: ms, s6)
                          | None => None
                          end
                      | "}"%char :: s5 => Some ([ (key, v) ], s5)
                      | _ => None
                      end
                  | None => None
                  end
              | _ => None
              end
          | None => None
          end).
  rewrite Hk.
  change (Json.skip_ws (":"%char :: s2)) with (":"%char :: s2).
  cbv iota beta. rewrite Hv.
  change (Json.skip_ws ("}"%char :: s3)) with ("}"%char :: s3).
  reflexivity.
Qed.

Lemma parse_value_signatureVersion : forall f d,
  all_in is_numeric d ->
  Json.parse_value (S (S (S (S (S f)))))
    (bq "{`sns`: {`signatureVersion`: `" ++ d ++ bq "`}}")
  = Some (Json.Object
            [ (bq "sns",
               Json.Object [ (bq "signatureVersion", Json.Str d) ]) ], []).
Proof.
  intros f d Hn.
  assert (Hs : Json.parse_string (d ++ dq :: bq "}}") 0 = Some (d, bq "}}")).
  { apply parse_string_plain. eapply Forall_impl; [| exact Hn].
    apply numeric_plain. }
  change (bq "{`sns`: {`signatureVersion`: `" ++ d ++ bq "`}}")
    with ("{"%char :: dq
          :: (bq "sns`:" ++ " "%char :: "{"%char :: dq
              :: (bq "signatureVersion`:" ++ " "%char :: dq
                  :: (d ++ dq :: bq "}}")))).
  rewrite parse_value_object.
  rewrite (parse_members_last (S (S (S f))) _ (bq "sns")
             (" "%char :: "{"%char :: dq
              :: (bq "signatureVersion`:" ++ " "%char :: dq
                  :: (d ++ dq :: bq "}}")))
             (Json.Object [ (bq "signatureVersion", Json.Str d) ]) []);
    [reflexivity | reflexivity |].
  rewrite parse_value_space, parse_value_object.
  rewrite (parse_members_last (S f) _ (bq "signatureVersion")
             (" "%char :: dq :: (d ++ dq :: bq "}}"))
             (Json.Str d) [ "}"%char ]);
    [reflexivity | reflexivity |].
  rewrite parse_value_space, parse_value_string, Hs. reflexivity.
Qed.

Lemma Parse_signatureVersion : forall d,
  all_in is_numeric d ->
  Json.Parse (bq "{`sns`: {`signatureVersion`: `" ++ d ++ bq "`}}")
  = Some (Json.Object
            [ (bq "sns",
               Json.Object [ (bq "signatureVersion", Json.Str d) ]) ]).
Proof.
  intros d Hn. unfold Json.Parse.
  assert (Hlen : 4 <= length (bq "{`sns`: {`signatureVersion`: `" ++ d
                              ++ bq "`}}")).
  { rewrite length_app. cbn. lia. }
  destruct (length (bq "{`sns`: {`signatureVersion`: `" ++ d ++ bq "`}}"))
    as [| [| [| [| n]]]]; try lia.
  rewrite (parse_value_signatureVersion n d Hn). reflexivity.
Qed.

Section LastPlace.

Variable float32 : Type.
Variable float32_zero : float32.
Variable ParseFloat32 : text -> option float32.
Variable FormatFloat32 : float32 -> option text.

(** X17: the signature version in the last place of its object.  No comma
    follows the number, the normalizer leaves it between quotes (X6), the
    decoder finds a string where the field is an [int], and [main] ends
    the process on the error of [json.Unmarshal]: such an object is never
    converted. *)
Theorem process_last_signatureVersion : forall item d : text,
  d <> [] -> all_in is_numeric d ->
  process float32_zero ParseFloat32 FormatFloat32 item
    (bq "{sns: {signatureVersion: " ++ d ++ bq "}}")
  = Exit "Unable to unmarshal contents of item %q, %v"
      [ AText item; AError (UnmarshalTypeError "string" "int") ].
Proof.
  intros item d Hd Hn. unfold process.
  rewrite parseUnquotedJSON_normalize. unfold normalize.
  rewrite (key_text_signatureVersion d Hn).
  rewrite (value_text_signatureVersion d Hd Hn).
  rewrite (number_text_signatureVersion d Hn).
  cbn [bind]. unfold Unmarshal. rewrite (Parse_signatureVersion d Hn).
  vm_compute. reflexivity.
Qed.

End LastPlace.

Lemma process_last_signatureVersion_witness :
  process whole_zero whole_parse whole_format (bq "a/1")
    (bq "{sns: {signatureVersion: " ++ bq "1" ++ bq "}}")
  = Exit "Unable to unmarshal contents of item %q, %v"
      [ AText (bq "a/1"); AError (UnmarshalTypeError "string" "int") ].
Proof.
  apply (process_last_signatureVersion whole_version whole_zero whole_parse
           whole_format (bq "a/1") (bq "1")).
  - discriminate.
  - repeat constructor.
Defined.

(** * Errors while reading a body *)

Section ReadErrors.

Variable float32 : Type.
Variable float32_zero : float32.
Variable ParseFloat32 : text -> option float32.
Variable FormatFloat32 : float32 -> option text.
Variable world : Type.
Variable GetObject : world -> text -> text -> reply ReadCloser.
Variable PutObject : world -> text -> text -> text -> reply text * world.

(** X16: [getContents] drops the error of [ReadFrom]: a transfer that
    breaks is not noticed, and the run is the run on the bytes received
    before the break, as if each were a whole object. *)
Theorem main_loop_read_errors : forall (bucket : text) (l : list text) st,
  main_loop float32_zero ParseFloat32 FormatFloat32 GetObject PutObject
    bucket l st
  = main_loop float32_zero ParseFloat32 FormatFloat32 (reliable GetObject)
      PutObject bucket l st.
Proof.
  intros bucket. induction l as [| item l IH]; intro st; [reflexivity |].
  cbn [main_loop]. unfold reliable at 1.
  destruct (GetObject (s3 st) bucket item) as [obj | err]; [| reflexivity].
  change (getContents (without_failure obj)) with (getContents obj).
  destruct (process float32_zero ParseFloat32 FormatFloat32 item
              (getContents obj)) as [b | | |]; try reflexivity.
  destruct (PutObject (s3 st) bucket item b) as [[result | err] w];
    [apply IH | reflexivity].
Qed.

End ReadErrors.

(** * Reading what the encoder writes *)

(** ** Strings *)

Lemma escape_byte_parse : forall c t,
  (nat_of_ascii c <? 128) = true ->
  Json.parse_string (escape_byte c ++ t) 0
  = Json.prepend [ c ] (Json.parse_string t 0).
Proof.
  intros c t H.
  destruct c as [[] [] [] [] [] [] [] []];
    try (vm_compute in H; discriminate H); reflexivity.
Qed.

Lemma replacement_parse : forall t,
  Json.parse_string (bq "\ufffd" ++ t) 0
  = Json.prepend Json.replacement (Json.parse_string t 0).
Proof. intro t. reflexivity. Qed.

Lemma separator_parse : forall c2 t,
  (nat_of_ascii c2 =? 168) || (nat_of_ascii c2 =? 169) = true ->
  Json.parse_string (bq "\u202" ++ [ hex (nat_of_ascii c2 - 160) ] ++ t) 0
  = Json.prepend (Json.encode_rune (8064 + N.of_nat (nat_of_ascii c2))%N)
      (Json.parse_string t 0).
Proof.
  intros c2 t H.
  destruct c2 as [[] [] [] [] [] [] [] []];
    try (vm_compute in H; discriminate H); reflexivity.
Qed.

Lemma high_byte : forall c,
  (nat_of_ascii c <? 128) = false ->
  Ascii.eqb c dq = false /\ Ascii.eqb c "\" = false
  /\ (Json.code c <? 32) = false.
Proof.
  intros c H.
  destruct c as [[] [] [] [] [] [] [] []];
    try (vm_compute in H; discriminate H); vm_compute; auto.
Qed.

(** The bytes of a UTF-8 sequence are copied, and read as the same
    sequence. *)
Lemma utf8_len_escape : forall c s1 n x,
  (nat_of_ascii c <? 128) = false ->
  Json.utf8_len (c :: s1) = Some n ->
  n - 1 <= length s1
  /\ Json.utf8_len (c :: escape s1 (n - 1) ++ x) = Some n.
Proof.
  intros c s1 n x Hc H. unfold Json.utf8_len in *. unfold Json.code in *.
  rewrite Hc in *.
  destruct ((194 <=? nat_of_ascii c) && (nat_of_ascii c <=? 223)).
  { destruct s1 as [| c1 s1]; [discriminate |].
    destruct (Json.continuation c1) eqn:H1; [| discriminate].
    injection H as <-. cbn [Nat.sub escape app length]. rewrite H1.
    split; [lia | reflexivity]. }
  destruct ((224 <=? nat_of_ascii c) && (nat_of_ascii c <=? 239)).
  { destruct s1 as [| c1 [| c2 s1]]; try discriminate.
    match type of H with
    | (if ?b then _ else _) = _ => destruct b eqn:H1; [| discriminate]
    end.
    injection H as <-. cbn [Nat.sub escape app length]. rewrite H1.
    split; [lia | reflexivity]. }
  destruct ((240 <=? nat_of_ascii c) && (nat_of_ascii c <=? 244)).
  { destruct s1 as [| c1 [| c2 [| c3 s1]]]; try discriminate.
    match type of H with
    | (if ?b then _ else _) = _ => destruct b eqn:H1; [| discriminate]
    end.
    injection H as <-. cbn [Nat.sub escape app length]. rewrite H1.
    split; [lia | reflexivity]. }
  discriminate.
Qed.

(** What [encode_string] writes between the quotes is read as a string,
    up to the closing quote. *)
Lemma parse_string_escape : forall (s : text) copy rest,
  copy <= length s ->
  exists str,
    Json.parse_string (escape s copy ++ dq :: rest) copy = Some (str, rest).
Proof.
  induction s as [s IH] using length_induction. intros copy rest Hcopy.
  destruct s as [| c s1].
  - cbn [length] in Hcopy. assert (copy = 0) by lia. subst copy.
    exists []. cbn [escape app Json.parse_string].
    rewrite Ascii.eqb_refl. reflexivity.
  - destruct copy as [| k].
    + cbn [escape]. destruct (nat_of_ascii c <? 128) eqn:Hc.
      * rewrite <- app_assoc. rewrite (escape_byte_parse c _ Hc).
        destruct (IH s1 ltac:(cbn; lia) 0 rest ltac:(lia)) as [str ->].
        eexists. reflexivity.
      * destruct (Json.utf8_len (c :: s1)) as [n |] eqn:Hu.
        -- assert (Hplain :
             exists str,
               Json.parse_string ((c :: escape s1 (n - 1)) ++ dq :: rest) 0
               = Some (str, rest)).
           { destruct (utf8_len_escape c s1 n (dq :: rest) Hc Hu) as [Hn Hu'].
             destruct (high_byte c Hc) as [Hq [Hb H32]].
             cbn [app Json.parse_string]. rewrite Hq, Hb, H32, Hu'.
             destruct (IH s1 ltac:(cbn; lia) (n - 1) rest Hn) as [str ->].
             eexists. reflexivity. }
           destruct s1 as [| c1 [| c2 s3]]; try exact Hplain.
           destruct ((nat_of_ascii c =? 226) && (nat_of_ascii c1 =? 128)
                     && ((nat_of_ascii c2 =? 168) || (nat_of_ascii c2 =? 169)))
             eqn:Hsep; [| exact Hplain].
           apply andb_true_iff in Hsep. destruct Hsep as [_ Hsep].
           rewrite <- !app_assoc. rewrite (separator_parse c2 _ Hsep).
           destruct (IH s3 ltac:(cbn; lia) 0 rest ltac:(lia)) as [str ->].
           eexists. reflexivity.
        -- rewrite <- app_assoc. rewrite replacement_parse.
           destruct (IH s1 ltac:(cbn; lia) 0 rest ltac:(lia)) as [str ->].
           eexists. reflexivity.
    + cbn [escape app Json.parse_string].
      cbn [length] in Hcopy.
      destruct (IH s1 ltac:(cbn; lia) k rest ltac:(lia)) as [str ->].
      eexists. reflexivity.
Qed.

Lemma parse_value_encode_string : forall f s rest,
  exists str,
    Json.parse_value (S f) (encode_string s ++ rest) = Some (Json.Str str, rest).
Proof.
  intros f s rest. unfold encode_string.
  destruct (parse_string_escape s 0 rest ltac:(lia)) as [str H].
  exists str. cbn [app]. rewrite parse_value_string.
  rewrite <- app_assoc. cbn [app]. rewrite H. reflexivity.
Qed.

(** ** Numbers *)

Lemma uint_digits : forall d : Decimal.uint,
  Forall (fun c => is_digit c = true)
    (list_ascii_of_string (DecimalString.NilEmpty.string_of_uint d)).
Proof.
  induction d; cbn [DecimalString.NilEmpty.string_of_uint list_ascii_of_string];
    constructor; auto.
Qed.

(** The digits of a positive number do not begin with a zero. *)
Lemma to_uint_head : forall p d, Pos.to_uint p <> Decimal.D0 d.
Proof.
  intros p d H.
  assert (Hn : Decimal.unorm (Pos.to_uint p) = Pos.to_uint p).
  { rewrite <- (DecimalPos.Unsigned.to_of (Pos.to_uint p)).
    rewrite DecimalPos.Unsigned.of_to. reflexivity. }
  rewrite H in Hn. rewrite DecimalFacts.unorm_D0 in Hn.
  assert (Hd : d = Decimal.Nil \/ d <> Decimal.Nil)
    by (destruct d; [left; reflexivity | right; discriminate ..]).
  destruct Hd as [-> | Hd].
  - apply (DecimalPos.Unsigned.to_uint_nonzero p). exact H.
  - pose proof (DecimalFacts.nb_digits_unorm d Hd) as Hle.
    rewrite Hn in Hle. cbn [Decimal.nb_digits] in Hle. lia.
Qed.

Lemma pos_digits : forall p,
  exists c cs,
    FormatInt (Z.pos p) = c :: cs
    /\ is_digit c = true /\ c <> "0"%char
    /\ Forall (fun c => is_digit c = true) cs
    /\ FormatInt (Z.neg p) = "-"%char :: c :: cs.
Proof.
  intro p. unfold FormatInt. cbn [Z.to_int DecimalString.NilZero.string_of_int].
  pose proof (uint_digits (Pos.to_uint p)) as Hd.
  pose proof (to_uint_head p) as Hh.
  pose proof (DecimalPos.Unsigned.to_uint_nonnil p) as Hnil.
  unfold DecimalString.NilZero.string_of_uint.
  destruct (Pos.to_uint p) as [| d | d | d | d | d | d | d | d | d | d];
    try contradiction;
    try (exfalso; exact (Hh d eq_refl));
    cbn [DecimalString.NilEmpty.string_of_uint list_ascii_of_string] in *;
    inversion Hd; subst;
    eexists; eexists; (split; [reflexivity |]);
    (split; [reflexivity |]); (split; [discriminate |]);
    (split; [assumption | reflexivity]).
Qed.

Lemma span_digits : forall cs rest,
  Forall (fun c => is_digit c = true) cs ->
  span is_digit (cs ++ ","%char :: rest) = (cs, ","%char :: rest).
Proof. intros cs rest H. apply span_run; [exact H | reflexivity]. Qed.

Lemma parse_number_digits : forall c cs rest,
  is_digit c = true -> c <> "0"%char ->
  Forall (fun c => is_digit c = true) cs ->
  Json.parse_number (c :: cs ++ ","%char :: rest)
  = Some (c :: cs, ","%char :: rest)
  /\ Json.parse_number ("-"%char :: c :: cs ++ ","%char :: rest)
     = Some ("-"%char :: c :: cs, ","%char :: rest).
Proof.
  intros c cs rest Hc H0 Hcs.
  assert (Hs : span is_digit (c :: cs ++ ","%char :: rest)
               = (c :: cs, ","%char :: rest)).
  { apply (span_digits (c :: cs)). constructor; assumption. }
  destruct c as [[] [] [] [] [] [] [] []];
    try (vm_compute in Hc; discriminate Hc);
    try (exfalso; apply H0; reflexivity);
    (split; unfold Json.parse_number, Json.parse_digits; rewrite Hs;
     cbn [Ascii.eqb Bool.eqb orb andb app]; rewrite app_nil_r; reflexivity).
Qed.

Lemma parse_number_FormatInt : forall i rest,
  Json.parse_number (FormatInt i ++ ","%char :: rest)
  = Some (FormatInt i, ","%char :: rest).
Proof.
  intros [| p | p] rest.
  - reflexivity.
  - destruct (pos_digits p) as [c [cs [E [Hc [H0 [Hcs _]]]]]]. rewrite E.
    apply (parse_number_digits c cs rest Hc H0 Hcs).
  - destruct (pos_digits p) as [c [cs [_ [Hc [H0 [Hcs E]]]]]]. rewrite E.
    apply (parse_number_digits c cs rest Hc H0 Hcs).
Qed.

Lemma FormatInt_head : forall i,
  exists c cs, FormatInt i = c :: cs
               /\ (is_digit c = true \/ c = "-"%char).
Proof.
  intros [| p | p].
  - exists "0"%char, []. split; [reflexivity | left; reflexivity].
  - destruct (pos_digits p) as [c [cs [E [Hc _]]]]. exists c, cs. auto.
  - destruct (pos_digits p) as [c [cs [_ [_ [_ [_ E]]]]]].
    exists "-"%char, (c :: cs). auto.
Qed.

Lemma parse_value_number : forall f c s,
  is_digit c = true \/ c = "-"%char ->
  Json.parse_value (S f) (c :: s)
  = match Json.parse_number (c :: s) with
    | Some (lit, s2) => Some (Json.Number lit, s2)
    | None => None
    end.
Proof.
  intros f c s [H | ->]; [| reflexivity].
  destruct c as [[] [] [] [] [] [] [] []];
    try (vm_compute in H; discriminate H); reflexivity.
Qed.

Lemma parse_value_FormatInt : forall f i rest,
  Json.parse_value (S f) (FormatInt i ++ ","%char :: rest)
  = Some (Json.Number (FormatInt i), ","%char :: rest).
Proof.
  intros f i rest. pose proof (parse_number_FormatInt i rest) as H.
  destruct (FormatInt_head i) as [c [cs [E Hc]]]. rewrite E in *.
  cbn [app] in *. rewrite (parse_value_number f c _ Hc), H. reflexivity.
Qed.

(** ** Members *)

Lemma parse_members_unfold : forall f s,
  Json.parse_members (S f) (dq :: s)
  = match Json.parse_string s 0 with
    | Some (key, s2) =>
        match Json.skip_ws s2 with
        | ":"%char :: s3 =>
            match Json.parse_value f s3 with
            | Some (v, s4) =>
                match Json.skip_ws s4 with
                | ","%char :: s5 =>
                    match Json.parse_members f s5 with
                    | Some (ms, s6) => Some ((key, v) :: ms, s6)
                    | None => None
                    end
                | "}"%char :: s5 => Some ([ (key, v) ], s5)
                | _ => None
                end
            | None => None
            end
        | _ => None
        end
    | None => None
    end.
Proof. reflexivity. Qed.

(** A member that is followed by a comma. *)
Lemma member_step : forall (k : string) (value : text) (v : Json.value) g rest,
  Forall (fun c => plain c = true) (bq k) ->
  Json.parse_value g (value ++ ","%char :: rest) = Some (v, ","%char :: rest) ->
  Json.parse_members (S g) (dq :: bq k ++ dq :: ":"%char :: value ++ ","%char :: rest)
  = match Json.parse_members g rest with
    | Some (ms, s6) => Some ((bq k, v) :: ms, s6)
    | None => None
    end.
Proof.
  intros k value v g rest Hk Hv. rewrite parse_members_unfold.
  rewrite (parse_string_plain (bq k) _ Hk).
  change (Json.skip_ws (":"%char :: value ++ ","%char :: rest))
    with (":"%char :: value ++ ","%char :: rest).
  cbv beta iota. rewrite Hv.
  change (Json.skip_ws (","%char :: rest)) with (","%char :: rest).
  reflexivity.
Qed.

(** The first member of the object that is read. *)
Lemma parse_members_first : forall f s key s2 ms s',
  Json.parse_string s 0 = Some (key, ":"%char :: s2) ->
  Json.parse_members (S f) (dq :: s) = Some (ms, s') ->
  exists v s4 ms',
    Json.parse_value f s2 = Some (v, s4) /\ ms = (key, v) :: ms'.
Proof.
  intros f s key s2 ms s' Hk H. rewrite parse_members_unfold, Hk in H.
  change (Json.skip_ws (":"%char :: s2)) with (":"%char :: s2) in H.
  cbv beta iota in H.
  destruct (Json.parse_value f s2) as [[v s4] |]; [| discriminate H].
  exists v, s4.
  destruct (Json.skip_ws s4) as [| x s5]; [discriminate H |].
  destruct x as [[] [] [] [] [] [] [] []]; cbv beta iota in H;
    try discriminate H;
    try (injection H as <- _; eexists; split; reflexivity);
    destruct (Json.parse_members f s5) as [[ms' s6] |];
    try discriminate H;
    injection H as <- _; eexists; split; reflexivity.
Qed.

(** ** The object written for an [sns] *)

Local Abbreviation member k v rest :=
  (dq :: bq k ++ dq :: ":"%char :: v ++ rest).

Ltac plain_key := repeat constructor.

Ltac string_member H :=
  match type of H with
  | context [ Json.parse_members (S (S ?g))
                (dq :: bq ?k ++ dq :: ":"%char
                 :: encode_string ?a ++ ","%char :: ?rest) ] =>
      let str := fresh "str" in
      let Hs := fresh "Hs" in
      destruct (parse_value_encode_string g a (","%char :: rest))
        as [str Hs];
      rewrite (member_step k (encode_string a) (Json.Str str) (S g) rest
                 ltac:(plain_key) Hs) in H
  end.

Ltac number_member H :=
  match type of H with
  | context [ Json.parse_members (S (S ?g))
                (dq :: bq ?k ++ dq :: ":"%char
                 :: FormatInt ?i ++ ","%char :: ?rest) ] =>
      rewrite (member_step k (FormatInt i) (Json.Number (FormatInt i)) (S g)
                 rest ltac:(plain_key) (parse_value_FormatInt g i rest)) in H
  end.

(** The members of the object written for an [sns], up to the timestamp. *)
Lemma parse_members_sns :
  forall m ma vma a1 a2 a3 a4 a5 n a6 t rest ns s4,
  (forall g tail,
     Json.parse_value (S g) (ma ++ ","%char :: tail)
     = Some (vma, ","%char :: tail)) ->
  Json.parse_members (S (S (S (S (S (S (S (S (S (S m))))))))))
    (member "messageAttributes" ma
       (","%char :: member "signingCertUrl" (encode_string a1)
       (","%char :: member "messageId" (encode_string a2)
       (","%char :: member "message" (encode_string a3)
       (","%char :: member "unsubscribeUrl" (encode_string a4)
       (","%char :: member "type" (encode_string a5)
       (","%char :: member "signatureVersion" (FormatInt n)
       (","%char :: member "signature" (encode_string a6)
       (","%char :: member "timestamp" (FormatInt t)
       (","%char :: rest))))))))))
  = Some (ns, s4) ->
  first_member "timestamp" ns = Some (Json.Number (FormatInt t)).
Proof.
  intros m ma vma a1 a2 a3 a4 a5 n a6 t rest ns s4 Hma H.
 
  rewrite (member_step "messageAttributes" ma vma _ _
             ltac:(plain_key) (Hma _ _)) in H.
  do 5 string_member H. number_member H. string_member H. number_member H.
  destruct (Json.parse_members (S m) rest) as [[ms' s6] |]; [| discriminate H].
  injection H as <- _. reflexivity.
Qed.

Lemma Some_eq : forall (A : Type) (a b : A), Some a = Some b -> a = b.
Proof. intros A a b H. congruence. Qed.

Lemma Ok_eq : forall (A : Type) (a b : A), Ok a = Ok b -> a = b.
Proof. intros A a b H. congruence. Qed.

(** The parser is run on the whole text with one unit of fuel more than
    its length. *)
Lemma Parse_parse_value : forall o tree n,
  length o = n ->
  Json.Parse o = Some tree ->
  exists r, Json.parse_value (S n) o = Some (tree, r).
Proof.
  intros o tree n <- H. unfold Json.Parse in H.
  destruct (Json.parse_value (S (length o)) o) as [[v r] |];
    [| discriminate H].
  destruct (Json.skip_ws r); [| discriminate H].
  apply Some_eq in H. subst v. exists r. reflexivity.
Qed.

Lemma parse_value_object_members : forall f s v r,
  Json.parse_value (S (S f)) ("{"%char :: dq :: s) = Some (v, r) ->
  exists ms,
    Json.parse_members (S f) (dq :: s) = Some (ms, r) /\ v = Json.Object ms.
Proof.
  intros f s v r H. rewrite parse_value_object in H.
  destruct (Json.parse_members (S f) (dq :: s)) as [[ms r1] |];
    [| discriminate H].
  apply Some_eq in H. apply pair_equal_spec in H. destruct H as [<- <-].
  exists ms. split; reflexivity.
Qed.

(** The text of an envelope, member by member. *)
Lemma envelope_text : forall ma (a1 a2 a3 a4 a5 : text) n (a6 : text) t rest tail,
  bq "{`sns`:"
  ++ (bq "{`messageAttributes`:" ++ ma
      ++ bq ",`signingCertUrl`:" ++ encode_string a1
      ++ bq ",`messageId`:" ++ encode_string a2
      ++ bq ",`message`:" ++ encode_string a3
      ++ bq ",`unsubscribeUrl`:" ++ encode_string a4
      ++ bq ",`type`:" ++ encode_string a5
      ++ bq ",`signatureVersion`:" ++ FormatInt n
      ++ bq ",`signature`:" ++ encode_string a6
      ++ bq ",`timestamp`:" ++ FormatInt t
      ++ bq ",`topicArn`:" ++ rest)
  ++ tail
  = "{"%char :: dq :: bq "sns" ++ dq :: ":"%char :: "{"%char ::
    member "messageAttributes" ma
      (","%char :: member "signingCertUrl" (encode_string a1)
      (","%char :: member "messageId" (encode_string a2)
      (","%char :: member "message" (encode_string a3)
      (","%char :: member "unsubscribeUrl" (encode_string a4)
      (","%char :: member "type" (encode_string a5)
      (","%char :: member "signatureVersion" (FormatInt n)
      (","%char :: member "signature" (encode_string a6)
      (","%char :: member "timestamp" (FormatInt t)
      (","%char :: bq "`topicArn`:" ++ rest ++ tail))))))))).
Proof. intros. rewrite <- !app_assoc. reflexivity. Qed.

Section ReadingBack.

Variable float32 : Type.
Variable float32_zero : float32.
Variable ParseFloat32 : text -> option float32.
Variable FormatFloat32 : float32 -> option text.

(** What the encoder writes, if it is read as a JSON text at all, is an
    object whose first member is the sns object, and the timestamp of that
    object is the number [snsTimestamp.MarshalJSON] has written. *)
Lemma Parse_Marshal : forall (event : snsEvent float32) out tree,
  Marshal FormatFloat32 event = Ok out ->
  Json.Parse out = Some tree ->
  exists ms ns lit,
    tree = Json.Object ms
    /\ first_member "sns" ms = Some (Json.Object ns)
    /\ snsTimestamp_MarshalJSON (Timestamp (Sns event)) = Ok lit
    /\ first_member "timestamp" ns = Some (Json.Number lit).
Proof.
  intros event out tree H HP.
  unfold Marshal, Marshal_sns, snsTimestamp_MarshalJSON in H.
  assert (Hma : exists ma vma,
            encode_MessageAttributes (MessageAttributes (Sns event)) = Ok ma
            /\ forall g tail,
                 Json.parse_value (S g) (ma ++ ","%char :: tail)
                 = Some (vma, ","%char :: tail)).
  { destruct (MessageAttributes (Sns event)) as [x |].
    - exists (bq "{}"), (Json.Object []). split; reflexivity.
    - exists (bq "null"), Json.Null. split; reflexivity. }
  destruct Hma as [ma [vma [Ema Hma]]]. rewrite Ema in H. cbn [bind] in H.
  destruct (FormatFloat32 (EventVersion event)) as [f |]; [| discriminate H].
  apply Ok_eq in H. rewrite envelope_text in H. subst out.
  match type of HP with
  | Json.Parse ?o = _ =>
      assert (Hlen : exists m,
                length o
                = S (S (S (S (S (S (S (S (S (S (S (S (S m)))))))))))))
        by (eexists; reflexivity)
  end.
  destruct Hlen as [m Hlen].
  destruct (@Parse_parse_value _ _ _ Hlen HP) as [r Hv].
  apply parse_value_object_members in Hv. destruct Hv as [ms [Hm ->]].
  eapply parse_members_first with (key := bq "sns") in Hm;
    [| apply (parse_string_plain (bq "sns")); repeat constructor].
  destruct Hm as [vn [s4 [ms' [Hn ->]]]].
  apply parse_value_object_members in Hn. destruct Hn as [ns [Hs ->]].
  eexists. exists ns.
  exists (FormatInt (Time.UnixNano (Time.Unix 0 (Timestamp (Sns event))))).
  split; [reflexivity |]. split; [reflexivity |]. split; [reflexivity |].
  exact (@parse_members_sns _ _ _ _ _ _ _ _ _ _ _ _ _ _ Hma Hs).
Qed.

(** A number in the place of the timestamp is an error of the decoder. *)
Lemma Unmarshal_sns_timestamp_number : forall (data : text) ms ns lit,
  Json.Parse data = Some (Json.Object ms) ->
  first_member "sns" ms = Some (Json.Object ns) ->
  first_member "timestamp" ns = Some (Json.Number lit) ->
  exists e : error, Unmarshal float32_zero ParseFloat32 data = Err e.
Proof.
  intros data ms ns lit Hp Hs Ht. unfold Unmarshal. rewrite Hp.
  cbn [store_struct].
  destruct (store_members_sns_outcome float32 ParseFloat32 ms
              (snsEvent_zero float32_zero, None) ns Hs) as [st' Hout].
  destruct (store_members_number_timestamp ns st' lit Ht) as [e He].
  exists e.
  rewrite (Hout (Err e)).
  - reflexivity.
  - intros e' H'. congruence.
  - intros m a H'. congruence.
  - intros x H'. congruence.
  - intros m H'. congruence.
Qed.

(** C10: for every JSON document in which the timestamp member of the sns
    object holds a JSON number, [json.Unmarshal] returns an error: the
    timestamp codec stores the value in a string variable first, and a
    number is not a string.  (With repeated keys, the first sns member and
    its first timestamp member are meant; the decoder stops there.)  This
    is the shape of what [json.Marshal] writes: for every envelope, the
    bytes it returns, read as a JSON text, are an object whose sns member
    holds, under timestamp, the number written by
    [snsTimestamp.MarshalJSON]; and [json.Unmarshal] returns an error on
    these bytes, for every envelope, so that the decoding cannot be run
    again on what the encoding has produced. *)
Theorem Unmarshal_number_timestamp_of_Marshal :
  (forall (data : text) ms ns lit,
     Json.Parse data = Some (Json.Object ms) ->
     first_member "sns" ms = Some (Json.Object ns) ->
     first_member "timestamp" ns = Some (Json.Number lit) ->
     exists e : error, Unmarshal float32_zero ParseFloat32 data = Err e)
  /\ (forall (event : snsEvent float32) (out : text),
       Marshal FormatFloat32 event = Ok out ->
       (exists e : error, Unmarshal float32_zero ParseFloat32 out = Err e)
       /\ (forall tree : Json.value,
             Json.Parse out = Some tree ->
             exists ms ns lit,
               tree = Json.Object ms
               /\ first_member "sns" ms = Some (Json.Object ns)
               /\ snsTimestamp_MarshalJSON (Timestamp (Sns event)) = Ok lit
               /\ first_member "timestamp" ns = Some (Json.Number lit))).
Proof.
  split; [exact Unmarshal_sns_timestamp_number |].
  intros event out Hm. split.
  - destruct (Json.Parse out) as [tree |] eqn:Hp.
    + destruct (Parse_Marshal event out tree Hm Hp)
        as [ms [ns [lit [-> [Hs [_ Ht]]]]]].
      exact (Unmarshal_sns_timestamp_number out ms ns lit Hp Hs Ht).
    + exists SyntaxError. unfold Unmarshal. rewrite Hp. reflexivity.
  - intros tree Hp. exact (Parse_Marshal event out tree Hm Hp).
Qed.

End ReadingBack.

Lemma Unmarshal_number_timestamp_of_Marshal_witness :
  (exists e : error,
     Unmarshal whole_zero whole_parse (bq "{`sns`:{`timestamp`:1686830400000}}")
     = Err e)
  /\ exists (out : text) (tree : Json.value),
       Marshal whole_format
         {| Sns := {| MessageAttributes := Some {| Key := []; Value := [] |};
                      SigningCertURL := bq "https://sns.example.com/cert.pem";
                      MessageID := bq "abc-123";
                      Message := bq "say `hello` <now>";
                      UnsubscribeURL := bq "https://sns.example.com/?a=1&b=2";
                      SnsType := bq "Notification";
                      SignatureVersion := 1%Z;
                      Signature := bq "c2lnbmF0dXJl";
                      Timestamp := 1686830400000%Z;
                      TopicArn := bq "arn:aws:sns:eu-west-1:1:topic" |};
            EventVersion := 1%Z;
            EventSource := bq "aws:sns";
            EventSubscriptionArn := bq "arn:aws:sns:eu-west-1:1:topic:2" |}
       = Ok out
       /\ Json.Parse out = Some tree
       /\ (exists e : error, Unmarshal whole_zero whole_parse out = Err e)
       /\ exists ms ns lit,
            tree = Json.Object ms
            /\ first_member "sns" ms = Some (Json.Object ns)
            /\ snsTimestamp_MarshalJSON 1686830400000%Z = Ok lit
            /\ first_member "timestamp" ns = Some (Json.Number lit).
Proof.
  destruct (Unmarshal_number_timestamp_of_Marshal
              whole_version whole_zero whole_parse whole_format) as [H1 H2].
  split.
  - apply (H1 (bq "{`sns`:{`timestamp`:1686830400000}}")
              [ (bq "sns",
                 Json.Object
                   [ (bq "timestamp", Json.Number (bq "1686830400000")) ]) ]
              [ (bq "timestamp", Json.Number (bq "1686830400000")) ]
              (bq "1686830400000")).
    + vm_compute. reflexivity.
    + vm_compute. reflexivity.
    + vm_compute. reflexivity.
  - eexists. eexists.
    match goal with
    | |- ?M = Ok ?o /\ Json.Parse _ = Some ?t /\ _ =>
        assert (Hm : M = Ok o) by (vm_compute; reflexivity);
        assert (Hp : Json.Parse o = Some t) by (vm_compute; reflexivity)
    end.
    destruct (H2 _ _ Hm) as [He Hs].
    split; [exact Hm |]. split; [exact Hp |]. split; [exact He |].
    exact (Hs _ Hp).
Defined.

(** * The normalizer run twice, and the values the second pass quotes *)

(** C8: applying [parseUnquotedJSON] to what it has returned gives the same
    text again.  This holds for every input, and so for every input that
    already has the quoting of strict JSON: the text returned for [x] is
    a text the function returns as it is. *)
Theorem parseUnquotedJSON_fixed_point : forall x y : text,
  parseUnquotedJSON x = Ok y -> parseUnquotedJSON y = Ok y.
Proof.
  intros x y H. rewrite parseUnquotedJSON_normalize in H.
  injection H as <-.
  rewrite parseUnquotedJSON_normalize, normalize_idempotent. reflexivity.
Qed.

Lemma parseUnquotedJSON_fixed_point_witness :
  exists y : text,
    parseUnquotedJSON
      (bq "{`sns`: {`type`: `Notification`, `signatureVersion`: `1`, `topicArn`: `arn:aws:sns`}}")
    = Ok y
    /\ parseUnquotedJSON y = Ok y.
Proof.
  eexists.
  match goal with
  | |- ?P = Ok ?y /\ _ => assert (H : P = Ok y) by (vm_compute; reflexivity)
  end.
  split; [exact H |].
  exact (parseUnquotedJSON_fixed_point _ _ H).
Defined.



